(** * unity-cache-server: the filesystem cache backend (lib/cache/cache_fs.js)

    A shallow embedding of [CacheFS] and [PutTransactionFS]: the path
    deriver, the put transaction (write streams, finalize, commit) and the
    cleanup engine, with the file system, the clock, the uuid generator,
    the heap of write streams, the emitted events, the log and the calls
    left running on the event loop kept in an explicit [World] that every
    operation threads through. *)

From Stdlib Require Import ZArith QArith String Ascii List Lia Bool Sorted.
From Stdlib.Strings Require Byte.
From stdpp Require Import base option list gmap strings.

Local Open Scope Z_scope.

(** ** Strings, buffers and paths *)

(** A Node [Buffer] is a sequence of bytes. *)
Abbreviation Buffer := (list Byte.byte).

(** One hexadecimal digit, lower case, as [Buffer.toString('hex')] prints it. *)
Definition hexDigit (n : N) : ascii :=
  match n with
  | 0%N => "0" | 1%N => "1" | 2%N => "2" | 3%N => "3"
  | 4%N => "4" | 5%N => "5" | 6%N => "6" | 7%N => "7"
  | 8%N => "8" | 9%N => "9" | 10%N => "a" | 11%N => "b"
  | 12%N => "c" | 13%N => "d" | 14%N => "e" | _ => "f"
  end%char.

Definition unhexDigit (c : ascii) : option N :=
  (if Ascii.eqb c "0" then Some 0 else if Ascii.eqb c "1" then Some 1
   else if Ascii.eqb c "2" then Some 2 else if Ascii.eqb c "3" then Some 3
   else if Ascii.eqb c "4" then Some 4 else if Ascii.eqb c "5" then Some 5
   else if Ascii.eqb c "6" then Some 6 else if Ascii.eqb c "7" then Some 7
   else if Ascii.eqb c "8" then Some 8 else if Ascii.eqb c "9" then Some 9
   else if Ascii.eqb c "a" then Some 10 else if Ascii.eqb c "b" then Some 11
   else if Ascii.eqb c "c" then Some 12 else if Ascii.eqb c "d" then Some 13
   else if Ascii.eqb c "e" then Some 14 else if Ascii.eqb c "f" then Some 15
   else None)%N%char.

Definition isHexChar (c : ascii) : bool :=
  match unhexDigit c with Some _ => true | None => false end.

Definition hexHi (b : Byte.byte) : ascii := hexDigit (N.div (Byte.to_N b) 16).
Definition hexLo (b : Byte.byte) : ascii := hexDigit (N.modulo (Byte.to_N b) 16).

(** [buf.toString('hex')]: two digits per byte, high nibble first. *)
Fixpoint toString_hex (buf : Buffer) : string :=
  match buf with
  | [] => ""
  | b :: rest => String (hexHi b) (String (hexLo b) (toString_hex rest))
  end.

(** The byte two hex digits stand for; the inverse of one step of
    [toString_hex], used to show the encoding loses nothing. *)
Definition unhexByte (hi lo : ascii) : option Byte.byte :=
  match unhexDigit hi, unhexDigit lo with
  | Some h, Some l => Byte.of_N (16 * h + l)
  | _, _ => None
  end.

(** [path.join(a, b)] on a normalised [a] and a single segment [b]. *)
Definition path_join (a b : string) : string := a +:+ "/" +:+ b.

(** [s.substr(0, 2)]. *)
Definition substr_0_2 (s : string) : string := substring 0 2 s.

(** ** CacheFS: the key / path deriver *)

(** What a property of the object literal of [_calcFilename] can be: one
    of its own three strings, or something every object inherits from
    [Object.prototype] (a built-in function, or the prototype itself), or
    [undefined]. *)
Inductive ext_value :=
| ext_string (s : string)
| ext_function (name : string)
| ext_object
| ext_undefined.

(** The keys under which [Object.prototype] holds a built-in function of
    the same name; under 'constructor' it holds the function [Object] and
    under '__proto__' an accessor that gives the prototype. *)
Definition Object_prototype_functions : list string :=
  ["__defineGetter__"; "__defineSetter__"; "hasOwnProperty"; "__lookupGetter__";
   "__lookupSetter__"; "isPrototypeOf"; "propertyIsEnumerable"; "toString";
   "valueOf"; "toLocaleString"].

(** The object literal [{ 'i': 'info', 'a': 'bin', 'r': 'resource' }]
    indexed by [type]: the lookup goes through the own keys and then
    through the prototype; a key found in neither gives [undefined]. *)
Definition ext_table (type : string) : ext_value :=
  if String.eqb type "i" then ext_string "info"
  else if String.eqb type "a" then ext_string "bin"
  else if String.eqb type "r" then ext_string "resource"
  else if String.eqb type "constructor" then ext_function "Object"
  else if existsb (String.eqb type) Object_prototype_functions then ext_function type
  else if String.eqb type "__proto__" then ext_object
  else ext_undefined.

(** How a template literal prints the value: [undefined] as the word
    itself, a built-in function as its source text, a plain object by its
    tag. *)
Definition template_of (v : ext_value) : string :=
  match v with
  | ext_string s => s
  | ext_function name => "function " +:+ name +:+ "() { [native code] }"
  | ext_object => "[object Object]"
  | ext_undefined => "undefined"
  end.

(** The three artifact kinds the store knows. *)
Definition recognized (type : string) : bool :=
  String.eqb type "a" || String.eqb type "i" || String.eqb type "r".

(** ** JavaScript values the code inspects *)

(** A JS number: a finite value (every finite double is a rational), or one
    of the three non-finite ones. *)
Inductive number := Finite (q : Q) | NaN | PosInfinity | NegInfinity.

Inductive value :=
| VUndefined
| VNull
| VBoolean (b : bool)
| VNumber (n : number)
| VString (s : string).

Definition typeof (v : value) : string :=
  match v with
  | VUndefined => "undefined"
  | VNull => "object"
  | VBoolean _ => "boolean"
  | VNumber _ => "number"
  | VString _ => "string"
  end.

(** [n <= 0] on numbers; every comparison with NaN is false. *)
Definition number_le0 (n : number) : bool :=
  match n with
  | Finite q => Qle_bool q 0
  | NaN => false
  | PosInfinity => false
  | NegInfinity => true
  end.

(** [size <= 0] where the code evaluates it, that is on a number. *)
Definition value_le0 (v : value) : bool :=
  match v with VNumber n => number_le0 n | _ => false end.

(** [bytesWritten === size]: strict equality of an integer byte count with
    a stored value; no coercion, so only an equal finite number matches. *)
Definition strict_eq_bytes (bytes : Z) (v : value) : bool :=
  match v with
  | VNumber (Finite q) => Qeq_bool (inject_Z bytes) q
  | _ => false
  end.

(** What the spec calls a positive integer. *)
Definition positive_integer (v : value) : Prop :=
  match v with
  | VNumber (Finite q) => exists k : Z, 0 < k /\ Qeq q (inject_Z k)
  | _ => False
  end.

(** ** Errors and promises *)

(** The errors the code raises, one constructor per [new Error(...)] of the
    source, and the failures of the file system calls. *)
Inductive Error :=
| InvalidSize
| UnrecognizedType (type : string)
| FileSizeMismatch
| InvalidExpireTimeSpan
| SystemError (code path : string).

Definition message (e : Error) : string :=
  match e with
  | InvalidSize => "Invalid size for write stream"
  | UnrecognizedType type => "Unrecognized type '" +:+ type +:+ "' for transaction."
  | FileSizeMismatch => "Transaction failed; file size mismatch"
  | InvalidExpireTimeSpan => "Invalid expireTimeSpan option"
  | SystemError code path => code +:+ ": " +:+ path
  end.

(** The taxonomy of the specification. *)
Inductive ErrorClass := InvalidArgument | SizeMismatch | NotFound | IOFault.

Definition classify (e : Error) : ErrorClass :=
  match e with
  | InvalidSize | UnrecognizedType _ | InvalidExpireTimeSpan => InvalidArgument
  | FileSizeMismatch => SizeMismatch
  | SystemError code _ => if String.eqb code "ENOENT" then NotFound else IOFault
  end.

(** How a promise ends: resolved, rejected, or never settled. *)
Inductive Promise (A : Type) :=
| Resolved (a : A)
| Rejected (e : Error)
| Pending.
Arguments Resolved {A} a.
Arguments Rejected {A} e.
Arguments Pending {A}.

(** ** The store object *)

(** [moment.duration(...)], an external library: what the code asks of the
    result. *)
Record Duration := mkDuration {
  isValid : bool;
  asMilliseconds : Z
}.

Record CleanupOptions := mkCleanupOptions {
  expireTimeSpan : option Duration;
  maxCacheSize : option Z
}.

Record CacheFS := mkCacheFS {
  _cachePath : string;
  cleanupOptions : CleanupOptions
}.

(** ** The environment *)

(** [fs.Stats], as far as the code reads it. Times are milliseconds. *)
Record Stats := mkStats {
  stats_size : Z;
  stats_atime : Z;
  stats_isDirectory : bool
}.

(** A [fs.WriteStream] object. *)
Record WriteStream := mkWriteStream {
  ws_path : string;
  bytesWritten : Z;
  closed : bool
}.

(** What [progressData()] returns. *)
Record ProgressData := mkProgressData {
  pd_cacheCount : nat;
  pd_cacheSize : Z;
  pd_deleteCount : nat;
  pd_deleteSize : Z
}.

(** The events the cache object emits. *)
Inductive Event :=
| cleanup_search_progress (d : ProgressData)
| cleanup_search_finish (d : ProgressData)
| cleanup_delete_item (item : string)
| cleanup_delete_finish (d : ProgressData).

(** The lines [helpers.log] receives from this file. *)
Inductive LogLine :=
| LOG_TEST_added (size : value) (filePath : string)
| LOG_ERR (err : Error).

(** A call of [_addFileToCache] that [moveFile] has made and not awaited:
    the arguments of the call and, for the handler that logs its success,
    the size of the file. *)
Record Task := mkTask {
  task_self : CacheFS;
  task_type : string;
  task_guid : Buffer;
  task_hash : Buffer;
  task_sourcePath : string;
  task_size : value
}.

(** Everything outside the two classes. [fs] maps a path to its stats,
    directories included; [locked] holds the paths the operating system
    refuses to unlink, rename or create; [rng] and [draws] are the uuid
    generator; [producers] says, for each write stream by handle, how many
    bytes its writer puts in before ending it ([None]: it never ends);
    [heap] holds the write stream objects, a handle being an index;
    [inflight] holds the calls that were started and that nobody awaits:
    the event loop lets them end later, in an order of its own. *)
Record World := mkWorld {
  fs : gmap string Stats;
  locked : gset string;
  clock : Z;
  rng : nat -> string;
  draws : nat;
  producers : nat -> option Z;
  heap : list WriteStream;
  events : list Event;
  logs : list LogLine;
  inflight : list Task
}.

Definition set_fs (f : gmap string Stats -> gmap string Stats) (w : World) : World :=
  mkWorld (f (fs w)) (locked w) (clock w) (rng w) (draws w) (producers w)
          (heap w) (events w) (logs w) (inflight w).

Definition set_heap (f : list WriteStream -> list WriteStream) (w : World) : World :=
  mkWorld (fs w) (locked w) (clock w) (rng w) (draws w) (producers w)
          (f (heap w)) (events w) (logs w) (inflight w).

(** [self.emit(...)]. *)
Definition emit (e : Event) (w : World) : World :=
  mkWorld (fs w) (locked w) (clock w) (rng w) (draws w) (producers w)
          (heap w) (events w ++ [e]) (logs w) (inflight w).

(** [helpers.log(...)]. *)
Definition log (l : LogLine) (w : World) : World :=
  mkWorld (fs w) (locked w) (clock w) (rng w) (draws w) (producers w)
          (heap w) (events w) (logs w ++ [l]) (inflight w).

(** [uuid()]: the next name of the generator. *)
Definition uuid (w : World) : string * World :=
  (rng w (draws w),
   mkWorld (fs w) (locked w) (clock w) (rng w) (S (draws w)) (producers w)
           (heap w) (events w) (logs w) (inflight w)).

(** A call is left running. *)
Definition spawn (t : Task) (w : World) : World :=
  mkWorld (fs w) (locked w) (clock w) (rng w) (draws w) (producers w)
          (heap w) (events w) (logs w) (inflight w ++ [t]).

Definition set_inflight (f : list Task -> list Task) (w : World) : World :=
  mkWorld (fs w) (locked w) (clock w) (rng w) (draws w) (producers w)
          (heap w) (events w) (logs w) (f (inflight w)).

(** Time passing. *)
Definition advance (dt : Z) (w : World) : World :=
  mkWorld (fs w) (locked w) (clock w + dt) (rng w) (draws w) (producers w)
          (heap w) (events w) (logs w) (inflight w).

(** *** File system calls *)

Definition fs_unlink (p : string) (w : World) : Error + World :=
  if decide (p ∈ locked w) then inl (SystemError "EPERM" p)
  else match fs w !! p with
       | None => inl (SystemError "ENOENT" p)
       | Some st =>
           if stats_isDirectory st then inl (SystemError "EISDIR" p)
           else inr (set_fs (delete p) w)
       end.

(** [fs.move(src, dest, { overwrite: true })] of fs-extra, an external
    library. A source that is not there fails the move and nothing changes,
    and so does a destination the system refuses to replace or create.
    Otherwise the source is renamed over the destination; when the system
    refuses to take the source away, the library falls back on removing the
    destination, copying the source there and unlinking the source: the
    copy is made, the source stays, and the error is that of the unlink. *)
Definition fs_move (src dest : string) (w : World) : option Error * World :=
  match fs w !! src with
  | None => (Some (SystemError "ENOENT" src), w)
  | Some st =>
      if decide (dest ∈ locked w) then (Some (SystemError "EPERM" dest), w)
      else if decide (src ∈ locked w) then
        (Some (SystemError "EPERM" src), set_fs (insert dest st) w)
      else (None, set_fs (fun m => <[dest := st]> (delete src m)) w)
  end.

(** [fs.ensureFile(file)]: an existing file is left alone, a missing one is
    created empty. *)
Definition fs_ensureFile (file : string) (w : World) : Error + World :=
  match fs w !! file with
  | Some st =>
      if stats_isDirectory st then inl (SystemError "EISDIR" file) else inr w
  | None =>
      if decide (file ∈ locked w) then inl (SystemError "EPERM" file)
      else inr (set_fs (insert file (mkStats 0 (clock w) false)) w)
  end.

(** [fs.createWriteStream(file, { flags: 'w', ... })]: the file is
    truncated and a fresh stream object is allocated. *)
Definition fs_createWriteStream (file : string) (w : World) : nat * World :=
  (List.length (heap w),
   set_heap (fun h => h ++ [mkWriteStream file 0 false])
     (set_fs (insert file (mkStats 0 (clock w) false)) w)).

(** The 'close' event of stream [h]: its writer has put in [n] bytes and
    ended it; the file, if it is still there, has that size. *)
Definition close_stream (h : nat) (n : Z) (w : World) : World :=
  match heap w !! h with
  | None => w
  | Some s =>
      set_heap (fun hp => <[h := mkWriteStream (ws_path s) n true]> hp)
        (set_fs (alter (fun st => mkStats n (stats_atime st) (stats_isDirectory st))
                       (ws_path s)) w)
  end.

(** [fs.stat(path)] as [getFileInfo] uses it. *)
Definition fs_stat (p : string) (w : World) : Error + Stats :=
  match fs w !! p with
  | Some st => inr st
  | None => inl (SystemError "ENOENT" p)
  end.

(** Reading a stream object through its handle. *)
Definition stream_closed (w : World) (h : nat) : bool :=
  from_option closed false (heap w !! h).

Definition stream_bytesWritten (w : World) (h : nat) : Z :=
  from_option bytesWritten 0 (heap w !! h).

(** Waiting for the 'close' event of an open stream: the event loop runs
    until the writer has ended it; a writer that never does leaves the wait
    unsettled. *)
Definition await_close (h : nat) (w : World) : option World :=
  match producers w h with
  | Some n => Some (close_stream h n w)
  | None => None
  end.

(** ** JavaScript objects and arrays *)

(** [obj[k] = v] on an object with string keys: a new key goes last, an
    existing key keeps its place ([Object.values] follows that order). *)
Fixpoint object_set {A : Type} (k : string) (v : A) (obj : list (string * A)) : list (string * A) :=
  match obj with
  | [] => [(k, v)]
  | (k', v') :: rest =>
      if String.eqb k' k then (k, v) :: rest else (k', v') :: object_set k v rest
  end.

Definition object_get {A : Type} (k : string) (obj : list (string * A)) : option A :=
  snd <$> List.find (fun kv => String.eqb (fst kv) k) obj.

Definition Object_values {A : Type} (obj : list (string * A)) : list A := map snd obj.

(** One pass of the insertion loop of [Array.prototype.sort]: [element]
    moves left past every [tmp] with [comparefn(tmp, element) > 0]. The
    sorted part is kept reversed, its last element first. *)
Fixpoint sort_insert {A : Type} (comparefn : A -> A -> Z) (element : A) (sorted_rev : list A) : list A :=
  match sorted_rev with
  | [] => [element]
  | tmp :: more =>
      if 0 <? comparefn tmp element
      then tmp :: sort_insert comparefn element more
      else element :: tmp :: more
  end.

(** [array.sort(comparefn)]. The comparator of the cleanup returns a
    boolean, hence never a negative number, and for such a comparator the
    language leaves the order to the engine. The model is the insertion
    sort that V8 up to 6.x (Node up to 10) runs on arrays of at most ten
    elements, which only asks whether [comparefn(x, y) > 0]. On longer
    arrays that engine runs a quicksort, and later engines leave any array
    as it is under such a comparator: all of them agree with the model on
    an array of at most ten elements that is already in ascending order,
    and all of them return a permutation of the array. *)
Definition Array_sort {A : Type} (comparefn : A -> A -> Z) (array : list A) : list A :=
  rev (fold_left (fun sorted_rev element => sort_insert comparefn element sorted_rev) array []).

(** ** PutTransactionFS *)

(** A value of [this._streams]. *)
Record StreamEntry := mkStreamEntry {
  se_file : string;
  se_type : string;
  se_size : value;
  se_stream : nat
}.

(** An element of [this._files]. *)
Record FileEntry := mkFileEntry {
  fe_file : string;
  fe_type : string;
  fe_size : value
}.

Record PutTransactionFS := mkPutTransactionFS {
  guid : Buffer;
  hash : Buffer;
  tx_cachePath : string;
  _streams : list (string * StreamEntry);
  _files : list FileEntry
}.

(** The constructor. *)
Definition new_PutTransactionFS (guid hash : Buffer) (cachePath : string) : PutTransactionFS :=
  mkPutTransactionFS guid hash cachePath [] [].

Definition set_streams (s : list (string * StreamEntry)) (tx : PutTransactionFS) : PutTransactionFS :=
  mkPutTransactionFS (guid tx) (hash tx) (tx_cachePath tx) s (_files tx).

Definition set_files (f : list FileEntry) (tx : PutTransactionFS) : PutTransactionFS :=
  mkPutTransactionFS (guid tx) (hash tx) (tx_cachePath tx) (_streams tx) f.

Definition file_of_stream (stream : StreamEntry) : FileEntry :=
  mkFileEntry (se_file stream) (se_type stream) (se_size stream).

(** [processClosedStream]: push the file when the byte count is the declared
    size, throw otherwise. *)
Definition processClosedStream (w : World) (stream : StreamEntry) (files : list FileEntry)
  : Error + list FileEntry :=
  if strict_eq_bytes (stream_bytesWritten w (se_stream stream)) (se_size stream)
  then inr (files ++ [file_of_stream stream])
  else inl FileSizeMismatch.

(** The [for] loop of [_closeAllStreams]. *)
Fixpoint closeLoop (files : list StreamEntry) (w : World) (acc : list FileEntry)
  : Promise unit * World * list FileEntry :=
  match files with
  | [] => (Resolved tt, w, acc)
  | file :: rest =>
      if stream_closed w (se_stream file) then
        match processClosedStream w file acc with
        | inl err => (Rejected err, w, acc)
        | inr acc' => closeLoop rest w acc'
        end
      else
        match await_close (se_stream file) w with
        | None => (Pending, w, acc)
        | Some w' =>
            match processClosedStream w' file acc with
            | inl err => (Rejected err, w', acc)
            | inr acc' => closeLoop rest w' acc'
            end
        end
  end.

Definition _closeAllStreams (w : World) (tx : PutTransactionFS)
  : Promise unit * World * PutTransactionFS :=
  let files := Object_values (_streams tx) in
  if Nat.eqb (List.length files) 0 then (Resolved tt, w, tx)
  else
    let '(r, w', acc) := closeLoop files w (_files tx) in
    (r, w', set_files acc tx).

(** Modelled from the spec: [PutTransaction.finalize] of the base class is
    in lib/cache/cache_base, which is not part of the sources at hand; once
    the streams are verified the base has nothing left to do and resolves. *)
Definition PutTransaction_finalize (w : World) (tx : PutTransactionFS)
  : Promise unit * World * PutTransactionFS :=
  (Resolved tt, w, tx).

Definition finalize (w : World) (tx : PutTransactionFS)
  : Promise unit * World * PutTransactionFS :=
  match _closeAllStreams w tx with
  | (Resolved _, w', tx') => PutTransaction_finalize w' tx'
  | other => other
  end.

(** [get files()] and [get manifest()]. *)
Definition files (tx : PutTransactionFS) : list FileEntry := _files tx.
Definition manifest (tx : PutTransactionFS) : list string := map fe_type (files tx).

Definition getWriteStream (type : string) (size : value) (w : World) (tx : PutTransactionFS)
  : Promise nat * World * PutTransactionFS :=
  let '(u, w1) := uuid w in
  let file := path_join (tx_cachePath tx) u in
  if negb (String.eqb (typeof size) "number") || value_le0 size then
    (Rejected InvalidSize, w1, tx)
  else if negb (String.eqb type "a") && negb (String.eqb type "i")
          && negb (String.eqb type "r") then
    (Rejected (UnrecognizedType type), w1, tx)
  else
    match fs_ensureFile file w1 with
    | inl err => (Rejected err, w1, tx)
    | inr w2 =>
        let '(stream, w3) := fs_createWriteStream file w2 in
        (Resolved stream, w3,
         set_streams (object_set type (mkStreamEntry file type size stream) (_streams tx)) tx)
    end.

(** ** CacheFS: the store *)

(** [moment.duration(x)] of an option that is not set is the zero duration. *)
Definition moment_duration (x : option Duration) : Duration :=
  match x with
  | Some d => d
  | None => mkDuration true 0
  end.

Definition createPutTransaction (self : CacheFS) (guid hash : Buffer) : PutTransactionFS :=
  new_PutTransactionFS guid hash (_cachePath self).

(** ** CacheFS: cleanup *)

(** What [klaw] hands to the pipe for each entry it meets. *)
Record Item := mkItem {
  item_path : string;
  item_stats : Stats
}.

(** [p] is [root] or lies below it. *)
Definition under (root p : string) : bool :=
  String.eqb p root || String.prefix (root +:+ "/") p.

(** [klaw(root)], an external library: every entry of the tree below
    [root], the root and the directories included, files directly under the
    root as well; a root that does not exist is the stream's 'error'. The
    library hands the entries over in the order the directories are read,
    which the operating system decides; the model lists them in the order
    of the map, and the order is its own. *)
Definition klaw (root : string) (w : World) : Error + list Item :=
  match fs w !! root with
  | None => inl (SystemError "ENOENT" root)
  | Some _ =>
      inr (map (fun kv => mkItem (fst kv) (snd kv))
             (List.filter (fun kv => under root (fst kv)) (map_to_list (fs w))))
  end.

(** The four variables the closures of [cleanup] share. *)
Record CleanupState := mkCleanupState {
  allItems : list Item;
  deleteItems : list string;
  cacheSize : Z;
  deleteSize : Z
}.

Definition cleanup_init : CleanupState := mkCleanupState [] [] 0 0.

Definition progressData (st : CleanupState) : ProgressData :=
  mkProgressData (List.length (allItems st)) (cacheSize st)
                 (List.length (deleteItems st)) (deleteSize st).

(** [filterTransform.transform] on one item, together with the 'data'
    handler that receives what it pushes. *)
Definition filterTransform (minFileAccessTime : Z) (acc : CleanupState * World) (item : Item)
  : CleanupState * World :=
  let '(st, w) := acc in
  if stats_isDirectory (item_stats item) then (st, w)
  else
    let st1 := mkCleanupState (allItems st ++ [item]) (deleteItems st)
                 (cacheSize st + stats_size (item_stats item)) (deleteSize st) in
    let st2 :=
      if stats_atime (item_stats item) <? minFileAccessTime then
        mkCleanupState (allItems st1) (deleteItems st1 ++ [item_path item])
          (cacheSize st1) (deleteSize st1 + stats_size (item_stats item))
      else st1 in
    (st2, emit (cleanup_search_progress (progressData st2)) w).

(** The comparator [(a, b) => a.stats.atime > b.stats.atime], its boolean
    read as a number. *)
Definition atime_comparefn (a b : Item) : Z :=
  if stats_atime (item_stats b) <? stats_atime (item_stats a) then 1 else 0.

(** The [for] loop of the size pass, with its [break]. *)
Fixpoint size_pass (maxCacheSize : Z) (items : list Item) (st : CleanupState) (w : World)
  : CleanupState * World :=
  match items with
  | [] => (st, w)
  | item :: rest =>
      let w1 := emit (cleanup_search_progress (progressData st)) w in
      let st1 := mkCleanupState (allItems st) (deleteItems st ++ [item_path item])
                   (cacheSize st) (deleteSize st + stats_size (item_stats item)) in
      if cacheSize st1 - deleteSize st1 <=? maxCacheSize then (st1, w1)
      else size_pass maxCacheSize rest st1 w1
  end.

(** [maxCacheSize > 0 && cacheSize - deleteSize > maxCacheSize]; an option
    that is not set compares false. *)
Definition over_budget (maxCacheSize : option Z) (st : CleanupState) : bool :=
  match maxCacheSize with
  | Some m => (0 <? m) && (m <? cacheSize st - deleteSize st)
  | None => false
  end.

(** The first half of [finalize]: the size pass and 'cleanup_search_finish'. *)
Definition finalize_search (maxCacheSize : option Z) (st : CleanupState) (w : World)
  : CleanupState * World :=
  let '(st1, w1) :=
    if over_budget maxCacheSize st then
      let sorted := Array_sort atime_comparefn (allItems st) in
      size_pass (default 0 maxCacheSize) sorted
        (mkCleanupState sorted (deleteItems st) (cacheSize st) (deleteSize st)) w
    else (st, w) in
  (st1, emit (cleanup_search_finish (progressData st1)) w1).

(** The deletion loop: an [unlink] that fails throws out of the loop. *)
Fixpoint delete_loop (items : list string) (w : World) : option Error * World :=
  match items with
  | [] => (None, w)
  | item :: rest =>
      let w1 := emit (cleanup_delete_item item) w in
      match fs_unlink item w1 with
      | inl err => (Some err, w1)
      | inr w2 => delete_loop rest w2
      end
  end.

(** [finalize] of [cleanup]. *)
Definition cleanup_finalize (dryRun : bool) (maxCacheSize : option Z)
    (st : CleanupState) (w : World) : Promise unit * World :=
  let '(st1, w1) := finalize_search maxCacheSize st w in
  let '(thrown, w2) :=
    if negb dryRun then delete_loop (deleteItems st1) w1 else (None, w1) in
  match thrown with
  | Some err => (Rejected err, w2)
  | None => (Resolved tt, emit (cleanup_delete_finish (progressData st1)) w2)
  end.

(** The walk: every item of the stream through [filterTransform]. *)
Definition walk (minFileAccessTime : Z) (items : list Item) (w : World)
  : CleanupState * World :=
  fold_left (filterTransform minFileAccessTime) items (cleanup_init, w).

(** The files a cleanup has marked once its search is over. *)
Definition marked (minFileAccessTime : Z) (maxCacheSize : option Z) (items : list Item)
    (w : World) : CleanupState :=
  let '(st, w1) := walk minFileAccessTime items w in
  fst (finalize_search maxCacheSize st w1).

(** [cleanup(dryRun = true)]. *)
Definition cleanup (self : CacheFS) (dryRun : bool) (w : World) : Promise unit * World :=
  let expireDuration := moment_duration (expireTimeSpan (cleanupOptions self)) in
  if negb (isValid expireDuration) || (asMilliseconds expireDuration =? 0) then
    (Rejected InvalidExpireTimeSpan, w)
  else
    let minFileAccessTime := clock w - asMilliseconds expireDuration in
    let maxCacheSize := maxCacheSize (cleanupOptions self) in
    match klaw (_cachePath self) w with
    | inl err => (Rejected err, w)
    | inr items =>
        let '(st, w1) := walk minFileAccessTime items w in
        cleanup_finalize dryRun maxCacheSize st w1
    end.

(** ** CacheFS: file names, commit *)

Section Store.

(** [helpers.GUIDBufferToString] lives in lib/helpers, which is not part of
    the sources at hand: the store is parametric in it. *)
Variable GUIDBufferToString : Buffer -> string.

Definition _calcFilename (type : string) (guid hash : Buffer) : string :=
  let ext := ext_table type in
  GUIDBufferToString guid +:+ "-" +:+ toString_hex hash +:+ "." +:+ template_of ext.

(** [path.join(this._cachePath, fileName.substr(0, 2), fileName)]. *)
Definition _calcFilepath (cachePath type : string) (guid hash : Buffer) : string :=
  let fileName := _calcFilename type guid hash in
  path_join (path_join cachePath (substr_0_2 fileName)) fileName.

(** [_addFileToCache], from the call to the end of the move it awaits. *)
Definition _addFileToCache (self : CacheFS) (type : string) (guid hash : Buffer)
    (sourcePath : string) (w : World) : Promise string * World :=
  let filePath := _calcFilepath (_cachePath self) type guid hash in
  match fs_move sourcePath filePath w with
  | (Some err, w') => (Rejected err, w')
  | (None, w') => (Resolved filePath, w')
  end.

Definition getFileInfo (self : CacheFS) (type : string) (guid hash : Buffer) (w : World)
  : Promise Z :=
  match fs_stat (_calcFilepath (_cachePath self) type guid hash) w with
  | inl err => Rejected err
  | inr stats => Resolved (stats_size stats)
  end.

(** A [fs.ReadStream] that has opened: the file it reads and the number of
    bytes it will deliver. *)
Record ReadStream := mkReadStream {
  rs_path : string;
  rs_length : Z
}.

(** [getFileStream]: the promise resolves on the stream's 'open' and
    rejects, after logging, on its 'error'. A missing file fails to open; a
    directory opens and fails at the first read, which is logged after the
    promise has resolved. *)
Definition getFileStream (self : CacheFS) (type : string) (guid hash : Buffer) (w : World)
  : Promise ReadStream * World :=
  let p := _calcFilepath (_cachePath self) type guid hash in
  match fs w !! p with
  | None =>
      (Rejected (SystemError "ENOENT" p), log (LOG_ERR (SystemError "ENOENT" p)) w)
  | Some st =>
      if stats_isDirectory st
      then (Resolved (mkReadStream p 0), log (LOG_ERR (SystemError "EISDIR" p)) w)
      else (Resolved (mkReadStream p (stats_size st)), w)
  end.

(** [moveFile] of [endPutTransaction]: it calls [_addFileToCache], attaches
    the two logging handlers to the promise of the call and returns; the
    promise is neither awaited nor returned, so the call is left running
    and [moveFile] itself resolves at once. *)
Definition moveFile (self : CacheFS) (transaction : PutTransactionFS) (w : World)
    (file : FileEntry) : World :=
  spawn (mkTask self (fe_type file) (guid transaction) (hash transaction)
           (fe_file file) (fe_size file)) w.

(** A call left running by [moveFile] ends: the move has been made or has
    failed, and the handler for that outcome writes to the log. *)
Definition settle (t : Task) (w : World) : World :=
  match _addFileToCache (task_self t) (task_type t) (task_guid t) (task_hash t)
          (task_sourcePath t) w with
  | (Resolved filePath, w') => log (LOG_TEST_added (task_size t) filePath) w'
  | (Rejected err, w') => log (LOG_ERR err) w'
  | (Pending, w') => w'
  end.

(** One turn of the event loop: the [i]-th of the calls in flight ends. The
    move of a call is taken as one step: the steps of two moves are not
    interleaved. *)
Definition event_loop_step (w : World) (i : nat) : World :=
  match inflight w !! i with
  | Some t => settle t (set_inflight (delete i) w)
  | None => w
  end.

(** The event loop lets the calls in flight end in the order [schedule]
    names them. *)
Definition event_loop (schedule : list nat) (w : World) : World :=
  fold_left event_loop_step schedule w.

(** [endPutTransaction]: once [finalize] has resolved, [moveFile] is called
    on every file in the order of [transaction.files]; since each of those
    calls resolves at once, so does the commit, with every move still in
    flight. *)
Definition endPutTransaction (self : CacheFS) (w : World) (transaction : PutTransactionFS)
  : Promise unit * World * PutTransactionFS :=
  match finalize w transaction with
  | (Resolved _, w1, tx1) =>
      (Resolved tt, fold_left (moveFile self tx1) (files tx1) w1, tx1)
  | other => other
  end.

End Store.

(** ** The vocabulary of the statements *)

(** Every character of [s] passes [P]. *)
Fixpoint string_forallb (P : ascii -> bool) (s : string) : bool :=
  match s with
  | EmptyString => true
  | String c rest => P c && string_forallb P rest
  end.

(** The three cases in which the spec has [getWriteStream] fail. *)
Definition spec_rejects (type : string) (size : value) (tx : PutTransactionFS) : Prop :=
  ~ positive_integer size
  \/ recognized type = false
  \/ is_Some (object_get type (_streams tx)).

(** The cases in which the code throws before it touches the disk: a size
    that is not a number, a number for which [size <= 0] holds, a kind that
    is not one of the three. *)
Definition bad_arguments (type : string) (size : value) : Prop :=
  typeof size <> "number" \/ value_le0 size = true \/ recognized type = false.

(** The items of a walk that are files, and those among them whose last
    access is before [minFileAccessTime]. *)
Definition is_file (item : Item) : bool := negb (stats_isDirectory (item_stats item)).

Definition expired_file (minFileAccessTime : Z) (item : Item) : bool :=
  is_file item && (stats_atime (item_stats item) <? minFileAccessTime).

Definition total_size (items : list Item) : Z :=
  fold_right (fun item acc => stats_size (item_stats item) + acc) 0 items.

(** The byte count stream [h] has at its 'close' event: the one it has
    when it is closed already, the one its writer leaves otherwise. *)
Definition final_bytes (w : World) (h : nat) : option Z :=
  if stream_closed w h then Some (stream_bytesWritten w h) else producers w h.

(** Two worlds in which every stream ends the same way. *)
Definition same_fate (w w' : World) : Prop :=
  (forall h, final_bytes w' h = final_bytes w h)
  /\ (forall h, is_Some (heap w' !! h) <-> is_Some (heap w !! h)).

(** The stream of an entry exists and reaches its 'close' event. *)
Definition settles (w : World) (s : StreamEntry) : bool :=
  bool_decide (is_Some (heap w !! se_stream s))
  && bool_decide (is_Some (final_bytes w (se_stream s))).

(** The stream of an entry closes with the declared number of bytes. *)
Definition verified (w : World) (s : StreamEntry) : bool :=
  match final_bytes w (se_stream s) with
  | Some n => strict_eq_bytes n (se_size s)
  | None => false
  end.

(** Where [_addFileToCache] puts a verified file of a transaction. *)
Definition canonical (G : Buffer -> string) (self : CacheFS) (tx : PutTransactionFS)
    (f : FileEntry) : string :=
  _calcFilepath G (_cachePath self) (fe_type f) (guid tx) (hash tx).

(** ** Example stores *)

(** Modelled from the spec: [helpers.GUIDBufferToString] is not part of
    the sources at hand; the spec names the rendering of the entry id
    [hex(entryId)], and that is the instance used where a concrete store is
    run. *)
Definition hexGUID (guid : Buffer) : string := toString_hex guid.

Definition day : Z := 86400000.
Definition minute : Z := 60000.

Definition directory : Stats := mkStats 4096 0 true.

(** A generator handing out three names in turn. *)
Definition example_rng (n : nat) : string :=
  match n with
  | O => "7c9e6679-7425-40de-944b-e07fc1f90ae7"
  | S O => "1b4e28ba-2fa1-11d2-883f-0016d3cca427"
  | _ => "f47ac10b-58cc-4372-a567-0e02b2c3d479"
  end.

(** An empty store rooted at /cache; every writer puts in 5 bytes. *)
Definition empty_store : World :=
  mkWorld {[ "/cache" := directory ]} ∅ (10 * day) example_rng 0
          (fun _ => Some 5) [] [] [] [].

Definition example_guid : Buffer := [Byte.x01; Byte.xab].
Definition example_hash : Buffer := [Byte.xff].

Definition example_cache (expire : option Duration) (max : option Z) : CacheFS :=
  mkCacheFS "/cache" (mkCleanupOptions expire max).

Definition fresh_transaction : PutTransactionFS :=
  createPutTransaction (example_cache None None) example_guid example_hash.

(** A store holding the given files, at time [now]. *)
Definition store_with (now : Z) (entries : list (string * Stats)) (deny : gset string) : World :=
  mkWorld (list_to_map (("/cache", directory) :: entries)) deny now example_rng 0
          (fun _ => Some 5) [] [] [] [].

(** The operating system starts refusing to touch [p]. *)
Definition lock (p : string) (w : World) : World :=
  mkWorld (fs w) ({[ p ]} ∪ locked w) (clock w) (rng w) (draws w) (producers w)
          (heap w) (events w) (logs w) (inflight w).

Definition file_item (p : string) (size atime : Z) : Item :=
  mkItem p (mkStats size atime false).

(** A transaction on the empty store with a stream for kind 'a' open. *)
Definition store_a_open : World :=
  snd (fst (getWriteStream "a" (VNumber (Finite 5)) empty_store fresh_transaction)).

Definition transaction_a_open : PutTransactionFS :=
  snd (getWriteStream "a" (VNumber (Finite 5)) empty_store fresh_transaction).

(** Two files, last read two days and ten minutes before now. *)
Definition expiry_store : World :=
  store_with (10 * day)
    [("/cache/ab/old.bin", mkStats 7 (8 * day) false);
     ("/cache/cd/new.bin", mkStats 9 (10 * day - 10 * minute) false)] ∅.

Definition expire_after_one_day : CacheFS :=
  example_cache (Some (mkDuration true day)) None.

(** Three files of 10 bytes, none expired, oldest first. *)
Definition lru_items : list Item :=
  [file_item "/cache/0c/first.bin" 10 (8 * day);
   file_item "/cache/0a/second.bin" 10 (9 * day);
   file_item "/cache/0b/third.bin" 10 (9 * day + minute)].

(** Three files of 10 bytes, the first last read eight days ago. *)
Definition budget_store : World :=
  store_with (10 * day)
    [("/cache/0c/old.bin", mkStats 10 (2 * day) false);
     ("/cache/0a/mid.bin", mkStats 10 (8 * day) false);
     ("/cache/0b/new.bin", mkStats 10 (9 * day) false)] ∅.

Definition budget_items : list Item :=
  [file_item "/cache/0c/old.bin" 10 (2 * day);
   file_item "/cache/0a/mid.bin" 10 (8 * day);
   file_item "/cache/0b/new.bin" 10 (9 * day);
   mkItem "/cache" directory].

Definition expire_three_days_max_15 : CacheFS :=
  example_cache (Some (mkDuration true (3 * day))) (Some 15).

(** Two expired files, the first of the walk being one that cannot be
    unlinked. *)
Definition locked_store : World :=
  store_with (10 * day)
    [("/cache/ab/old1.bin", mkStats 7 (8 * day) false);
     ("/cache/cd/old2.bin", mkStats 9 (7 * day) false)]
    {[ "/cache/cd/old2.bin" ]}.

(** Two days after the stream for kind 'a' was opened; nothing has been
    written to it yet and it is still open. *)
Definition store_mid_write : World := advance (2 * day) store_a_open.

(** A transaction with streams for 'i' (5 bytes declared) and 'a' (7 bytes
    declared) open; every writer puts in 5 bytes. *)
Definition store_i_open : World :=
  snd (fst (getWriteStream "i" (VNumber (Finite 5)) empty_store fresh_transaction)).

Definition transaction_i_open : PutTransactionFS :=
  snd (getWriteStream "i" (VNumber (Finite 5)) empty_store fresh_transaction).



(** A transaction with streams for 'i' and 'a' open, 5 bytes declared for
    each, and the temporary file of 'a' made impossible to move. *)
Definition store_both_open : World :=
  snd (fst (getWriteStream "a" (VNumber (Finite 5)) store_i_open transaction_i_open)).

Definition transaction_both_open : PutTransactionFS :=
  snd (getWriteStream "a" (VNumber (Finite 5)) store_i_open transaction_i_open).

Definition store_a_stuck : World :=
  lock "/cache/1b4e28ba-2fa1-11d2-883f-0016d3cca427" store_both_open.

(** A transaction on which a stream for 'a' was opened twice, for 5 and
    then for 7 bytes; the writer of the first puts in 3 bytes, the writer of
    the second 7. *)
Definition empty_store_uneven : World :=
  mkWorld {[ "/cache" := directory ]} ∅ (10 * day) example_rng 0
          (fun h => match h with O => Some 3 | _ => Some 7 end) [] [] [] [].

Definition store_a_first : World :=
  snd (fst (getWriteStream "a" (VNumber (Finite 5)) empty_store_uneven fresh_transaction)).

Definition transaction_a_first : PutTransactionFS :=
  snd (getWriteStream "a" (VNumber (Finite 5)) empty_store_uneven fresh_transaction).

Definition store_a_replaced : World :=
  snd (fst (getWriteStream "a" (VNumber (Finite 7)) store_a_first transaction_a_first)).

Definition transaction_a_replaced : PutTransactionFS :=
  snd (getWriteStream "a" (VNumber (Finite 7)) store_a_first transaction_a_first).

(** ** Further vocabulary *)

(** [this._streams] as [getWriteStream] builds it: one record per kind,
    each filed under its own kind, the kinds being recognised ones. *)
Definition streams_wf (obj : list (string * StreamEntry)) : Prop :=
  NoDup (map fst obj)
  /\ Forall (fun kv => recognized (fst kv) = true /\ se_type (snd kv) = fst kv) obj.

(** A value that is a finite number with no fractional part. *)
Definition integer_valued (v : value) : Prop :=
  match v with
  | VNumber (Finite q) => exists k : Z, Qeq q (inject_Z k)
  | _ => False
  end.

(** A [maxCacheSize] that never starts the size pass. *)
Definition budget_off (max : option Z) : Prop :=
  match max with
  | Some m => m <= 0
  | None => True
  end.

(** The entry at [p] is a file below [root] last read before [min]. *)
Definition expired_entry (root : string) (min : Z) (p : string) (st : Stats) : bool :=
  under root p && negb (stats_isDirectory st) && (stats_atime st <? min).

(** [type] names a member of [Object.prototype]. *)
Definition inherited (type : string) : bool :=
  String.eqb type "constructor"
  || existsb (String.eqb type) Object_prototype_functions
  || String.eqb type "__proto__".

(** The call [moveFile] leaves in flight for a file of a transaction. *)
Definition task_of (self : CacheFS) (tx : PutTransactionFS) (f : FileEntry) : Task :=
  mkTask self (fe_type f) (guid tx) (hash tx) (fe_file f) (fe_size f).

(** Where the move of a call in flight takes its file. *)
Definition task_filePath (G : Buffer -> string) (t : Task) : string :=
  _calcFilepath G (_cachePath (task_self t)) (task_type t) (task_guid t) (task_hash t).

(** The call [t'] reads and writes no path that the call [t] reads or
    writes. *)
Definition apart (G : Buffer -> string) (t t' : Task) : Prop :=
  task_sourcePath t' <> task_sourcePath t
  /\ task_sourcePath t' <> task_filePath G t
  /\ task_filePath G t' <> task_sourcePath t
  /\ task_filePath G t' <> task_filePath G t.

(** The same, in a form that computes. *)
Definition apartb (G : Buffer -> string) (t t' : Task) : bool :=
  negb (String.eqb (task_sourcePath t') (task_sourcePath t))
  && negb (String.eqb (task_sourcePath t') (task_filePath G t))
  && negb (String.eqb (task_filePath G t') (task_sourcePath t))
  && negb (String.eqb (task_filePath G t') (task_filePath G t)).

(** ** Further stores *)

(** A transaction with one stream, for 'i', declared 1.5 bytes long. *)
Definition store_fractional : World :=
  snd (fst (getWriteStream "i" (VNumber (Finite (3 # 2))) empty_store fresh_transaction)).

Definition transaction_fractional : PutTransactionFS :=
  snd (getWriteStream "i" (VNumber (Finite (3 # 2))) empty_store fresh_transaction).

(** A transaction with streams for 'i' and 'a' open, 5 bytes declared for
    each; the writer of 'i' puts in 5 bytes, the writer of 'a' never ends
    its stream. *)
Definition empty_store_stalled : World :=
  mkWorld {[ "/cache" := directory ]} ∅ (10 * day) example_rng 0
          (fun h => match h with O => Some 5 | _ => None end) [] [] [] [].

Definition store_i_then_stalled : World :=
  snd (fst (getWriteStream "a" (VNumber (Finite 5))
              (snd (fst (getWriteStream "i" (VNumber (Finite 5)) empty_store_stalled
                           fresh_transaction)))
              (snd (getWriteStream "i" (VNumber (Finite 5)) empty_store_stalled
                      fresh_transaction)))).

Definition transaction_i_then_stalled : PutTransactionFS :=
  snd (getWriteStream "a" (VNumber (Finite 5))
         (snd (fst (getWriteStream "i" (VNumber (Finite 5)) empty_store_stalled
                      fresh_transaction)))
         (snd (getWriteStream "i" (VNumber (Finite 5)) empty_store_stalled
                 fresh_transaction))).

(** An expiry span of minus one day, which [moment] takes as valid. *)
Definition expire_after_minus_one_day : CacheFS :=
  example_cache (Some (mkDuration true (- day))) None.

(** * Properties *)

(** ** Strings *)

Lemma string_app_cons (c : ascii) (a b : string) :
  String c a +:+ b = String c (a +:+ b).
Proof. reflexivity. Qed.

Lemma string_app_nil (b : string) : "" +:+ b = b.
Proof. reflexivity. Qed.

Lemma string_length_app (a b : string) :
  String.length (a +:+ b) = (String.length a + String.length b)%nat.
Proof.
  induction a as [|c a IH]; [reflexivity |].
  rewrite string_app_cons. simpl. now rewrite IH.
Qed.

Lemma string_app_assoc (a b c : string) : (a +:+ b) +:+ c = a +:+ (b +:+ c).
Proof.
  induction a as [|x a IH]; [reflexivity |].
  rewrite !string_app_cons. now rewrite IH.
Qed.

Lemma string_app_inv (a1 a2 b1 b2 : string) :
  a1 +:+ b1 = a2 +:+ b2 -> String.length a1 = String.length a2 ->
  a1 = a2 /\ b1 = b2.
Proof.
  revert a2. induction a1 as [|c a1 IH]; intros [|c2 a2] Heq Hlen;
    rewrite ?string_app_cons, ?string_app_nil in *; simpl in Hlen;
    try discriminate.
  - now split.
  - injection Heq as -> Heq. injection Hlen as Hlen.
    destruct (IH _ Heq Hlen) as [-> ->]. now split.
Qed.

Lemma string_app_inv_head (a b1 b2 : string) : a +:+ b1 = a +:+ b2 -> b1 = b2.
Proof. intros H. now destruct (string_app_inv _ _ _ _ H eq_refl). Qed.

Lemma string_prefix_app (a b : string) : String.prefix a (a +:+ b) = true.
Proof.
  induction a as [|c a IH].
  - now destruct b.
  - rewrite string_app_cons. simpl.
    destruct (ascii_dec c c); [exact IH | congruence].
Qed.

(** Two strings that agree up to a separator which occurs in neither head
    have the same heads and the same tails. *)
Lemma string_split_first (P : ascii -> bool) (c : ascii) (a1 a2 r1 r2 : string) :
  P c = false ->
  string_forallb P a1 = true -> string_forallb P a2 = true ->
  a1 +:+ String c r1 = a2 +:+ String c r2 ->
  a1 = a2 /\ r1 = r2.
Proof.
  intros Hc. revert a2.
  induction a1 as [|x a1 IH]; intros [|y a2] H1 H2 Heq;
    rewrite ?string_app_cons, ?string_app_nil in Heq; simpl in H1, H2.
  - injection Heq as ->. now split.
  - injection Heq as <- _. apply andb_prop in H2 as [H2 _]. congruence.
  - injection Heq as -> _. apply andb_prop in H1 as [H1 _]. congruence.
  - injection Heq as -> Heq.
    apply andb_prop in H1 as [_ H1]. apply andb_prop in H2 as [_ H2].
    destruct (IH _ H1 H2 Heq) as [-> ->]. now split.
Qed.

(** ** The hexadecimal rendering *)

Lemma unhexByte_hex (b : Byte.byte) : unhexByte (hexHi b) (hexLo b) = Some b.
Proof. destruct b; reflexivity. Qed.

Lemma hexHi_isHex (b : Byte.byte) : isHexChar (hexHi b) = true.
Proof. destruct b; reflexivity. Qed.

Lemma hexLo_isHex (b : Byte.byte) : isHexChar (hexLo b) = true.
Proof. destruct b; reflexivity. Qed.

Lemma toString_hex_isHex (buf : Buffer) :
  string_forallb isHexChar (toString_hex buf) = true.
Proof.
  induction buf as [|b buf IH]; simpl; [reflexivity |].
  now rewrite hexHi_isHex, hexLo_isHex, IH.
Qed.

Lemma toString_hex_inj (b1 b2 : Buffer) :
  toString_hex b1 = toString_hex b2 -> b1 = b2.
Proof.
  revert b2. induction b1 as [|x b1 IH]; intros [|y b2] H; simpl in *;
    try discriminate; [reflexivity |].
  injection H as Hhi Hlo Hrest.
  assert (Some x = Some y) as Hxy
    by (rewrite <- (unhexByte_hex x), <- (unhexByte_hex y); congruence).
  injection Hxy as ->. f_equal. now apply IH.
Qed.

(** ** C8: the path deriver *)

Lemma recognized_cases (type : string) :
  recognized type = true -> type = "a" \/ type = "i" \/ type = "r".
Proof.
  unfold recognized. intros H.
  apply orb_prop in H as [H | H]; [apply orb_prop in H as [H | H] |];
    apply String.eqb_eq in H; auto.
Qed.

Lemma ext_table_inj (t1 t2 : string) :
  recognized t1 = true -> recognized t2 = true ->
  template_of (ext_table t1) = template_of (ext_table t2) -> t1 = t2.
Proof.
  intros H1 H2.
  destruct (recognized_cases _ H1) as [-> | [-> | ->]];
    destruct (recognized_cases _ H2) as [-> | [-> | ->]];
    simpl; intros H; try reflexivity; discriminate.
Qed.

Lemma calcFilename_length (G : Buffer -> string) (type : string) (guid hash : Buffer) :
  (2 <= String.length (_calcFilename G type guid hash))%nat.
Proof.
  unfold _calcFilename. rewrite !string_length_app. simpl. lia.
Qed.

Lemma substr_0_2_length (s : string) :
  (2 <= String.length s)%nat -> String.length (substr_0_2 s) = 2%nat.
Proof.
  destruct s as [|a [|b s]]; simpl; try lia. intros _.
  unfold substr_0_2. simpl. now destruct s.
Qed.

Lemma calcFilename_inj (G : Buffer -> string) :
  (forall g, string_forallb isHexChar (G g) = true) ->
  (forall g1 g2, G g1 = G g2 -> g1 = g2) ->
  forall t1 g1 h1 t2 g2 h2,
    recognized t1 = true -> recognized t2 = true ->
    _calcFilename G t1 g1 h1 = _calcFilename G t2 g2 h2 ->
    t1 = t2 /\ g1 = g2 /\ h1 = h2.
Proof.
  intros Ghex Ginj t1 g1 h1 t2 g2 h2 R1 R2. unfold _calcFilename. intros H.
  apply (string_split_first isHexChar) in H as [Hg H]; auto.
  apply (string_split_first isHexChar) in H as [Hh He];
    auto using toString_hex_isHex.
  repeat split; auto using toString_hex_inj, ext_table_inj.
Qed.

(** C8. The file name is the rendering of the entry id, a dash, the hex of
    the content hash, a dot and the extension of the kind (i: info, a: bin,
    r: resource); the path is the store root, the first two characters of
    the name, the name; and for a rendering of the id that is injective and
    made of hex digits (as the spec's hex(entryId) is), two triples of
    recognised kinds with the same path are the same triple. *)
Theorem calcFilepath_collision_free (G : Buffer -> string) (cachePath : string) :
  (forall g, string_forallb isHexChar (G g) = true) ->
  (forall g1 g2, G g1 = G g2 -> g1 = g2) ->
  forall t1 g1 h1 t2 g2 h2,
    recognized t1 = true -> recognized t2 = true ->
    (_calcFilename G "i" g1 h1 = G g1 +:+ "-" +:+ toString_hex h1 +:+ ".info"
     /\ _calcFilename G "a" g1 h1 = G g1 +:+ "-" +:+ toString_hex h1 +:+ ".bin"
     /\ _calcFilename G "r" g1 h1 = G g1 +:+ "-" +:+ toString_hex h1 +:+ ".resource")
    /\ _calcFilepath G cachePath t1 g1 h1
       = cachePath +:+ "/" +:+ substring 0 2 (_calcFilename G t1 g1 h1)
           +:+ "/" +:+ _calcFilename G t1 g1 h1
    /\ (_calcFilepath G cachePath t1 g1 h1 = _calcFilepath G cachePath t2 g2 h2 ->
        t1 = t2 /\ g1 = g2 /\ h1 = h2).
Proof.
  intros Ghex Ginj t1 g1 h1 t2 g2 h2 R1 R2.
  split; [repeat split |]. split.
  - unfold _calcFilepath, path_join, substr_0_2.
    now rewrite !string_app_assoc.
  - unfold _calcFilepath, path_join. intros H.
    rewrite !string_app_assoc in H.
    do 2 apply string_app_inv_head in H.
    apply string_app_inv in H as [_ H].
    + apply string_app_inv_head in H. eapply calcFilename_inj; eauto.
    + rewrite !substr_0_2_length; auto using calcFilename_length.
Qed.

Lemma calcFilepath_collision_free_witness :
  _calcFilepath hexGUID "/cache" "a" [Byte.x01; Byte.xab] [Byte.xff]
  = "/cache/01/01ab-ff.bin"
  /\ (_calcFilepath hexGUID "/cache" "a" [Byte.x01; Byte.xab] [Byte.xff]
      = _calcFilepath hexGUID "/cache" "a" [Byte.x01; Byte.xab] [Byte.xff] ->
      "a" = "a" /\ [Byte.x01; Byte.xab] = [Byte.x01; Byte.xab]
      /\ [Byte.xff] = [Byte.xff]).
Proof.
  split; [reflexivity |].
  exact (proj2 (proj2 (calcFilepath_collision_free hexGUID "/cache"
           toString_hex_isHex toString_hex_inj
           "a" [Byte.x01; Byte.xab] [Byte.xff] "a" [Byte.x01; Byte.xab] [Byte.xff]
           eq_refl eq_refl))).
Defined.

(** ** C9, C10, C2: argument checks *)

(** C9. A cleanup whose expireTimeSpan is not set, is not a valid duration
    or is zero long rejects with "Invalid expireTimeSpan option" (an invalid
    argument) and leaves the world as it was: no walk, no event, no unlink. *)
Theorem cleanup_rejects_invalid_expire (self : CacheFS) (dryRun : bool) (w : World) :
  (expireTimeSpan (cleanupOptions self) = None
   \/ exists d, expireTimeSpan (cleanupOptions self) = Some d
                /\ (isValid d = false \/ asMilliseconds d = 0)) ->
  cleanup self dryRun w = (Rejected InvalidExpireTimeSpan, w)
  /\ classify InvalidExpireTimeSpan = InvalidArgument.
Proof.
  intros H. split; [| reflexivity]. unfold cleanup.
  destruct H as [-> | (d & -> & [Hv | Hz])]; simpl.
  - reflexivity.
  - now rewrite Hv.
  - rewrite Hz. now rewrite orb_true_r.
Qed.

Lemma cleanup_rejects_invalid_expire_witness :
  cleanup (example_cache (Some (mkDuration true 0)) (Some 15)) false empty_store
  = (Rejected InvalidExpireTimeSpan, empty_store)
  /\ cleanup (example_cache None None) true empty_store
     = (Rejected InvalidExpireTimeSpan, empty_store).
Proof.
  split.
  - apply (cleanup_rejects_invalid_expire
             (example_cache (Some (mkDuration true 0)) (Some 15)) false empty_store).
    right. exists (mkDuration true 0). split; [reflexivity | right; reflexivity].
  - apply (cleanup_rejects_invalid_expire (example_cache None None) true empty_store).
    left. reflexivity.
Defined.

Lemma recognized_false_iff (type : string) :
  recognized type = false <->
  negb (String.eqb type "a") && negb (String.eqb type "i")
    && negb (String.eqb type "r") = true.
Proof.
  unfold recognized.
  destruct (String.eqb type "a"), (String.eqb type "i"), (String.eqb type "r");
    simpl; split; congruence.
Qed.

(** What [getWriteStream] does on arguments it refuses. *)
Lemma getWriteStream_bad_arguments type size w tx :
  bad_arguments type size ->
  exists e, getWriteStream type size w tx = (Rejected e, snd (uuid w), tx)
            /\ classify e = InvalidArgument.
Proof.
  intros Hbad. unfold getWriteStream. simpl.
  destruct (negb (String.eqb (typeof size) "number") || value_le0 size) eqn:Hsize.
  - exists InvalidSize. now split.
  - apply orb_false_elim in Hsize as [Htype Hle].
    apply negb_false_iff in Htype.
    destruct Hbad as [Hbad | [Hbad | Hbad]].
    + destruct size; simpl in *; congruence.
    + congruence.
    + apply recognized_false_iff in Hbad. rewrite Hbad.
      exists (UnrecognizedType type). now split.
Qed.

(** What it does on arguments it accepts. *)
Lemma getWriteStream_good_arguments type size w tx :
  ~ bad_arguments type size ->
  getWriteStream type size w tx =
    match fs_ensureFile (path_join (tx_cachePath tx) (fst (uuid w))) (snd (uuid w)) with
    | inl err => (Rejected err, snd (uuid w), tx)
    | inr w2 =>
        let file := path_join (tx_cachePath tx) (fst (uuid w)) in
        (Resolved (List.length (heap w2)), snd (fs_createWriteStream file w2),
         set_streams (object_set type
                        (mkStreamEntry file type size (List.length (heap w2)))
                        (_streams tx)) tx)
    end.
Proof.
  intros Hgood. unfold getWriteStream, bad_arguments in *. simpl.
  destruct (negb (String.eqb (typeof size) "number") || value_le0 size) eqn:Hsize.
  - exfalso. apply Hgood. apply orb_prop in Hsize as [H | H]; [left | auto].
    apply negb_true_iff in H. intros Heq. rewrite Heq in H. discriminate.
  - destruct (negb (String.eqb type "a") && negb (String.eqb type "i")
              && negb (String.eqb type "r")) eqn:Htype.
    + exfalso. apply Hgood. right. right. now apply recognized_false_iff.
    + reflexivity.
Qed.

Lemma fs_ensureFile_error_class file w err :
  fs_ensureFile file w = inl err -> classify err <> InvalidArgument.
Proof.
  unfold fs_ensureFile. intros H.
  destruct (fs w !! file) as [st|].
  - destruct (stats_isDirectory st); [| discriminate].
    injection H as <-. discriminate.
  - destruct (decide (file ∈ locked w)); [| discriminate].
    injection H as <-. discriminate.
Qed.

(** C10. When [getWriteStream] refuses its arguments (a size that is not a
    number or is zero or less, a kind that is not 'a', 'i' or 'r') it
    rejects with an invalid-argument error before anything is created: the
    file system, the stream objects, the events and the log are as before,
    and the transaction (its streams and its files) is the same. *)
Theorem getWriteStream_rejects_before_allocating type size w tx :
  bad_arguments type size ->
  exists e w' tx',
    getWriteStream type size w tx = (Rejected e, w', tx')
    /\ classify e = InvalidArgument
    /\ fs w' = fs w /\ heap w' = heap w
    /\ events w' = events w /\ logs w' = logs w
    /\ _streams tx' = _streams tx /\ files tx' = files tx.
Proof.
  intros Hbad.
  destruct (getWriteStream_bad_arguments type size w tx Hbad) as (e & Heq & Hc).
  exists e, (snd (uuid w)), tx. repeat split; assumption.
Qed.

Lemma getWriteStream_rejects_before_allocating_witness :
  exists e w' tx',
    getWriteStream "a" (VNumber (Finite 0)) store_a_open transaction_a_open
      = (Rejected e, w', tx')
    /\ classify e = InvalidArgument
    /\ fs w' = fs store_a_open /\ heap w' = heap store_a_open
    /\ events w' = events store_a_open /\ logs w' = logs store_a_open
    /\ _streams tx' = _streams transaction_a_open
    /\ files tx' = files transaction_a_open.
Proof.
  apply (getWriteStream_rejects_before_allocating "a" (VNumber (Finite 0))
           store_a_open transaction_a_open).
  right. left. reflexivity.
Defined.

Lemma object_get_set {A : Type} (k : string) (v : A) (obj : list (string * A)) :
  object_get k (object_set k v obj) = Some v.
Proof.
  unfold object_get. induction obj as [|[k' v'] obj IH]; simpl.
  - now rewrite String.eqb_refl.
  - destruct (String.eqb k' k) eqn:Hk; simpl.
    + now rewrite String.eqb_refl.
    + now rewrite Hk.
Qed.

Lemma bad_arguments_dec type size : bad_arguments type size \/ ~ bad_arguments type size.
Proof.
  unfold bad_arguments.
  destruct (String.eqb (typeof size) "number") eqn:Ht.
  - apply String.eqb_eq in Ht.
    destruct (value_le0 size); [auto |].
    destruct (recognized type); [| auto].
    right. intros [H | [H | H]]; congruence.
  - left. left. intros Heq. rewrite Heq in Ht. discriminate.
Qed.

(** C2, as the code has it. [getWriteStream] rejects with an invalid-argument
    error exactly when the size is not a number, or is a number for which
    [size <= 0] holds (zero, a negative number, minus infinity; not NaN,
    for which no comparison holds), or the kind is not 'a', 'i' or 'r'. On
    any other arguments, a size of 1.5 or NaN included, it creates the
    temporary file and, unless that fails in the file system, resolves with
    a new stream and records it under the kind, whether or not a stream for
    that kind was opened before: the new record takes the place of the old. *)
Theorem getWriteStream_invalid_argument_iff type size w tx :
  ((exists e, fst (fst (getWriteStream type size w tx)) = Rejected e
              /\ classify e = InvalidArgument)
   <-> bad_arguments type size)
  /\ (~ bad_arguments type size ->
      forall w2,
        fs_ensureFile (path_join (tx_cachePath tx) (fst (uuid w))) (snd (uuid w)) = inr w2 ->
        exists h w' tx' entry,
          getWriteStream type size w tx = (Resolved h, w', tx')
          /\ object_get type (_streams tx') = Some entry
          /\ se_stream entry = h /\ se_size entry = size /\ se_type entry = type).
Proof.
  split; [split |].
  - intros (e & He & Hc).
    destruct (bad_arguments_dec type size) as [Hbad | Hgood]; [assumption |].
    rewrite (getWriteStream_good_arguments type size w tx Hgood) in He.
    destruct (fs_ensureFile _ _) as [err | w2] eqn:Hens; simpl in He.
    + injection He as <-. now apply fs_ensureFile_error_class in Hens.
    + discriminate.
  - intros Hbad.
    destruct (getWriteStream_bad_arguments type size w tx Hbad) as (e & Heq & Hc).
    exists e. now rewrite Heq.
  - intros Hgood w2 Hens.
    rewrite (getWriteStream_good_arguments type size w tx Hgood), Hens.
    eexists _, _, _, _. split; [reflexivity |].
    simpl. rewrite object_get_set. repeat split.
Qed.

Lemma getWriteStream_invalid_argument_iff_witness :
  exists h w' tx' entry,
    getWriteStream "a" (VNumber (Finite 5)) store_a_open transaction_a_open
      = (Resolved h, w', tx')
    /\ object_get "a" (_streams tx') = Some entry
    /\ se_stream entry = h /\ se_size entry = VNumber (Finite 5)
    /\ se_type entry = "a".
Proof.
  apply (proj2 (getWriteStream_invalid_argument_iff "a" (VNumber (Finite 5))
                  store_a_open transaction_a_open)) with (w2 := set_fs
    (insert "/cache/1b4e28ba-2fa1-11d2-883f-0016d3cca427"
       (mkStats 0 (clock store_a_open) false)) (snd (uuid store_a_open))).
  - intros [H | [H | H]]; [now apply H | discriminate | discriminate].
  - reflexivity.
Defined.

(** C2 as the spec states it does not hold: a second stream for a kind that
    already has one is opened, and so are a stream of size 1.5 and a stream
    of size NaN. *)
Lemma getWriteStream_reopens_kind :
  (spec_rejects "a" (VNumber (Finite 5)) transaction_a_open
   /\ fst (fst (getWriteStream "a" (VNumber (Finite 5)) store_a_open transaction_a_open))
      = Resolved 1%nat)
  /\ (spec_rejects "i" (VNumber (Finite (3 # 2))) fresh_transaction
      /\ fst (fst (getWriteStream "i" (VNumber (Finite (3 # 2))) empty_store
                     fresh_transaction))
         = Resolved 0%nat)
  /\ (spec_rejects "a" (VNumber NaN) fresh_transaction
      /\ fst (fst (getWriteStream "a" (VNumber NaN) empty_store fresh_transaction))
         = Resolved 0%nat).
Proof.
  split; [| split]; split; try reflexivity.
  - right. right. now exists (mkStreamEntry
      "/cache/7c9e6679-7425-40de-944b-e07fc1f90ae7" "a" (VNumber (Finite 5)) 0).
  - left. intros (k & _ & Hk). unfold Qeq in Hk. simpl in Hk. lia.
  - left. intros [].
Qed.

(** ** The cleanup walk *)

Lemma walk_from (min : Z) (items : list Item) (st : CleanupState) (w : World) :
  fst (fold_left (filterTransform min) items (st, w))
  = mkCleanupState
      (allItems st ++ List.filter is_file items)
      (deleteItems st ++ map item_path (List.filter (expired_file min) items))
      (cacheSize st + total_size (List.filter is_file items))
      (deleteSize st + total_size (List.filter (expired_file min) items)).
Proof.
  revert st w. induction items as [|item items IH]; intros st w.
  - simpl. destruct st; simpl. now rewrite !app_nil_r, !Z.add_0_r.
  - change (fold_left (filterTransform min) (item :: items) (st, w))
      with (fold_left (filterTransform min) items (filterTransform min (st, w) item)).
    destruct (filterTransform min (st, w) item) as [st' w'] eqn:Hstep.
    rewrite IH. clear IH. cbn [List.filter].
    assert (is_file item = negb (stats_isDirectory (item_stats item))) as Hf
      by reflexivity.
    assert (expired_file min item
            = negb (stats_isDirectory (item_stats item))
              && (stats_atime (item_stats item) <? min)) as He by reflexivity.
    unfold filterTransform in Hstep.
    destruct (stats_isDirectory (item_stats item)); simpl in Hf, He;
      rewrite Hf, He.
    + injection Hstep as <- <-. reflexivity.
    + destruct (stats_atime (item_stats item) <? min);
        injection Hstep as <- <-; simpl;
        rewrite <- ?app_assoc; simpl; f_equal; lia.
Qed.

Lemma walk_fs (min : Z) (items : list Item) (st : CleanupState) (w : World) :
  fs (snd (fold_left (filterTransform min) items (st, w))) = fs w.
Proof.
  revert st w. induction items as [|item items IH]; intros st w; simpl.
  - reflexivity.
  - destruct (stats_isDirectory (item_stats item)); [apply IH |].
    now rewrite IH.
Qed.

Lemma size_pass_fs (m : Z) (items : list Item) (st : CleanupState) (w : World) :
  fs (snd (size_pass m items st w)) = fs w.
Proof.
  revert st w. induction items as [|item items IH]; intros st w; simpl.
  - reflexivity.
  - match goal with |- context [if ?c then _ else _] => destruct c end.
    + reflexivity.
    + now rewrite IH.
Qed.

Lemma finalize_search_fs (max : option Z) (st : CleanupState) (w : World) :
  fs (snd (finalize_search max st w)) = fs w.
Proof.
  unfold finalize_search.
  destruct (over_budget max st).
  - pose proof (size_pass_fs (default 0 max) (Array_sort atime_comparefn (allItems st))
                  (mkCleanupState (Array_sort atime_comparefn (allItems st))
                     (deleteItems st) (cacheSize st) (deleteSize st)) w) as H.
    destruct (size_pass _ _ _ _) as [st1 w1]. simpl in *. exact H.
  - reflexivity.
Qed.

Lemma cleanup_finalize_dry (max : option Z) (st : CleanupState) (w : World) :
  cleanup_finalize true max st w
  = (Resolved tt,
     emit (cleanup_delete_finish (progressData (fst (finalize_search max st w))))
          (snd (finalize_search max st w))).
Proof.
  unfold cleanup_finalize. now destruct (finalize_search max st w) as [st1 w1].
Qed.

Lemma cleanup_dry_fs (self : CacheFS) (w : World) :
  fs (snd (cleanup self true w)) = fs w.
Proof.
  unfold cleanup.
  destruct (negb _ || _); [reflexivity |].
  destruct (klaw (_cachePath self) w) as [err | items]; [reflexivity |].
  unfold walk.
  pose proof (walk_fs (clock w - asMilliseconds (moment_duration
                (expireTimeSpan (cleanupOptions self)))) items cleanup_init w) as Hw.
  destruct (fold_left _ items _) as [st w1]. simpl in Hw.
  rewrite cleanup_finalize_dry. simpl. now rewrite finalize_search_fs.
Qed.

(** ** C1: the size pass *)

(** C1. With three retained files of 10 bytes, oldest first, and a budget
    of 15 the size pass marks the two oldest. But the pass runs over every
    file of the walk, the expired ones included: with one expired and two
    retained files of 10 bytes and the same budget it marks the expired file
    a second time, counts its size twice, and stops with both retained
    files (20 bytes) unmarked; a real run then fails on the second unlink of
    the same path. *)
Theorem size_pass_revisits_expired_files :
  deleteItems (marked (7 * day) (Some 15) lru_items empty_store)
    = ["/cache/0c/first.bin"; "/cache/0a/second.bin"]
  /\ klaw "/cache" budget_store = inr budget_items
  /\ deleteItems (fst (walk (7 * day) budget_items budget_store))
     = ["/cache/0c/old.bin"]
  /\ deleteItems (marked (7 * day) (Some 15) budget_items budget_store)
     = ["/cache/0c/old.bin"; "/cache/0c/old.bin"]
  /\ deleteSize (marked (7 * day) (Some 15) budget_items budget_store) = 20
  /\ last (events (snd (cleanup expire_three_days_max_15 true budget_store)))
     = Some (cleanup_delete_finish (mkProgressData 3 30 2 20))
  /\ fst (cleanup expire_three_days_max_15 false budget_store)
     = Rejected (SystemError "ENOENT" "/cache/0c/old.bin")
  /\ fs (snd (cleanup expire_three_days_max_15 false budget_store))
     = delete "/cache/0c/old.bin" (fs budget_store).
Proof. repeat split; vm_compute; reflexivity. Qed.

(** The size pass marks a prefix of the list it is given: at least one item
    when there is one, and no more once the remaining size is within the
    budget. *)
Lemma size_pass_marks_prefix (m : Z) (items : list Item) (st : CleanupState) (w : World) :
  exists k : nat,
    (k <= List.length items)%nat
    /\ deleteItems (fst (size_pass m items st w))
       = deleteItems st ++ map item_path (take k items)
    /\ deleteSize (fst (size_pass m items st w))
       = deleteSize st + total_size (take k items)
    /\ cacheSize (fst (size_pass m items st w)) = cacheSize st
    /\ (items <> [] -> (0 < k)%nat)
    /\ ((k < List.length items)%nat ->
        cacheSize st - deleteSize (fst (size_pass m items st w)) <= m)
    /\ (forall j : nat, (0 < j < k)%nat ->
          m < cacheSize st - (deleteSize st + total_size (take j items))).
Proof.
  revert st w. induction items as [|item items IH]; intros st w.
  - exists 0%nat. simpl. rewrite app_nil_r, Z.add_0_r.
    repeat split; try lia; try congruence.
  - simpl.
    destruct (cacheSize st - (deleteSize st + stats_size (item_stats item)) <=? m)
      eqn:Hfit.
    + exists 1%nat. simpl. rewrite ?take_0. simpl. rewrite ?Z.add_0_r.
      apply Z.leb_le in Hfit.
      repeat split; try lia.
    + apply Z.leb_gt in Hfit.
      destruct (IH (mkCleanupState (allItems st) (deleteItems st ++ [item_path item])
                      (cacheSize st) (deleteSize st + stats_size (item_stats item)))
                   (emit (cleanup_search_progress (progressData st)) w))
        as (k & Hk & Hitems & Hsize & Hcache & Hpos & Hstop & Hgo).
      simpl in *. exists (S k). rewrite Hitems, Hsize, Hcache. simpl.
      rewrite <- app_assoc. simpl.
      split; [lia |]. split; [reflexivity |]. split; [lia |].
      split; [reflexivity |]. split; [lia |]. split.
      * intros Hlt. assert (k < List.length items)%nat as Hlt' by lia.
        specialize (Hstop Hlt'). lia.
      * intros [|[|j]] Hj; [lia | |].
        -- simpl. rewrite ?take_0. simpl. lia.
        -- assert (0 < S j < k)%nat as Hj' by lia.
           specialize (Hgo (S j) Hj'). simpl in *. lia.
Qed.

(** Items in the order the cleanup wants them: last access never going
    down. *)
Lemma sort_insert_ascending (element : Item) (sorted_rev : list Item) :
  match sorted_rev with
  | [] => True
  | tmp :: _ => stats_atime (item_stats tmp) <= stats_atime (item_stats element)
  end ->
  sort_insert atime_comparefn element sorted_rev = element :: sorted_rev.
Proof.
  destruct sorted_rev as [|tmp more]; [reflexivity |]. simpl. intros Hle.
  unfold atime_comparefn.
  destruct (stats_atime (item_stats element) <? stats_atime (item_stats tmp)) eqn:Hlt;
    [apply Z.ltb_lt in Hlt; lia | reflexivity].
Qed.

Lemma Array_sort_ascending (items : list Item) :
  StronglySorted (fun a b => stats_atime (item_stats a) <= stats_atime (item_stats b))
    items ->
  Array_sort atime_comparefn items = items.
Proof.
  unfold Array_sort. intros Hsorted.
  assert (forall acc,
             Forall (fun a => Forall (fun b =>
               stats_atime (item_stats a) <= stats_atime (item_stats b)) items) acc ->
             fold_left (fun sorted_rev element =>
                          sort_insert atime_comparefn element sorted_rev) items acc
             = rev items ++ acc) as Hfold.
  { induction Hsorted as [|a l Hl IH Ha]; intros acc Hacc; [reflexivity |].
    simpl. rewrite sort_insert_ascending.
    - rewrite IH; [now rewrite <- app_assoc |].
      constructor.
      + apply Forall_forall. intros b Hb.
        rewrite Forall_forall in Ha. now apply Ha.
      + eapply Forall_impl; [exact Hacc |]. intros x Hx.
        now apply Forall_cons in Hx as [_ Hx].
    - destruct acc as [|tmp more]; [exact I |].
      apply Forall_cons in Hacc as [Htmp _].
      now apply Forall_cons in Htmp as [Htmp _]. }
  rewrite Hfold by constructor. now rewrite app_nil_r, rev_involutive.
Qed.


(** When the walk has marked nothing and has met at most ten files, oldest
    first, a cleanup over its budget marks the shortest run of oldest files
    whose removal brings the cache within the budget. (On such an array the
    insertion sort of the older engine and the sort of the later ones both
    give the array back; the order a longer or an unordered array is left
    in depends on the engine.) *)
Lemma size_pass_lru_without_expired (min m : Z) (items : list Item) (w : World) :
  List.filter (expired_file min) items = [] ->
  (List.length (List.filter is_file items) <= 10)%nat ->
  StronglySorted (fun a b => stats_atime (item_stats a) <= stats_atime (item_stats b))
    (List.filter is_file items) ->
  0 < m -> m < total_size (List.filter is_file items) ->
  exists k : nat,
    (0 < k <= List.length (List.filter is_file items))%nat
    /\ deleteItems (marked min (Some m) items w)
       = map item_path (take k (List.filter is_file items))
    /\ ((k < List.length (List.filter is_file items))%nat ->
        total_size (List.filter is_file items)
          - total_size (take k (List.filter is_file items)) <= m)
    /\ (forall j : nat, (0 < j < k)%nat ->
          m < total_size (List.filter is_file items)
              - total_size (take j (List.filter is_file items))).
Proof.
  intros Hnone _ Hsorted Hm Hover.
  unfold marked, walk.
  pose proof (walk_from min items cleanup_init w) as Hwalk.
  destruct (fold_left (filterTransform min) items (cleanup_init, w)) as [st w1].
  simpl in Hwalk. subst st. rewrite Hnone. simpl.
  unfold finalize_search, over_budget. simpl.
  rewrite ?Z.add_0_l, ?Z.sub_0_r.
  assert ((0 <? m) && (m <? total_size (List.filter is_file items)) = true) as ->.
  { apply andb_true_iff. split; now apply Z.ltb_lt. }
  rewrite (Array_sort_ascending _ Hsorted).
  destruct (size_pass_marks_prefix m (List.filter is_file items)
              (mkCleanupState (List.filter is_file items) []
                 (total_size (List.filter is_file items)) 0) w1)
    as (k & Hk & Hitems & Hsize & _ & Hpos & Hstop & Hgo).
  destruct (size_pass m _ _ w1) as [st1 w2]. simpl in *.
  exists k. split; [| split; [exact Hitems | split]].
  - split; [| exact Hk]. apply Hpos. intros Hnil. rewrite Hnil in Hover.
    simpl in Hover. lia.
  - intros Hlt. specialize (Hstop Hlt). lia.
  - intros j Hj. specialize (Hgo j Hj). lia.
Qed.

(** ** C3: the deletion sweep *)

Lemma delete_loop_app (pre rest : list string) (w : World) :
  delete_loop (pre ++ rest) w
  = match delete_loop pre w with
    | (None, w1) => delete_loop rest w1
    | (Some err, w1) => (Some err, w1)
    end.
Proof.
  revert w. induction pre as [|p pre IH]; intros w; simpl; [reflexivity |].
  destruct (fs_unlink p (emit (cleanup_delete_item p) w)) as [err | w2];
    [reflexivity | apply IH].
Qed.

Lemma fs_unlink_inr (p : string) (w w' : World) :
  fs_unlink p w = inr w' -> w' = set_fs (delete p) w.
Proof.
  unfold fs_unlink. destruct (decide (p ∈ locked w)); [discriminate |].
  destruct (fs w !! p) as [st|]; [| discriminate].
  destruct (stats_isDirectory st); [discriminate |]. now intros [= <-].
Qed.

Lemma delete_loop_events (items : list string) (w : World) :
  fst (delete_loop items w) = None ->
  events (snd (delete_loop items w)) = events w ++ map cleanup_delete_item items.
Proof.
  revert w. induction items as [|p items IH]; intros w; simpl.
  - now rewrite app_nil_r.
  - destruct (fs_unlink p (emit (cleanup_delete_item p) w)) as [err | w2] eqn:Hu;
      [discriminate |].
    intros Hok. rewrite (IH _ Hok). apply fs_unlink_inr in Hu. subst w2.
    simpl. now rewrite <- app_assoc.
Qed.

Lemma delete_loop_keeps (items : list string) (w : World) (p : string) :
  p ∉ items -> fs (snd (delete_loop items w)) !! p = fs w !! p.
Proof.
  revert w. induction items as [|q items IH]; intros w Hp; simpl; [reflexivity |].
  apply not_elem_of_cons in Hp as [Hpq Hp].
  destruct (fs_unlink q (emit (cleanup_delete_item q) w)) as [err | w2] eqn:Hu;
    [reflexivity |].
  rewrite (IH _ Hp). apply fs_unlink_inr in Hu. subst w2. simpl.
  now rewrite lookup_delete_ne.
Qed.

Lemma delete_loop_removes (items : list string) (w : World) (p : string) :
  fst (delete_loop items w) = None -> p ∈ items ->
  fs (snd (delete_loop items w)) !! p = None.
Proof.
  revert w. induction items as [|q items IH]; intros w Hok Hp; simpl in *.
  - now apply elem_of_nil in Hp.
  - destruct (fs_unlink q (emit (cleanup_delete_item q) w)) as [err | w2] eqn:Hu;
      [discriminate |].
    destruct (decide (p ∈ items)) as [Hin | Hout]; [now apply IH |].
    apply elem_of_cons in Hp as [-> | Hp]; [| contradiction].
    rewrite delete_loop_keeps by assumption.
    apply fs_unlink_inr in Hu. subst w2. simpl. apply lookup_delete_eq.
Qed.

(** C3, as the code has it. A real run unlinks the marked files in the
    order they were marked. The first unlink that fails ends the sweep: the
    cleanup rejects with that error, the last event is the 'deleting' event
    of the file that failed (none for the files after it, no 'delete
    finish'), and every file not unlinked before the failure is still in
    place. *)
Theorem cleanup_unlink_failure_aborts
    (self : CacheFS) (w : World) (items : list Item)
    (pre : list string) (item : string) (post : list string) (err : Error) :
  let d := moment_duration (expireTimeSpan (cleanupOptions self)) in
  let max := maxCacheSize (cleanupOptions self) in
  let searched :=
    finalize_search max (fst (walk (clock w - asMilliseconds d) items w))
                        (snd (walk (clock w - asMilliseconds d) items w)) in
  isValid d = true -> asMilliseconds d <> 0 ->
  klaw (_cachePath self) w = inr items ->
  deleteItems (fst searched) = pre ++ item :: post ->
  fst (delete_loop pre (snd searched)) = None ->
  fs_unlink item (emit (cleanup_delete_item item) (snd (delete_loop pre (snd searched))))
    = inl err ->
  fst (cleanup self false w) = Rejected err
  /\ events (snd (cleanup self false w))
     = events (snd searched) ++ map cleanup_delete_item (pre ++ [item])
  /\ (forall p, p ∉ pre -> fs (snd (cleanup self false w)) !! p = fs w !! p).
Proof.
  intros d max searched Hvalid Hms Hklaw Hmarked Hpre Hfail.
  assert (cleanup self false w
          = (Rejected err,
             emit (cleanup_delete_item item) (snd (delete_loop pre (snd searched)))))
    as Hrun.
  { unfold cleanup. fold d. rewrite Hvalid. simpl.
    destruct (asMilliseconds d =? 0) eqn:Hz; [apply Z.eqb_eq in Hz; contradiction |].
    rewrite Hklaw. fold max.
    destruct (walk (clock w - asMilliseconds d) items w) as [st w1] eqn:Hwalk.
    unfold cleanup_finalize. subst searched. simpl in *.
    destruct (finalize_search max st w1) as [st1 w2] eqn:Hsearch. simpl in *.
    rewrite Hmarked, delete_loop_app.
    destruct (delete_loop pre w2) as [[e|] w3]; simpl in *; [discriminate |].
    now rewrite Hfail. }
  rewrite Hrun. simpl. split; [reflexivity | split].
  - rewrite delete_loop_events by assumption.
    now rewrite map_app, app_assoc.
  - intros p Hp. rewrite delete_loop_keeps by assumption.
    unfold searched. rewrite finalize_search_fs. unfold walk. now rewrite walk_fs.
Qed.

Lemma cleanup_unlink_failure_aborts_witness :
  fst (cleanup expire_after_one_day false locked_store)
    = Rejected (SystemError "EPERM" "/cache/cd/old2.bin")
  /\ events (snd (cleanup expire_after_one_day false locked_store))
     = events (snd (finalize_search None
                      (fst (walk (9 * day)
                              [file_item "/cache/cd/old2.bin" 9 (7 * day);
                               file_item "/cache/ab/old1.bin" 7 (8 * day);
                               mkItem "/cache" directory] locked_store))
                      (snd (walk (9 * day)
                              [file_item "/cache/cd/old2.bin" 9 (7 * day);
                               file_item "/cache/ab/old1.bin" 7 (8 * day);
                               mkItem "/cache" directory] locked_store))))
       ++ map cleanup_delete_item ([] ++ ["/cache/cd/old2.bin"])
  /\ (forall p, p ∉ [] ->
        fs (snd (cleanup expire_after_one_day false locked_store)) !! p
        = fs locked_store !! p).
Proof.
  apply (cleanup_unlink_failure_aborts expire_after_one_day locked_store
           [file_item "/cache/cd/old2.bin" 9 (7 * day);
            file_item "/cache/ab/old1.bin" 7 (8 * day);
            mkItem "/cache" directory]
           [] "/cache/cd/old2.bin" ["/cache/ab/old1.bin"]
           (SystemError "EPERM" "/cache/cd/old2.bin")).
  - reflexivity.
  - discriminate.
  - reflexivity.
  - reflexivity.
  - reflexivity.
  - reflexivity.
Defined.

(** C3 as the spec states it does not hold: both files are marked, the
    unlink of the first fails, the cleanup call fails with it and the second
    file is neither announced nor unlinked. *)
Lemma cleanup_sweep_stops_at_failure :
  deleteItems (marked (9 * day) None
                 [file_item "/cache/cd/old2.bin" 9 (7 * day);
                  file_item "/cache/ab/old1.bin" 7 (8 * day);
                  mkItem "/cache" directory] locked_store)
    = ["/cache/cd/old2.bin"; "/cache/ab/old1.bin"]
  /\ fst (cleanup expire_after_one_day false locked_store)
     = Rejected (SystemError "EPERM" "/cache/cd/old2.bin")
  /\ fs (snd (cleanup expire_after_one_day false locked_store)) !! "/cache/ab/old1.bin"
     = Some (mkStats 7 (8 * day) false)
  /\ events (snd (cleanup expire_after_one_day false locked_store))
     = [cleanup_search_progress (mkProgressData 1 9 1 9);
        cleanup_search_progress (mkProgressData 2 16 2 16);
        cleanup_search_finish (mkProgressData 2 16 2 16);
        cleanup_delete_item "/cache/cd/old2.bin"].
Proof. repeat split; vm_compute; reflexivity. Qed.

(** ** C4: temporary files and the cleanup walk *)

Lemma fs_ensureFile_clock file w w' : fs_ensureFile file w = inr w' -> clock w' = clock w.
Proof.
  unfold fs_ensureFile. destruct (fs w !! file) as [st|].
  - destruct (stats_isDirectory st); [discriminate | now intros [= <-]].
  - destruct (decide (file ∈ locked w)); [discriminate | now intros [= <-]].
Qed.

Lemma klaw_visits (root : string) (w : World) (items : list Item) (p : string) (st : Stats) :
  klaw root w = inr items -> under root p = true -> fs w !! p = Some st ->
  In (mkItem p st) items.
Proof.
  unfold klaw. destruct (fs w !! root); [| discriminate].
  intros [= <-] Hunder Hp.
  apply (in_map (fun kv => mkItem (fst kv) (snd kv)) _ (p, st)).
  apply filter_In. split; [| exact Hunder].
  apply list_elem_of_In, elem_of_map_to_list, Hp.
Qed.

Lemma under_path_join (root name : string) : under root (path_join root name) = true.
Proof.
  unfold under, path_join. apply orb_true_iff. right.
  rewrite <- string_app_assoc. apply string_prefix_app.
Qed.

(** C4, as the code has it. The temporary file of a write stream is
    [cachePath/<uuid>], a direct child of the store root, and the store root
    is what the cleanup walks: the walk meets the file, counts it like any
    other, and marks it as soon as its last access is before the limit. *)
Theorem getWriteStream_temp_file_is_walked
    (self : CacheFS) (type : string) (size : value) (w : World)
    (tx : PutTransactionFS) (h : nat) (w' : World) (tx' : PutTransactionFS) :
  tx_cachePath tx = _cachePath self ->
  getWriteStream type size w tx = (Resolved h, w', tx') ->
  exists entry,
    object_get type (_streams tx') = Some entry
    /\ se_file entry = path_join (_cachePath self) (fst (uuid w))
    /\ under (_cachePath self) (se_file entry) = true
    /\ fs w' !! se_file entry = Some (mkStats 0 (clock w) false)
    /\ forall items min,
         klaw (_cachePath self) w' = inr items ->
         In (mkItem (se_file entry) (mkStats 0 (clock w) false)) items
         /\ In (mkItem (se_file entry) (mkStats 0 (clock w) false))
               (allItems (fst (walk min items w')))
         /\ (clock w < min ->
             In (se_file entry) (deleteItems (fst (walk min items w')))).
Proof.
  intros Hroot Hrun.
  destruct (bad_arguments_dec type size) as [Hbad | Hgood].
  { destruct (getWriteStream_bad_arguments type size w tx Hbad) as (e & He & _).
    rewrite He in Hrun. discriminate. }
  rewrite (getWriteStream_good_arguments type size w tx Hgood) in Hrun.
  destruct (fs_ensureFile _ _) as [err | w2] eqn:Hens; [discriminate |].
  injection Hrun as <- <- <-. rewrite Hroot in *.
  apply fs_ensureFile_clock in Hens. simpl in Hens.
  eexists. split; [simpl; apply object_get_set |]. simpl.
  split; [reflexivity |]. split; [apply under_path_join |].
  assert (fs (set_heap (fun hp => hp ++ [mkWriteStream
             (path_join (_cachePath self) (rng w (draws w))) 0 false])
             (set_fs (insert (path_join (_cachePath self) (rng w (draws w)))
                        (mkStats 0 (clock w2) false)) w2))
            !! path_join (_cachePath self) (rng w (draws w))
          = Some (mkStats 0 (clock w) false)) as Hfile.
  { simpl. rewrite lookup_insert_eq. now rewrite Hens. }
  split; [exact Hfile |].
  intros items min Hklaw.
  pose proof (klaw_visits _ _ _ _ _ Hklaw (under_path_join _ _) Hfile) as Hin.
  split; [exact Hin |]. unfold walk. rewrite walk_from. simpl.
  split.
  - apply filter_In. split; [exact Hin | reflexivity].
  - intros Hold.
    apply (in_map item_path _ (mkItem _ (mkStats 0 (clock w) false))).
    apply filter_In. split; [exact Hin |].
    unfold expired_file, is_file. simpl. now apply Z.ltb_lt.
Qed.

Lemma getWriteStream_temp_file_is_walked_witness :
  exists entry,
    object_get "a" (_streams transaction_a_open) = Some entry
    /\ se_file entry = path_join "/cache" (fst (uuid empty_store))
    /\ under "/cache" (se_file entry) = true
    /\ fs store_a_open !! se_file entry = Some (mkStats 0 (clock empty_store) false)
    /\ forall items min,
         klaw "/cache" store_a_open = inr items ->
         In (mkItem (se_file entry) (mkStats 0 (clock empty_store) false)) items
         /\ In (mkItem (se_file entry) (mkStats 0 (clock empty_store) false))
               (allItems (fst (walk min items store_a_open)))
         /\ (clock empty_store < min ->
             In (se_file entry) (deleteItems (fst (walk min items store_a_open)))).
Proof.
  apply (getWriteStream_temp_file_is_walked expire_after_one_day "a"
           (VNumber (Finite 5)) empty_store fresh_transaction 0%nat
           store_a_open transaction_a_open).
  - reflexivity.
  - vm_compute. reflexivity.
Defined.

(** C4 as the spec states it does not hold: the temporary file of a stream
    that is still open lies under the root the cleanup walks, and a cleanup
    two days later, with an expiry of one day, unlinks it. *)
Lemma cleanup_unlinks_open_temp_file :
  object_get "a" (_streams transaction_a_open)
    = Some (mkStreamEntry "/cache/7c9e6679-7425-40de-944b-e07fc1f90ae7" "a"
              (VNumber (Finite 5)) 0)
  /\ under (_cachePath expire_after_one_day)
        "/cache/7c9e6679-7425-40de-944b-e07fc1f90ae7" = true
  /\ stream_closed store_mid_write 0 = false
  /\ is_Some (fs store_mid_write !! "/cache/7c9e6679-7425-40de-944b-e07fc1f90ae7")
  /\ fst (cleanup expire_after_one_day false store_mid_write) = Resolved tt
  /\ In (cleanup_delete_item "/cache/7c9e6679-7425-40de-944b-e07fc1f90ae7")
        (events (snd (cleanup expire_after_one_day false store_mid_write)))
  /\ fs (snd (cleanup expire_after_one_day false store_mid_write))
        !! "/cache/7c9e6679-7425-40de-944b-e07fc1f90ae7" = None
  /\ stream_closed (snd (cleanup expire_after_one_day false store_mid_write)) 0 = false.
Proof.
  split; [vm_compute; reflexivity |].
  split; [vm_compute; reflexivity |].
  split; [vm_compute; reflexivity |].
  split; [exists (mkStats 0 (10 * day) false); vm_compute; reflexivity |].
  split; [vm_compute; reflexivity |].
  split; [vm_compute; right; right; left; reflexivity |].
  split; vm_compute; reflexivity.
Qed.

(** ** C5: finalize and size mismatches *)

Lemma same_fate_refl w : same_fate w w.
Proof. now split. Qed.

Lemma same_fate_trans w1 w2 w3 : same_fate w1 w2 -> same_fate w2 w3 -> same_fate w1 w3.
Proof.
  intros [F1 H1] [F2 H2]. split; intros h.
  - now rewrite F2, F1.
  - now rewrite H2, H1.
Qed.

Lemma same_fate_settles w w' s : same_fate w w' -> settles w' s = settles w s.
Proof.
  intros [F H]. unfold settles. rewrite F. f_equal.
  apply bool_decide_ext, H.
Qed.

Lemma same_fate_verified w w' s : same_fate w w' -> verified w' s = verified w s.
Proof. intros [F _]. unfold verified. now rewrite F. Qed.

(** Waiting for an open stream closes it with the bytes of its writer and
    changes the fate of no stream. *)
Lemma await_close_fate (h : nat) (n : Z) (w : World) :
  producers w h = Some n -> stream_closed w h = false -> is_Some (heap w !! h) ->
  await_close h w = Some (close_stream h n w)
  /\ stream_bytesWritten (close_stream h n w) h = n
  /\ same_fate w (close_stream h n w).
Proof.
  intros Hp Hopen [ws Hws].
  assert (h < List.length (heap w))%nat as Hlt by (eapply lookup_lt_Some; eauto).
  split; [unfold await_close; now rewrite Hp |].
  unfold close_stream. rewrite Hws.
  split; [| split].
  - unfold stream_bytesWritten. simpl. now rewrite list_lookup_insert_eq.
  - intros h'. unfold final_bytes, stream_closed, stream_bytesWritten. simpl.
    destruct (decide (h' = h)) as [-> | Hne].
    + rewrite list_lookup_insert_eq by assumption. simpl.
      unfold stream_closed in Hopen. rewrite Hopen. now rewrite Hp.
    + now rewrite list_lookup_insert_ne by congruence.
  - intros h'. simpl. rewrite !lookup_lt_is_Some. now rewrite length_insert.
Qed.

(** One stream that settles: the loop reads the byte count it ends with,
    in a world where every stream still ends the same way. *)
Lemma closeLoop_step (file : StreamEntry) (rest : list StreamEntry) (w : World)
    (acc : list FileEntry) :
  settles w file = true ->
  exists w',
    same_fate w w'
    /\ closeLoop (file :: rest) w acc
       = if verified w file
         then closeLoop rest w' (acc ++ [file_of_stream file])
         else (Rejected FileSizeMismatch, w', acc).
Proof.
  unfold settles. intros Hs. apply andb_prop in Hs as [Hheap Hfate].
  apply bool_decide_eq_true in Hheap, Hfate.
  destruct Hfate as [n Hn]. unfold verified. rewrite Hn.
  simpl. unfold final_bytes in Hn.
  destruct (stream_closed w (se_stream file)) eqn:Hclosed.
  - exists w. split; [apply same_fate_refl |].
    injection Hn as <-. unfold processClosedStream.
    now destruct (strict_eq_bytes _ _).
  - destruct (await_close_fate _ _ _ Hn Hclosed Hheap) as (Hawait & Hbytes & Hsame).
    exists (close_stream (se_stream file) n w). split; [exact Hsame |].
    rewrite Hawait. unfold processClosedStream. rewrite Hbytes.
    now destruct (strict_eq_bytes _ _).
Qed.

Lemma closeLoop_mismatch (streams : list StreamEntry) (w : World) (acc : list FileEntry) :
  Forall (fun s => settles w s = true) streams ->
  Exists (fun s => verified w s = false) streams ->
  exists w' pre s post,
    streams = pre ++ s :: post
    /\ Forall (fun s => verified w s = true) pre
    /\ verified w s = false
    /\ same_fate w w'
    /\ closeLoop streams w acc
       = (Rejected FileSizeMismatch, w', acc ++ map file_of_stream pre).
Proof.
  revert w acc. induction streams as [|file rest IH]; intros w acc Hall Hex.
  - inversion Hex.
  - apply Forall_cons in Hall as [Hfile Hrest].
    destruct (closeLoop_step file rest w acc Hfile) as (w1 & Hsame & Hstep).
    rewrite Hstep. destruct (verified w file) eqn:Hv.
    + apply Exists_cons in Hex as [Hex | Hex]; [congruence |].
      destruct (IH w1 (acc ++ [file_of_stream file])) as
        (w' & pre & s & post & -> & Hpre & Hs & Hsame' & Hrun).
      * eapply Forall_impl; [exact Hrest |]. intros x Hx.
        now rewrite (same_fate_settles _ _ _ Hsame).
      * eapply Exists_impl; [exact Hex |]. intros x Hx.
        now rewrite (same_fate_verified _ _ _ Hsame).
      * exists w', (file :: pre), s, post. split; [reflexivity |].
        split; [| split; [| split]].
        -- constructor; [exact Hv |].
           eapply Forall_impl; [exact Hpre |]. intros x Hx.
           now rewrite <- (same_fate_verified _ _ _ Hsame).
        -- now rewrite <- (same_fate_verified _ _ _ Hsame).
        -- eapply same_fate_trans; eauto.
        -- rewrite Hrun. simpl. now rewrite <- app_assoc.
    + exists w1, [], file, rest. simpl. rewrite app_nil_r. auto.
Qed.

Lemma finalize_mismatch (w : World) (tx : PutTransactionFS) :
  Forall (fun s => settles w s = true) (Object_values (_streams tx)) ->
  Exists (fun s => verified w s = false) (Object_values (_streams tx)) ->
  exists w' pre s post,
    Object_values (_streams tx) = pre ++ s :: post
    /\ Forall (fun s => verified w s = true) pre
    /\ verified w s = false
    /\ same_fate w w'
    /\ finalize w tx
       = (Rejected FileSizeMismatch, w',
          set_files (_files tx ++ map file_of_stream pre) tx).
Proof.
  intros Hall Hex.
  destruct (closeLoop_mismatch _ w (_files tx) Hall Hex) as
    (w' & pre & s & post & Hsplit & Hpre & Hs & Hsame & Hrun).
  exists w', pre, s, post. do 4 (split; [assumption |]).
  assert (Nat.eqb (List.length (Object_values (_streams tx))) 0 = false) as Hlen.
  { rewrite Hsplit, length_app. simpl. apply Nat.eqb_neq. lia. }
  unfold finalize, _closeAllStreams. cbv zeta. now rewrite Hlen, Hrun.
Qed.

Lemma fs_ensureFile_heap file w w' : fs_ensureFile file w = inr w' -> heap w' = heap w.
Proof.
  unfold fs_ensureFile. destruct (fs w !! file) as [st|].
  - destruct (stats_isDirectory st); [discriminate | now intros [= <-]].
  - destruct (decide (file ∈ locked w)); [discriminate | now intros [= <-]].
Qed.

Lemma object_set_values {A : Type} (P : A -> Prop) (k : string) (v : A)
    (obj : list (string * A)) :
  P v -> Forall P (Object_values obj) -> Forall P (Object_values (object_set k v obj)).
Proof.
  intros Hv. unfold Object_values.
  induction obj as [|[k' v'] obj IH]; simpl; intros Hobj.
  - now constructor.
  - apply Forall_cons in Hobj as [Hv' Hobj].
    destruct (String.eqb k' k); simpl; constructor; auto.
Qed.

(** The streams a transaction records are objects of the heap: opening a
    stream keeps it so. *)
Lemma getWriteStream_streams_on_heap type size w tx r w' tx' :
  getWriteStream type size w tx = (r, w', tx') ->
  Forall (fun s => is_Some (heap w !! se_stream s)) (Object_values (_streams tx)) ->
  Forall (fun s => is_Some (heap w' !! se_stream s)) (Object_values (_streams tx')).
Proof.
  intros Hrun Hvalid.
  destruct (bad_arguments_dec type size) as [Hbad | Hgood].
  { destruct (getWriteStream_bad_arguments type size w tx Hbad) as (e & He & _).
    rewrite He in Hrun. now injection Hrun as <- <- <-. }
  rewrite (getWriteStream_good_arguments type size w tx Hgood) in Hrun.
  destruct (fs_ensureFile _ _) as [err | w2] eqn:Hens.
  - now injection Hrun as <- <- <-.
  - apply fs_ensureFile_heap in Hens. simpl in Hens.
    injection Hrun as <- <- <-. simpl. rewrite Hens.
    apply object_set_values.
    + simpl. apply lookup_lt_is_Some. rewrite length_app. simpl. lia.
    + eapply Forall_impl; [exact Hvalid |]. intros s Hs.
      apply lookup_lt_is_Some in Hs. apply lookup_lt_is_Some.
      rewrite length_app. lia.
Qed.

(** When every stream settles with its declared size, [finalize] resolves
    once all of them are verified, with one file per stream, in the order
    the kinds were first opened. *)
Lemma closeLoop_all_verified (streams : list StreamEntry) (w : World) (acc : list FileEntry) :
  Forall (fun s => settles w s = true) streams ->
  Forall (fun s => verified w s = true) streams ->
  exists w',
    same_fate w w'
    /\ closeLoop streams w acc = (Resolved tt, w', acc ++ map file_of_stream streams).
Proof.
  revert w acc. induction streams as [|file rest IH]; intros w acc Hall Hver.
  - exists w. simpl. rewrite app_nil_r. split; [apply same_fate_refl | reflexivity].
  - apply Forall_cons in Hall as [Hfile Hrest].
    apply Forall_cons in Hver as [Hv Hvrest].
    destruct (closeLoop_step file rest w acc Hfile) as (w1 & Hsame & Hstep).
    rewrite Hstep, Hv.
    destruct (IH w1 (acc ++ [file_of_stream file])) as (w' & Hsame' & Hrun).
    + eapply Forall_impl; [exact Hrest |]. intros x Hx.
      now rewrite (same_fate_settles _ _ _ Hsame).
    + eapply Forall_impl; [exact Hvrest |]. intros x Hx.
      now rewrite (same_fate_verified _ _ _ Hsame).
    + exists w'. split; [eapply same_fate_trans; eauto |].
      rewrite Hrun. simpl. now rewrite <- app_assoc.
Qed.

Lemma finalize_all_verified (w : World) (tx : PutTransactionFS) :
  Forall (fun s => settles w s = true) (Object_values (_streams tx)) ->
  Forall (fun s => verified w s = true) (Object_values (_streams tx)) ->
  exists w',
    finalize w tx
    = (Resolved tt, w',
       set_files (_files tx ++ map file_of_stream (Object_values (_streams tx))) tx).
Proof.
  intros Hall Hver. unfold finalize, _closeAllStreams. cbv zeta.
  destruct (Object_values (_streams tx)) as [|s rest] eqn:Hstreams.
  - exists w. simpl. rewrite app_nil_r. unfold PutTransaction_finalize.
    now destruct tx.
  - destruct (closeLoop_all_verified (s :: rest) w (_files tx) Hall Hver)
      as (w' & _ & Hrun).
    exists w'. change (Nat.eqb (List.length (s :: rest)) 0) with false.
    cbv iota. now rewrite Hrun.
Qed.




(** * Further properties *)

(** ** Finalize: what a resolved or repeated call leaves behind *)

Lemma closeLoop_resolved (streams : list StreamEntry) (w : World) (acc : list FileEntry)
    (u : unit) (w' : World) (acc' : list FileEntry) :
  closeLoop streams w acc = (Resolved u, w', acc') ->
  acc' = acc ++ map file_of_stream streams.
Proof.
  revert w acc. induction streams as [|file rest IH]; intros w acc Hrun; simpl in Hrun.
  - injection Hrun as _ _ <-. now rewrite app_nil_r.
  - unfold processClosedStream in Hrun.
    destruct (stream_closed w (se_stream file)).
    + destruct (strict_eq_bytes _ _); [| discriminate].
      apply IH in Hrun. subst acc'. simpl. now rewrite <- app_assoc.
    + destruct (await_close (se_stream file) w) as [w1|]; [| discriminate].
      destruct (strict_eq_bytes _ _); [| discriminate].
      apply IH in Hrun. subst acc'. simpl. now rewrite <- app_assoc.
Qed.

Lemma finalize_resolved_shape
    (w : World) (tx : PutTransactionFS) (u : unit) (w' : World) (tx' : PutTransactionFS) :
  finalize w tx = (Resolved u, w', tx') ->
  files tx' = files tx ++ map file_of_stream (Object_values (_streams tx))
  /\ _streams tx' = _streams tx /\ guid tx' = guid tx /\ hash tx' = hash tx.
Proof.
  intros Hrun. unfold finalize, _closeAllStreams in Hrun. cbv zeta in Hrun.
  destruct (Nat.eqb (List.length (Object_values (_streams tx))) 0) eqn:Hlen.
  - injection Hrun as _ _ <-.
    destruct (Object_values (_streams tx)); [| discriminate].
    simpl. now rewrite app_nil_r.
  - destruct (closeLoop _ w (_files tx)) as [[r w1] acc] eqn:Hloop.
    destruct r as [u1 | e |]; try discriminate.
    injection Hrun as _ _ <-. apply closeLoop_resolved in Hloop.
    subst acc. now simpl.
Qed.

(** A [finalize] that resolves has pushed exactly one file per recorded
    stream, after the files that were there, in the order the kinds were
    first opened, and the manifest has grown by the kinds of those streams;
    the recorded streams stay recorded. *)
Theorem finalize_resolved_pushes_every_stream
    (w : World) (tx : PutTransactionFS) (u : unit) (w' : World) (tx' : PutTransactionFS) :
  finalize w tx = (Resolved u, w', tx') ->
  files tx' = files tx ++ map file_of_stream (Object_values (_streams tx))
  /\ manifest tx' = manifest tx ++ map se_type (Object_values (_streams tx))
  /\ _streams tx' = _streams tx
  /\ guid tx' = guid tx /\ hash tx' = hash tx.
Proof.
  intros Hrun.
  destruct (finalize_resolved_shape w tx u w' tx' Hrun)
    as (Hfiles & Hstreams & Hguid & Hhash).
  repeat split; try assumption.
  unfold manifest. rewrite Hfiles, map_app, map_map. reflexivity.
Qed.

Lemma finalize_resolved_pushes_every_stream_witness :
  files (snd (finalize store_both_open transaction_both_open))
    = files transaction_both_open
      ++ map file_of_stream (Object_values (_streams transaction_both_open))
  /\ manifest (snd (finalize store_both_open transaction_both_open))
     = manifest transaction_both_open
       ++ map se_type (Object_values (_streams transaction_both_open))
  /\ _streams (snd (finalize store_both_open transaction_both_open))
     = _streams transaction_both_open
  /\ guid (snd (finalize store_both_open transaction_both_open))
     = guid transaction_both_open
  /\ hash (snd (finalize store_both_open transaction_both_open))
     = hash transaction_both_open.
Proof.
  apply (finalize_resolved_pushes_every_stream store_both_open transaction_both_open tt
           (snd (fst (finalize store_both_open transaction_both_open)))).
  vm_compute. reflexivity.
Defined.

(** With streams that all settle, [finalize] resolves only if every one of
    them is verified. *)
Lemma finalize_resolved_all_verified (w : World) (tx : PutTransactionFS)
    (u : unit) (w' : World) (tx' : PutTransactionFS) :
  Forall (fun s => settles w s = true) (Object_values (_streams tx)) ->
  finalize w tx = (Resolved u, w', tx') ->
  Forall (fun s => verified w s = true) (Object_values (_streams tx)).
Proof.
  intros Hall Hrun. apply Forall_forall. intros s Hs.
  destruct (verified w s) eqn:Hv; [reflexivity | exfalso].
  destruct (finalize_mismatch w tx Hall) as (w2 & pre & s2 & post & _ & _ & _ & _ & Hrej).
  - apply Exists_exists. eauto.
  - rewrite Hrej in Hrun. discriminate.
Qed.

Lemma closeLoop_all_verified_fate (streams : list StreamEntry) (w : World)
    (acc : list FileEntry) (r : Promise unit) (w' : World) (acc' : list FileEntry) :
  Forall (fun s => settles w s = true) streams ->
  Forall (fun s => verified w s = true) streams ->
  closeLoop streams w acc = (r, w', acc') -> same_fate w w'.
Proof.
  intros Hall Hver Hrun.
  destruct (closeLoop_all_verified streams w acc Hall Hver) as (w1 & Hsame & Hrun1).
  rewrite Hrun1 in Hrun. now injection Hrun as _ <- _.
Qed.

(** [finalize] is not idempotent: called again after it has resolved (as
    [endPutTransaction] does after an explicit [finalize]) it resolves
    again and pushes every file a second time. *)
Theorem finalize_twice_duplicates_files
    (w : World) (tx : PutTransactionFS) (u : unit) (w1 : World) (tx1 : PutTransactionFS) :
  Forall (fun s => settles w s = true) (Object_values (_streams tx)) ->
  finalize w tx = (Resolved u, w1, tx1) ->
  exists w2 tx2,
    finalize w1 tx1 = (Resolved tt, w2, tx2)
    /\ files tx2
       = files tx ++ map file_of_stream (Object_values (_streams tx))
                  ++ map file_of_stream (Object_values (_streams tx)).
Proof.
  intros Hall Hrun.
  pose proof (finalize_resolved_all_verified w tx u w1 tx1 Hall Hrun) as Hver.
  destruct (finalize_resolved_shape w tx u w1 tx1 Hrun) as (Hfiles & Hstreams & _).
  assert (same_fate w w1) as Hsame.
  { unfold finalize, _closeAllStreams in Hrun. cbv zeta in Hrun.
    destruct (Nat.eqb (List.length (Object_values (_streams tx))) 0).
    - injection Hrun as _ <- _. apply same_fate_refl.
    - destruct (closeLoop _ w (_files tx)) as [[r w'] acc] eqn:Hloop.
      assert (w' = w1) as <-.
      { destruct r; try discriminate. now injection Hrun as _ <- _. }
      eapply closeLoop_all_verified_fate; eauto. }
  destruct (finalize_all_verified w1 tx1) as [w2 Hrun2].
  - rewrite Hstreams. eapply Forall_impl; [exact Hall |]. intros x Hx.
    now rewrite (same_fate_settles _ _ _ Hsame).
  - rewrite Hstreams. eapply Forall_impl; [exact Hver |]. intros x Hx.
    now rewrite (same_fate_verified _ _ _ Hsame).
  - exists w2, (set_files (_files tx1 ++ map file_of_stream
                             (Object_values (_streams tx1))) tx1).
    split; [exact Hrun2 |]. simpl. unfold files in Hfiles.
    now rewrite Hfiles, Hstreams, <- app_assoc.
Qed.

Lemma forallb_Forall_true {A : Type} (f : A -> bool) (l : list A) :
  forallb f l = true -> Forall (fun x => f x = true) l.
Proof.
  induction l as [|x l IH]; simpl; intros H; constructor;
    apply andb_prop in H as [Hx Hl]; auto.
Qed.

Lemma finalize_twice_duplicates_files_witness :
  exists w2 tx2,
    finalize (snd (fst (finalize store_both_open transaction_both_open)))
             (snd (finalize store_both_open transaction_both_open))
      = (Resolved tt, w2, tx2)
    /\ files tx2
       = files transaction_both_open
           ++ map file_of_stream (Object_values (_streams transaction_both_open))
           ++ map file_of_stream (Object_values (_streams transaction_both_open)).
Proof.
  apply (finalize_twice_duplicates_files store_both_open transaction_both_open tt).
  - apply forallb_Forall_true. vm_compute. reflexivity.
  - vm_compute. reflexivity.
Defined.

(** ** Declared sizes that no byte count can match *)

Lemma verified_integer_valued (w : World) (s : StreamEntry) :
  verified w s = true -> integer_valued (se_size s).
Proof.
  unfold verified, strict_eq_bytes, integer_valued.
  destruct (final_bytes w (se_stream s)) as [n|]; [| discriminate].
  destruct (se_size s) as [| | |[q| | |]|]; try discriminate.
  intros H. apply Qeq_bool_iff in H. exists n. now symmetry.
Qed.

(** [getWriteStream] takes any number above zero as the declared size, but
    the byte count of a stream is an integer: a transaction that records a
    stream whose declared size is 1.5, NaN or Infinity cannot be finalized.
    Once its streams settle, [finalize] rejects with the size mismatch. *)
Theorem finalize_rejects_fractional_size
    (w : World) (tx : PutTransactionFS) (s : StreamEntry) :
  Forall (fun s => settles w s = true) (Object_values (_streams tx)) ->
  In s (Object_values (_streams tx)) ->
  ~ integer_valued (se_size s) ->
  exists w' tx', finalize w tx = (Rejected FileSizeMismatch, w', tx').
Proof.
  intros Hall Hs Hfrac.
  destruct (finalize_mismatch w tx Hall) as (w' & pre & s2 & post & _ & _ & _ & _ & Hrej).
  - apply Exists_exists. exists s. split; [now apply list_elem_of_In |].
    destruct (verified w s) eqn:Hv; [| reflexivity].
    exfalso. apply Hfrac. eapply verified_integer_valued; eauto.
  - eauto.
Qed.

Lemma finalize_rejects_fractional_size_witness :
  exists w' tx',
    finalize store_fractional transaction_fractional
      = (Rejected FileSizeMismatch, w', tx').
Proof.
  apply (finalize_rejects_fractional_size store_fractional transaction_fractional
           (mkStreamEntry "/cache/7c9e6679-7425-40de-944b-e07fc1f90ae7" "i"
              (VNumber (Finite (3 # 2))) 0)).
  - apply forallb_Forall_true. vm_compute. reflexivity.
  - vm_compute. left. reflexivity.
  - simpl. intros [k Hk]. unfold Qeq in Hk. simpl in Hk. lia.
Defined.

(** ** The streams a transaction records *)

Lemma object_set_keys {A : Type} (k : string) (v : A) (obj : list (string * A)) (x : string) :
  In x (map fst (object_set k v obj)) -> x = k \/ In x (map fst obj).
Proof.
  induction obj as [|[k' v'] obj IH]; simpl.
  - intros [H | []]. now left.
  - destruct (String.eqb k' k) eqn:Hk; simpl.
    + apply String.eqb_eq in Hk. subst k'. intros [H | H]; auto.
    + intros [H | H]; [auto |]. destruct (IH H); auto.
Qed.

Lemma object_set_NoDup {A : Type} (k : string) (v : A) (obj : list (string * A)) :
  NoDup (map fst obj) -> NoDup (map fst (object_set k v obj)).
Proof.
  induction obj as [|[k' v'] obj IH]; simpl; intros Hnd.
  - constructor; [apply not_elem_of_nil | constructor].
  - apply NoDup_cons in Hnd as [Hk' Hnd].
    destruct (String.eqb k' k) eqn:Hk; simpl.
    + apply String.eqb_eq in Hk. subst k'. now constructor.
    + apply String.eqb_neq in Hk. constructor; [| auto].
      intros Hin. apply list_elem_of_In, object_set_keys in Hin as [Hin | Hin];
        [congruence |].
      apply Hk'. now apply list_elem_of_In.
Qed.

Lemma object_set_Forall {A : Type} (P : string * A -> Prop) (k : string) (v : A)
    (obj : list (string * A)) :
  P (k, v) -> Forall P obj -> Forall P (object_set k v obj).
Proof.
  intros Hv. induction obj as [|[k' v'] obj IH]; simpl; intros Hobj.
  - now constructor.
  - apply Forall_cons in Hobj as [Hv' Hobj].
    destruct (String.eqb k' k); constructor; auto.
Qed.

Lemma object_get_set_ne {A : Type} (k k0 : string) (v : A) (obj : list (string * A)) :
  k0 <> k -> object_get k0 (object_set k v obj) = object_get k0 obj.
Proof.
  intros Hne. unfold object_get.
  induction obj as [|[k' v'] obj IH]; simpl.
  - apply String.eqb_neq in Hne. rewrite String.eqb_sym in Hne. now rewrite Hne.
  - destruct (String.eqb k' k) eqn:Hk; simpl.
    + apply String.eqb_eq in Hk. subst k'.
      apply String.eqb_neq in Hne. rewrite String.eqb_sym in Hne. now rewrite Hne.
    + destruct (String.eqb k' k0); [reflexivity | exact IH].
Qed.

Lemma streams_wf_length (obj : list (string * StreamEntry)) :
  streams_wf obj -> (List.length obj <= 3)%nat.
Proof.
  intros [Hnd Hall].
  assert (map fst obj ⊆+ ["a"; "i"; "r"]) as Hsub.
  { apply NoDup_submseteq; [exact Hnd |]. intros x Hx.
    apply list_elem_of_In, in_map_iff in Hx as ([k v] & <- & Hkv).
    rewrite Forall_forall in Hall.
    destruct (Hall (k, v)) as [Hrec _]; [now apply list_elem_of_In |].
    simpl in *. apply list_elem_of_In.
    destruct (recognized_cases _ Hrec) as [-> | [-> | ->]]; simpl; auto. }
  apply submseteq_length in Hsub. rewrite length_map in Hsub. exact Hsub.
Qed.

(** What a [getWriteStream] that resolves has done. *)
Lemma getWriteStream_resolved_shape type size w tx h w' tx' :
  getWriteStream type size w tx = (Resolved h, w', tx') ->
  let file := path_join (tx_cachePath tx) (rng w (draws w)) in
  ~ bad_arguments type size
  /\ h = List.length (heap w)
  /\ heap w' = heap w ++ [mkWriteStream file 0 false]
  /\ fs w' = <[file := mkStats 0 (clock w) false]> (fs w)
  /\ locked w' = locked w /\ clock w' = clock w /\ producers w' = producers w
  /\ events w' = events w /\ logs w' = logs w
  /\ tx' = set_streams (object_set type (mkStreamEntry file type size h) (_streams tx)) tx.
Proof.
  intros Hrun file.
  destruct (bad_arguments_dec type size) as [Hbad | Hgood].
  { destruct (getWriteStream_bad_arguments type size w tx Hbad) as (e & He & _).
    rewrite He in Hrun. discriminate. }
  split; [exact Hgood |].
  rewrite (getWriteStream_good_arguments type size w tx Hgood) in Hrun.
  simpl in Hrun. fold file in Hrun.
  unfold fs_ensureFile in Hrun. simpl in Hrun.
  destruct (fs w !! file) as [st|] eqn:Hfile.
  - destruct (stats_isDirectory st); [discriminate |].
    injection Hrun as <- <- <-. simpl. repeat split.
  - destruct (decide (file ∈ locked w)); [discriminate |].
    injection Hrun as <- <- <-. simpl. repeat split.
    now rewrite insert_insert_eq.
Qed.

(** Every [getWriteStream], whatever its outcome, leaves the transaction
    with at most one recorded stream per kind, each filed under its own
    recognised kind: a transaction never records more than three streams,
    and the kinds of its streams are pairwise different. *)
Theorem getWriteStream_keeps_one_stream_per_kind type size w tx r w' tx' :
  streams_wf (_streams tx) ->
  getWriteStream type size w tx = (r, w', tx') ->
  streams_wf (_streams tx')
  /\ (List.length (_streams tx') <= 3)%nat
  /\ NoDup (map fst (_streams tx')).
Proof.
  intros Hwf Hrun.
  assert (streams_wf (_streams tx')) as Hwf'.
  { destruct r as [h | e |].
    - destruct (getWriteStream_resolved_shape _ _ _ _ _ _ _ Hrun)
        as (Hgood & _ & _ & _ & _ & _ & _ & _ & _ & ->).
      destruct Hwf as [Hnd Hall]. simpl. split.
      + now apply object_set_NoDup.
      + apply object_set_Forall; [| exact Hall]. simpl. split; [| reflexivity].
        destruct (recognized type) eqn:Hrec; [reflexivity |].
        exfalso. apply Hgood. right. now right.
    - assert (tx' = tx) as ->; [| exact Hwf].
      destruct (bad_arguments_dec type size) as [Hbad | Hgood].
      + destruct (getWriteStream_bad_arguments type size w tx Hbad) as (e' & He & _).
        rewrite He in Hrun. now injection Hrun as _ _ <-.
      + rewrite (getWriteStream_good_arguments type size w tx Hgood) in Hrun.
        destruct (fs_ensureFile _ _); [now injection Hrun as _ _ <- | discriminate].
    - exfalso.
      destruct (bad_arguments_dec type size) as [Hbad | Hgood].
      + destruct (getWriteStream_bad_arguments type size w tx Hbad) as (e' & He & _).
        rewrite He in Hrun. discriminate.
      + rewrite (getWriteStream_good_arguments type size w tx Hgood) in Hrun.
        destruct (fs_ensureFile _ _); discriminate. }
  split; [exact Hwf' |]. split; [now apply streams_wf_length | apply Hwf'].
Qed.

Lemma streams_wf_fresh (self : CacheFS) (guid hash : Buffer) :
  streams_wf (_streams (createPutTransaction self guid hash)).
Proof. split; simpl; constructor. Qed.

Lemma getWriteStream_keeps_one_stream_per_kind_witness :
  streams_wf (_streams transaction_a_replaced)
  /\ (List.length (_streams transaction_a_replaced) <= 3)%nat
  /\ NoDup (map fst (_streams transaction_a_replaced)).
Proof.
  apply (getWriteStream_keeps_one_stream_per_kind "a" (VNumber (Finite 7))
           store_a_first transaction_a_first (Resolved 1%nat) store_a_replaced).
  - apply (getWriteStream_keeps_one_stream_per_kind "a" (VNumber (Finite 5))
             empty_store_uneven fresh_transaction (Resolved 0%nat) store_a_first).
    + apply streams_wf_fresh.
    + vm_compute. reflexivity.
  - vm_compute. reflexivity.
Defined.

(** A [getWriteStream] that resolves has touched one path, its temporary
    file, which is now an empty file whatever was there before; every other
    entry of the disk, every stream object already on the heap, the events,
    the log and the clock are as they were; the stream it returns is a new
    object, open and empty; the files of the transaction and the records of
    the other kinds are unchanged. *)
Theorem getWriteStream_touches_only_its_temp_file type size w tx h w' tx' :
  getWriteStream type size w tx = (Resolved h, w', tx') ->
  let file := path_join (tx_cachePath tx) (rng w (draws w)) in
  fs w' !! file = Some (mkStats 0 (clock w) false)
  /\ (forall p, p <> file -> fs w' !! p = fs w !! p)
  /\ heap w !! h = None
  /\ heap w' !! h = Some (mkWriteStream file 0 false)
  /\ (forall h0 s, heap w !! h0 = Some s -> heap w' !! h0 = Some s)
  /\ locked w' = locked w /\ clock w' = clock w
  /\ events w' = events w /\ logs w' = logs w
  /\ files tx' = files tx
  /\ (forall k, k <> type -> object_get k (_streams tx') = object_get k (_streams tx)).
Proof.
  intros Hrun file.
  destruct (getWriteStream_resolved_shape _ _ _ _ _ _ _ Hrun)
    as (_ & -> & Hheap & Hfs & Hlocked & Hclock & _ & Hevents & Hlogs & ->).
  fold file in Hheap, Hfs. rewrite Hheap, Hfs.
  split; [apply lookup_insert_eq |].
  split; [intros p Hp; now apply lookup_insert_ne |].
  split; [now apply lookup_ge_None |].
  split; [now rewrite lookup_app_r, Nat.sub_diag by lia |].
  split; [intros h0 s Hs; now apply lookup_app_l_Some |].
  repeat (split; [assumption |]).
  split; [reflexivity |].
  intros k Hk. simpl. now apply object_get_set_ne.
Qed.

Lemma getWriteStream_touches_only_its_temp_file_witness :
  fs store_a_replaced !! path_join "/cache" (rng store_a_first (draws store_a_first))
    = Some (mkStats 0 (clock store_a_first) false)
  /\ (forall p, p <> path_join "/cache" (rng store_a_first (draws store_a_first)) ->
        fs store_a_replaced !! p = fs store_a_first !! p)
  /\ heap store_a_first !! 1%nat = None
  /\ heap store_a_replaced !! 1%nat
     = Some (mkWriteStream
               (path_join "/cache" (rng store_a_first (draws store_a_first))) 0 false)
  /\ (forall h0 s, heap store_a_first !! h0 = Some s ->
        heap store_a_replaced !! h0 = Some s)
  /\ locked store_a_replaced = locked store_a_first
  /\ clock store_a_replaced = clock store_a_first
  /\ events store_a_replaced = events store_a_first
  /\ logs store_a_replaced = logs store_a_first
  /\ files transaction_a_replaced = files transaction_a_first
  /\ (forall k, k <> "a" ->
        object_get k (_streams transaction_a_replaced)
        = object_get k (_streams transaction_a_first)).
Proof.
  apply (getWriteStream_touches_only_its_temp_file "a" (VNumber (Finite 7))
           store_a_first transaction_a_first 1%nat store_a_replaced
           transaction_a_replaced).
  vm_compute. reflexivity.
Defined.

(** ** Creating the temporary file; sizes that match *)

Lemma fs_ensureFile_ok (file : string) (w : World) :
  file ∉ locked w ->
  (forall st, fs w !! file = Some st -> stats_isDirectory st = false) ->
  exists w2, fs_ensureFile file w = inr w2.
Proof.
  intros Hlock Hdir. unfold fs_ensureFile.
  destruct (fs w !! file) as [st|] eqn:Hfile.
  - rewrite (Hdir st eq_refl). eauto.
  - destruct (decide (file ∈ locked w)); [contradiction | eauto].
Qed.

Lemma strict_eq_bytes_refl (n : Z) :
  strict_eq_bytes n (VNumber (Finite (inject_Z n))) = true.
Proof. simpl. apply Qeq_bool_iff. reflexivity. Qed.

(** ** Reading: stat and read stream *)

(** [getFileStream] and [getFileInfo] agree on what is in the store: one
    resolves exactly when the other does; for a file the stream delivers as
    many bytes as [getFileInfo] reports and nothing is logged; for a missing
    file both reject with the same not-found error, which [getFileStream]
    alone writes to the log. Neither changes the disk. *)
Theorem getFileStream_agrees_with_getFileInfo
    (G : Buffer -> string) (self : CacheFS) (type : string) (guid hash : Buffer)
    (w : World) :
  ((exists n, getFileInfo G self type guid hash w = Resolved n)
   <-> exists rs, fst (getFileStream G self type guid hash w) = Resolved rs)
  /\ (forall e,
        getFileInfo G self type guid hash w = Rejected e ->
        getFileStream G self type guid hash w = (Rejected e, log (LOG_ERR e) w)
        /\ classify e = NotFound)
  /\ (forall st,
        fs w !! _calcFilepath G (_cachePath self) type guid hash = Some st ->
        stats_isDirectory st = false ->
        getFileInfo G self type guid hash w = Resolved (stats_size st)
        /\ getFileStream G self type guid hash w
           = (Resolved (mkReadStream (_calcFilepath G (_cachePath self) type guid hash)
                          (stats_size st)), w))
  /\ fs (snd (getFileStream G self type guid hash w)) = fs w.
Proof.
  unfold getFileInfo, getFileStream, fs_stat. cbv zeta.
  destruct (fs w !! _calcFilepath G (_cachePath self) type guid hash) as [st|].
  - split; [| split; [| split]].
    + split; intros _; [destruct (stats_isDirectory st) |]; eauto.
    + intros e He. discriminate.
    + intros st' [= <-] ->. now split.
    + now destruct (stats_isDirectory st).
  - split; [| split; [| split]].
    + split; intros [x Hx]; discriminate.
    + intros e [= <-]. now split.
    + intros st' Hst'. discriminate.
    + reflexivity.
Qed.

Lemma getFileStream_agrees_with_getFileInfo_witness :
  getFileStream hexGUID expire_after_one_day "a" example_guid example_hash empty_store
    = (Rejected (SystemError "ENOENT" "/cache/01/01ab-ff.bin"),
       log (LOG_ERR (SystemError "ENOENT" "/cache/01/01ab-ff.bin")) empty_store)
  /\ classify (SystemError "ENOENT" "/cache/01/01ab-ff.bin") = NotFound.
Proof.
  apply (proj1 (proj2 (getFileStream_agrees_with_getFileInfo hexGUID
                         expire_after_one_day "a" example_guid example_hash
                         empty_store))).
  vm_compute. reflexivity.
Defined.

(** ** Cleanup: what a run can touch *)

Lemma list_fmap_map {A B : Type} (f : A -> B) (l : list A) : f <$> l = map f l.
Proof. induction l as [|x l IH]; simpl; [reflexivity | now rewrite <- IH]. Qed.

Lemma NoDup_map_filter {A B : Type} (g : A -> B) (f : A -> bool) (l : list A) :
  NoDup (map g l) -> NoDup (map g (List.filter f l)).
Proof.
  induction l as [|x l IH]; simpl; intros Hnd; [constructor |].
  apply NoDup_cons in Hnd as [Hx Hnd].
  destruct (f x); simpl; [| auto].
  constructor; [| auto]. intros Hin. apply Hx.
  apply list_elem_of_In, in_map_iff in Hin as (y & Hy & Hin).
  apply filter_In in Hin as [Hin _].
  apply list_elem_of_In, in_map_iff. eauto.
Qed.

Lemma klaw_sound (root : string) (w : World) (items : list Item) (item : Item) :
  klaw root w = inr items -> In item items ->
  fs w !! item_path item = Some (item_stats item)
  /\ under root (item_path item) = true.
Proof.
  unfold klaw. destruct (fs w !! root); [| discriminate].
  intros [= <-] Hin.
  apply in_map_iff in Hin as ([p st] & <- & Hin).
  apply filter_In in Hin as [Hin Hunder]. simpl in *.
  split; [| exact Hunder].
  now apply elem_of_map_to_list, list_elem_of_In.
Qed.

Lemma klaw_NoDup (root : string) (w : World) (items : list Item) :
  klaw root w = inr items -> NoDup (map item_path items).
Proof.
  unfold klaw. destruct (fs w !! root); [| discriminate].
  intros [= <-]. rewrite map_map. simpl.
  apply (NoDup_map_filter fst). rewrite <- list_fmap_map.
  apply NoDup_fst_map_to_list.
Qed.

Lemma klaw_root_exists (root : string) (w : World) :
  is_Some (fs w !! root) -> exists items, klaw root w = inr items.
Proof. unfold klaw. intros [st ->]. eauto. Qed.

(** The walk and the search only emit events. *)
Lemma walk_locked (min : Z) (items : list Item) (st : CleanupState) (w : World) :
  locked (snd (fold_left (filterTransform min) items (st, w))) = locked w.
Proof.
  revert st w. induction items as [|item items IH]; intros st w; simpl.
  - reflexivity.
  - destruct (stats_isDirectory (item_stats item)); [apply IH | now rewrite IH].
Qed.

Lemma walk_clock (min : Z) (items : list Item) (st : CleanupState) (w : World) :
  clock (snd (fold_left (filterTransform min) items (st, w))) = clock w.
Proof.
  revert st w. induction items as [|item items IH]; intros st w; simpl.
  - reflexivity.
  - destruct (stats_isDirectory (item_stats item)); [apply IH | now rewrite IH].
Qed.

Lemma walk_events (min : Z) (items : list Item) (st : CleanupState) (w : World) :
  exists pre,
    events (snd (fold_left (filterTransform min) items (st, w))) = events w ++ pre
    /\ Forall (fun e => exists d, e = cleanup_search_progress d) pre.
Proof.
  revert st w. induction items as [|item items IH]; intros st w; simpl.
  - exists []. now rewrite app_nil_r.
  - destruct (stats_isDirectory (item_stats item)); [apply IH |].
    match goal with
    | |- context [fold_left _ items (?s, emit ?e w)] =>
        destruct (IH s (emit e w)) as (pre & Hpre & Hall); exists (e :: pre)
    end.
    rewrite Hpre. simpl. rewrite <- app_assoc. split; [reflexivity |].
    constructor; eauto.
Qed.

Lemma size_pass_frame (m : Z) (items : list Item) (st : CleanupState) (w : World) :
  locked (snd (size_pass m items st w)) = locked w
  /\ clock (snd (size_pass m items st w)) = clock w.
Proof.
  revert st w. induction items as [|item items IH]; intros st w; simpl.
  - now split.
  - match goal with |- context [if ?c then _ else _] => destruct c end.
    + now split.
    + match goal with
      | |- context [size_pass m items ?s ?w1] => destruct (IH s w1) as [H1 H2]
      end.
      now rewrite H1, H2.
Qed.

Lemma finalize_search_frame (max : option Z) (st : CleanupState) (w : World) :
  locked (snd (finalize_search max st w)) = locked w
  /\ clock (snd (finalize_search max st w)) = clock w.
Proof.
  unfold finalize_search.
  destruct (over_budget max st); [| now split].
  match goal with
  | |- context [size_pass ?m ?l ?s w] =>
      pose proof (size_pass_frame m l s w) as H;
      destruct (size_pass m l s w) as [st1 w1]
  end.
  exact H.
Qed.

Lemma budget_off_never_over (max : option Z) (st : CleanupState) :
  budget_off max -> over_budget max st = false.
Proof.
  destruct max as [m|]; simpl; [| reflexivity]. intros Hm.
  destruct (0 <? m) eqn:Hpos; [apply Z.ltb_lt in Hpos; lia | reflexivity].
Qed.

Lemma finalize_search_off (max : option Z) (st : CleanupState) (w : World) :
  budget_off max ->
  finalize_search max st w = (st, emit (cleanup_search_finish (progressData st)) w).
Proof.
  intros Hoff. unfold finalize_search. now rewrite budget_off_never_over.
Qed.

(** ** Cleanup: the deletion loop on files that can be unlinked *)

Lemma delete_loop_frame (items : list string) (w : World) :
  locked (snd (delete_loop items w)) = locked w
  /\ clock (snd (delete_loop items w)) = clock w.
Proof.
  revert w. induction items as [|p items IH]; intros w; simpl; [now split |].
  destruct (fs_unlink p (emit (cleanup_delete_item p) w)) as [err | w2] eqn:Hu;
    [now split |].
  apply fs_unlink_inr in Hu. subst w2. destruct (IH (set_fs (delete p)
    (emit (cleanup_delete_item p) w))) as [H1 H2]. now rewrite H1, H2.
Qed.

Lemma delete_loop_succeeds (items : list string) (w : World) :
  NoDup items ->
  (forall p, In p items ->
     (p ∉ locked w)
     /\ exists st, fs w !! p = Some st /\ stats_isDirectory st = false) ->
  fst (delete_loop items w) = None.
Proof.
  revert w. induction items as [|p items IH]; intros w Hnd Hok; simpl;
    [reflexivity |].
  apply NoDup_cons in Hnd as [Hp Hnd].
  destruct (Hok p (or_introl eq_refl)) as (Hlock & st & Hst & Hdir).
  unfold fs_unlink. simpl.
  destruct (decide (p ∈ locked w)); [contradiction |].
  rewrite Hst, Hdir. apply IH; [exact Hnd |].
  intros q Hq. destruct (Hok q (or_intror Hq)) as (Hlockq & stq & Hstq & Hdirq).
  split; [exact Hlockq |]. exists stq. split; [| exact Hdirq].
  simpl. rewrite lookup_delete_ne; [exact Hstq |].
  intros ->. apply Hp. now apply list_elem_of_In.
Qed.

(** ** Cleanup by age alone *)

Lemma expired_entry_item (root : string) (min : Z) (item : Item) :
  under root (item_path item) = true ->
  expired_entry root min (item_path item) (item_stats item) = expired_file min item.
Proof. unfold expired_entry, expired_file, is_file. now intros ->. Qed.

(** A real run with the size pass off, on a store where no expired file is
    locked: what it returns, emits and leaves on the disk. *)
Lemma cleanup_by_age_run (self : CacheFS) (w : World) :
  let d := moment_duration (expireTimeSpan (cleanupOptions self)) in
  let root := _cachePath self in
  let min := clock w - asMilliseconds d in
  isValid d = true -> asMilliseconds d <> 0 ->
  budget_off (maxCacheSize (cleanupOptions self)) ->
  is_Some (fs w !! root) ->
  (forall p st, fs w !! p = Some st -> expired_entry root min p st = true ->
                p ∉ locked w) ->
  exists w' pre paths total,
    cleanup self false w = (Resolved tt, w')
    /\ events w' = events w ++ pre ++ [cleanup_search_finish total]
                   ++ map cleanup_delete_item paths ++ [cleanup_delete_finish total]
    /\ Forall (fun e => exists d, e = cleanup_search_progress d) pre
    /\ pd_deleteCount total = List.length paths
    /\ NoDup paths
    /\ (forall p, In p paths <->
                  exists st, fs w !! p = Some st /\ expired_entry root min p st = true)
    /\ (forall p, fs w' !! p
                  = match fs w !! p with
                    | Some st => if expired_entry root min p st then None else Some st
                    | None => None
                    end)
    /\ locked w' = locked w /\ clock w' = clock w.
Proof.
  intros d root min Hvalid Hms Hoff Hroot Hunlocked.
  destruct (klaw_root_exists root w Hroot) as [items Hklaw].
  unfold cleanup. fold d root. rewrite Hvalid. simpl.
  destruct (asMilliseconds d =? 0) eqn:Hz; [apply Z.eqb_eq in Hz; contradiction |].
  rewrite Hklaw. fold min. unfold walk.
  pose proof (walk_from min items cleanup_init w) as Hst.
  pose proof (walk_fs min items cleanup_init w) as Hfs.
  pose proof (walk_locked min items cleanup_init w) as Hlocked.
  pose proof (walk_clock min items cleanup_init w) as Hclock.
  destruct (walk_events min items cleanup_init w) as (pre & Hpre & Hprog).
  destruct (fold_left (filterTransform min) items (cleanup_init, w)) as [st w1].
  simpl in Hst, Hfs, Hlocked, Hclock, Hpre.
  unfold cleanup_finalize. rewrite (finalize_search_off _ st w1 Hoff). simpl.
  set (paths := map item_path (List.filter (expired_file min) items)).
  assert (deleteItems st = paths) as Hpaths by (now subst st).
  rewrite Hpaths.
  set (w2 := emit (cleanup_search_finish (progressData st)) w1).
  assert (forall p, In p paths <->
                    exists st', fs w !! p = Some st'
                                /\ expired_entry root min p st' = true) as Hin.
  { intros p. unfold paths. rewrite in_map_iff. split.
    - intros (item & <- & Hitem). apply filter_In in Hitem as [Hitem Hexp].
      destruct (klaw_sound _ _ _ _ Hklaw Hitem) as [Hlook Hunder].
      exists (item_stats item). split; [exact Hlook |].
      now rewrite expired_entry_item.
    - intros (st' & Hlook & Hexp).
      assert (under root p = true) as Hunder.
      { unfold expired_entry in Hexp. apply andb_prop in Hexp as [Hexp _].
        now apply andb_prop in Hexp as [Hexp _]. }
      exists (mkItem p st'). split; [reflexivity |].
      apply filter_In. split; [eapply klaw_visits; eauto |].
      now rewrite <- (expired_entry_item root) by exact Hunder. }
  assert (NoDup paths) as Hnd.
  { unfold paths. apply NoDup_map_filter. eapply klaw_NoDup; eauto. }
  assert (fst (delete_loop paths w2) = None) as Hok.
  { apply delete_loop_succeeds; [exact Hnd |]. intros p Hp.
    apply Hin in Hp as (st' & Hlook & Hexp). simpl. rewrite Hlocked, Hfs.
    split; [eapply Hunlocked; eauto |].
    exists st'. split; [exact Hlook |].
    unfold expired_entry in Hexp. apply andb_prop in Hexp as [Hexp _].
    apply andb_prop in Hexp as [_ Hexp]. now apply negb_true_iff in Hexp. }
  pose proof (delete_loop_events paths w2 Hok) as Hev.
  destruct (delete_loop_frame paths w2) as [Hlocked3 Hclock3].
  pose proof (delete_loop_removes paths w2) as Hgone.
  pose proof (delete_loop_keeps paths w2) as Hkeep.
  destruct (delete_loop paths w2) as [thrown w3]. simpl in *. subst thrown.
  eexists _, pre, paths, (progressData st).
  split; [reflexivity |]. simpl.
  split; [rewrite Hev, Hpre; now rewrite <- !app_assoc |].
  split; [exact Hprog |].
  split; [now rewrite Hpaths |].
  split; [exact Hnd |].
  split; [exact Hin |].
  split; [| now rewrite Hlocked3, Hclock3, Hlocked, Hclock].
  intros p. destruct (decide (p ∈ paths)) as [Hp | Hp].
  - rewrite (Hgone p eq_refl Hp).
    apply list_elem_of_In, Hin in Hp as (st' & -> & ->). reflexivity.
  - rewrite (Hkeep p Hp), Hfs.
    destruct (fs w !! p) as [st'|] eqn:Hlook; [| reflexivity].
    destruct (expired_entry root min p st') eqn:Hexp; [| reflexivity].
    exfalso. apply Hp, list_elem_of_In, Hin. eauto.
Qed.

(** With the size pass off and no expired file locked, a real run resolves
    and removes exactly the expired files: an entry is on the disk after
    the run if and only if it was there before and is not a file below the
    root last read before now minus the expiry span; entries that stay keep
    their stats, and one 'deleting' event is emitted per removed file. *)
Theorem cleanup_by_age_removes_exactly_the_expired (self : CacheFS) (w : World) :
  let d := moment_duration (expireTimeSpan (cleanupOptions self)) in
  let root := _cachePath self in
  let min := clock w - asMilliseconds d in
  isValid d = true -> asMilliseconds d <> 0 ->
  budget_off (maxCacheSize (cleanupOptions self)) ->
  is_Some (fs w !! root) ->
  (forall p st, fs w !! p = Some st -> expired_entry root min p st = true ->
                p ∉ locked w) ->
  exists w',
    cleanup self false w = (Resolved tt, w')
    /\ (forall p st,
          fs w' !! p = Some st
          <-> fs w !! p = Some st /\ expired_entry root min p st = false)
    /\ (forall p,
          In (cleanup_delete_item p) (events w') ->
          In (cleanup_delete_item p) (events w)
          \/ exists st, fs w !! p = Some st /\ expired_entry root min p st = true).
Proof.
  intros d root min Hvalid Hms Hoff Hroot Hunlocked.
  destruct (cleanup_by_age_run self w Hvalid Hms Hoff Hroot Hunlocked)
    as (w' & pre & paths & total & Hrun & Hev & Hprog & _ & _ & Hin & Hfs & _).
  subst min root d.
  exists w'. split; [exact Hrun |]. split.
  - intros p st. rewrite Hfs.
    destruct (fs w !! p) as [st'|].
    + destruct (expired_entry _ _ p st') eqn:Hexp.
      * split; [intros H; discriminate H | intros [[= ->] H]; congruence].
      * split; [intros [= ->]; now split | now intros [[= ->] _]].
    + split; [intros H; discriminate H | intros [H _]; discriminate H].
  - intros p Hp. rewrite Hev in Hp.
    apply in_app_or in Hp as [Hp | Hp]; [now left |].
    apply in_app_or in Hp as [Hp | Hp].
    { rewrite Forall_forall in Hprog. apply list_elem_of_In in Hp.
      destruct (Hprog _ Hp) as [x Hx]. discriminate Hx. }
    apply in_app_or in Hp as [Hp | Hp]; [destruct Hp as [Hp | []]; discriminate Hp |].
    apply in_app_or in Hp as [Hp | Hp]; [| destruct Hp as [Hp | []]; discriminate Hp].
    right. apply Hin. apply in_map_iff in Hp as (q & [= ->] & Hq). exact Hq.
Qed.

Lemma cleanup_by_age_removes_exactly_the_expired_witness :
  exists w',
    cleanup expire_after_one_day false expiry_store = (Resolved tt, w')
    /\ (forall p st,
          fs w' !! p = Some st
          <-> fs expiry_store !! p = Some st
              /\ expired_entry "/cache" (clock expiry_store - day) p st = false)
    /\ (forall p,
          In (cleanup_delete_item p) (events w') ->
          In (cleanup_delete_item p) (events expiry_store)
          \/ exists st, fs expiry_store !! p = Some st
                        /\ expired_entry "/cache" (clock expiry_store - day) p st = true).
Proof.
  apply (cleanup_by_age_removes_exactly_the_expired expire_after_one_day expiry_store).
  - reflexivity.
  - discriminate.
  - exact I.
  - exists directory. vm_compute. reflexivity.
  - intros p st _ _. apply not_elem_of_empty.
Defined.

(** Running the same cleanup again straight away finds nothing to do: with
    the size pass off, the root a directory and no expired file locked, the
    second run resolves, emits no 'deleting' event, reports zero deletions
    and leaves the disk as the first run left it. *)
Theorem cleanup_by_age_twice_deletes_nothing (self : CacheFS) (w : World) :
  let d := moment_duration (expireTimeSpan (cleanupOptions self)) in
  let root := _cachePath self in
  let min := clock w - asMilliseconds d in
  isValid d = true -> asMilliseconds d <> 0 ->
  budget_off (maxCacheSize (cleanupOptions self)) ->
  (exists st, fs w !! root = Some st /\ stats_isDirectory st = true) ->
  (forall p st, fs w !! p = Some st -> expired_entry root min p st = true ->
                p ∉ locked w) ->
  exists w1 w2 pre total,
    cleanup self false w = (Resolved tt, w1)
    /\ cleanup self false w1 = (Resolved tt, w2)
    /\ fs w2 = fs w1
    /\ events w2
       = events w1 ++ pre ++ [cleanup_search_finish total; cleanup_delete_finish total]
    /\ Forall (fun e => exists d, e = cleanup_search_progress d) pre
    /\ pd_deleteCount total = 0%nat.
Proof.
  intros d root min Hvalid Hms Hoff (stroot & Hroot & Hdir) Hunlocked.
  subst min root d.
  destruct (cleanup_by_age_run self w Hvalid Hms Hoff) as
    (w1 & pre1 & paths1 & total1 & Hrun1 & _ & _ & _ & _ & _ & Hfs1 & Hlocked1 & Hclock1);
    [rewrite Hroot; eauto | exact Hunlocked |].
  set (d := moment_duration (expireTimeSpan (cleanupOptions self))) in *.
  set (min := clock w - asMilliseconds d) in *.
  assert (forall p st, fs w1 !! p = Some st ->
                       expired_entry (_cachePath self) min p st = false) as Hfresh.
  { intros p st. rewrite Hfs1. destruct (fs w !! p) as [st'|]; [| discriminate].
    destruct (expired_entry (_cachePath self) min p st') eqn:Hexp; [discriminate |].
    now intros [= <-]. }
  destruct (cleanup_by_age_run self w1 Hvalid Hms Hoff) as
    (w2 & pre & paths & total & Hrun2 & Hev & Hprog & Hcount & _ & Hin & Hfs2 & _).
  { rewrite Hfs1, Hroot. unfold expired_entry. rewrite Hdir.
    rewrite andb_false_r. simpl. eauto. }
  { intros p st Hp Hexp. rewrite Hclock1 in Hexp. fold d min in Hexp.
    rewrite (Hfresh p st Hp) in Hexp. discriminate. }
  rewrite Hclock1 in Hin, Hfs2. fold d min in Hin, Hfs2.
  assert (paths = []) as ->.
  { destruct paths as [|p paths]; [reflexivity | exfalso].
    destruct (proj1 (Hin p) (or_introl eq_refl)) as (st & Hp & Hexp).
    rewrite (Hfresh p st Hp) in Hexp. discriminate. }
  exists w1, w2, pre, total.
  split; [exact Hrun1 |]. split; [exact Hrun2 |].
  split; [| split; [exact Hev | split; [exact Hprog | exact Hcount]]].
  apply map_eq. intros p. rewrite Hfs2.
  destruct (fs w1 !! p) as [st|] eqn:Hp; [| reflexivity].
  now rewrite (Hfresh p st Hp).
Qed.

Lemma cleanup_by_age_twice_deletes_nothing_witness :
  exists w1 w2 pre total,
    cleanup expire_after_one_day false expiry_store = (Resolved tt, w1)
    /\ cleanup expire_after_one_day false w1 = (Resolved tt, w2)
    /\ fs w2 = fs w1
    /\ events w2
       = events w1 ++ pre ++ [cleanup_search_finish total; cleanup_delete_finish total]
    /\ Forall (fun e => exists d, e = cleanup_search_progress d) pre
    /\ pd_deleteCount total = 0%nat.
Proof.
  apply (cleanup_by_age_twice_deletes_nothing expire_after_one_day expiry_store).
  - reflexivity.
  - discriminate.
  - exact I.
  - exists directory. split; [vm_compute |]; reflexivity.
  - intros p st _ _. apply not_elem_of_empty.
Defined.

(** ** Cleanup: what no run touches *)

Lemma sort_insert_In {A : Type} (cmp : A -> A -> Z) (e x : A) (l : list A) :
  In x (sort_insert cmp e l) -> x = e \/ In x l.
Proof.
  induction l as [|y l IH]; simpl.
  - intros [H | []]. now left.
  - destruct (0 <? cmp y e); simpl.
    + intros [H | H]; [auto |]. destruct (IH H); auto.
    + intros [H | [H | H]]; auto.
Qed.

Lemma Array_sort_In {A : Type} (cmp : A -> A -> Z) (x : A) (l : list A) :
  In x (Array_sort cmp l) -> In x l.
Proof.
  unfold Array_sort. rewrite <- in_rev.
  assert (forall acc, In x (fold_left (fun sorted_rev element =>
                              sort_insert cmp element sorted_rev) l acc) ->
                      In x l \/ In x acc) as Hfold.
  { induction l as [|y l IH]; simpl; intros acc H; [now right |].
    destruct (IH _ H) as [H' | H']; [auto |].
    apply sort_insert_In in H' as [-> | H']; auto. }
  intros H. destruct (Hfold [] H) as [H' | []]. exact H'.
Qed.

(** Whatever the search marks is a path the walk marked or the path of a
    file the walk met. *)
Lemma finalize_search_marks (max : option Z) (st : CleanupState) (w : World) (p : string) :
  In p (deleteItems (fst (finalize_search max st w))) ->
  In p (deleteItems st) \/ In p (map item_path (allItems st)).
Proof.
  unfold finalize_search. destruct (over_budget max st); [| simpl; auto].
  match goal with
  | |- context [size_pass ?m ?l ?s w] =>
      destruct (size_pass_marks_prefix m l s w) as (k & _ & Hmarks & _);
      destruct (size_pass m l s w) as [st1 w1]
  end.
  simpl in *. rewrite Hmarks. intros Hin.
  apply in_app_or in Hin as [Hin | Hin]; [now left | right].
  apply in_map_iff in Hin as (item & <- & Hitem). apply in_map.
  apply (Array_sort_In atime_comparefn).
  apply list_elem_of_In. apply list_elem_of_In in Hitem.
  apply elem_of_take in Hitem as (i & Hi & _). apply list_elem_of_lookup. eauto.
Qed.

(** No cleanup, dry or real, with or without a size budget, resolved or
    failed, removes or alters an entry outside the tree of the store root,
    and none removes a directory. *)
Theorem cleanup_stays_below_root_and_keeps_directories
    (self : CacheFS) (dryRun : bool) (w : World) (p : string) :
  (under (_cachePath self) p = false
   \/ exists st, fs w !! p = Some st /\ stats_isDirectory st = true) ->
  fs (snd (cleanup self dryRun w)) !! p = fs w !! p.
Proof.
  intros Hp. unfold cleanup.
  destruct (negb _ || _); [reflexivity |].
  destruct (klaw (_cachePath self) w) as [err | items] eqn:Hklaw; [reflexivity |].
  unfold walk.
  set (min := clock w - _).
  pose proof (walk_from min items cleanup_init w) as Hst.
  pose proof (walk_fs min items cleanup_init w) as Hfs.
  destruct (fold_left (filterTransform min) items (cleanup_init, w)) as [st w1].
  simpl in Hst, Hfs. unfold cleanup_finalize.
  pose proof (finalize_search_marks (maxCacheSize (cleanupOptions self)) st w1) as Hmarks.
  pose proof (finalize_search_fs (maxCacheSize (cleanupOptions self)) st w1) as Hfs1.
  destruct (finalize_search _ st w1) as [st1 w2]. simpl in Hmarks, Hfs1.
  assert (p ∉ deleteItems st1) as Hout.
  { intros Hin. apply list_elem_of_In, Hmarks in Hin.
    assert (exists item, In item items /\ is_file item = true /\ item_path item = p)
      as (item & Hitem & Hfile & <-).
    { subst st. simpl in Hin. destruct Hin as [Hin | Hin];
        apply in_map_iff in Hin as (item & Hpath & Hin);
        apply filter_In in Hin as [Hin Hf]; exists item; repeat split; auto.
      unfold expired_file in Hf. now apply andb_prop in Hf as [Hf _]. }
    destruct (klaw_sound _ _ _ _ Hklaw Hitem) as [Hlook Hunder].
    destruct Hp as [Hp | (stp & Hstp & Hdir)]; [congruence |].
    rewrite Hlook in Hstp. injection Hstp as <-.
    unfold is_file in Hfile. rewrite Hdir in Hfile. discriminate. }
  destruct dryRun; simpl.
  - now rewrite Hfs1, Hfs.
  - pose proof (delete_loop_keeps (deleteItems st1) w2 p Hout) as Hkeep.
    destruct (delete_loop (deleteItems st1) w2) as [[err|] w3]; simpl in *;
      now rewrite Hkeep, Hfs1, Hfs.
Qed.

Lemma cleanup_stays_below_root_and_keeps_directories_witness :
  fs (snd (cleanup expire_three_days_max_15 false budget_store)) !! "/cache"
  = fs budget_store !! "/cache".
Proof.
  apply (cleanup_stays_below_root_and_keeps_directories expire_three_days_max_15
           false budget_store "/cache").
  right. exists directory. split; [vm_compute |]; reflexivity.
Defined.

(** ** Cleanup: a dry run against the real run *)

(** A dry run is a faithful rehearsal: when both resolve on the same store,
    the real run emits the events of the dry run, through 'search finish',
    then one 'deleting' event per marked path, then the same final totals;
    the totals count exactly the 'deleting' events, and every announced
    path is gone from the disk afterwards. *)
Theorem cleanup_dry_run_rehearses_real_run (self : CacheFS) (w wd wr : World) :
  cleanup self true w = (Resolved tt, wd) ->
  cleanup self false w = (Resolved tt, wr) ->
  exists pre total paths,
    events wd = pre ++ [cleanup_search_finish total; cleanup_delete_finish total]
    /\ events wr = pre ++ [cleanup_search_finish total]
                   ++ map cleanup_delete_item paths ++ [cleanup_delete_finish total]
    /\ pd_deleteCount total = List.length paths
    /\ (forall p, In p paths -> fs wr !! p = None)
    /\ fs wd = fs w.
Proof.
  unfold cleanup.
  destruct (negb _ || _); [discriminate |].
  destruct (klaw (_cachePath self) w) as [err | items]; [discriminate |].
  destruct (walk _ items w) as [st w1] eqn:Hwalk.
  assert (fs w1 = fs w) as Hfs.
  { unfold walk in Hwalk.
    match type of Hwalk with
    | fold_left (filterTransform ?min) _ _ = _ =>
        pose proof (walk_fs min items cleanup_init w) as H
    end.
    now rewrite Hwalk in H. }
  unfold cleanup_finalize.
  pose proof (finalize_search_fs (maxCacheSize (cleanupOptions self)) st w1) as Hfs1.
  assert (exists w2, snd (finalize_search (maxCacheSize (cleanupOptions self)) st w1)
                     = emit (cleanup_search_finish (progressData
                         (fst (finalize_search (maxCacheSize (cleanupOptions self))
                                 st w1)))) w2) as [w2 Hw2].
  { unfold finalize_search.
    destruct (if over_budget _ st then _ else _) as [st1 w2]. simpl. eauto. }
  destruct (finalize_search _ st w1) as [st1 ws]. simpl in Hfs1, Hw2. subst ws.
  simpl. intros [= <-].
  pose proof (delete_loop_events (deleteItems st1)
                (emit (cleanup_search_finish (progressData st1)) w2)) as Hev.
  pose proof (delete_loop_removes (deleteItems st1)
                (emit (cleanup_search_finish (progressData st1)) w2)) as Hgone.
  destruct (delete_loop _ _) as [[err|] w3]; [discriminate |].
  intros [= <-]. simpl in *.
  exists (events w2), (progressData st1), (deleteItems st1).
  split; [now rewrite <- app_assoc |].
  split; [rewrite (Hev eq_refl); now rewrite <- !app_assoc |].
  split; [reflexivity |].
  split; [| now rewrite Hfs1, Hfs].
  intros p Hp. apply Hgone; [reflexivity | now apply list_elem_of_In].
Qed.

Lemma cleanup_dry_run_rehearses_real_run_witness :
  exists pre total paths,
    events (snd (cleanup expire_after_one_day true expiry_store))
      = pre ++ [cleanup_search_finish total; cleanup_delete_finish total]
    /\ events (snd (cleanup expire_after_one_day false expiry_store))
       = pre ++ [cleanup_search_finish total]
             ++ map cleanup_delete_item paths ++ [cleanup_delete_finish total]
    /\ pd_deleteCount total = List.length paths
    /\ (forall p, In p paths ->
          fs (snd (cleanup expire_after_one_day false expiry_store)) !! p = None)
    /\ fs (snd (cleanup expire_after_one_day true expiry_store)) = fs expiry_store.
Proof.
  apply (cleanup_dry_run_rehearses_real_run expire_after_one_day expiry_store).
  - vm_compute. reflexivity.
  - vm_compute. reflexivity.
Defined.

Lemma size_pass_lru_without_expired_witness :
  exists k : nat,
    (0 < k <= List.length (List.filter is_file lru_items))%nat
    /\ deleteItems (marked (7 * day) (Some 15) lru_items empty_store)
       = map item_path (take k (List.filter is_file lru_items))
    /\ ((k < List.length (List.filter is_file lru_items))%nat ->
        total_size (List.filter is_file lru_items)
          - total_size (take k (List.filter is_file lru_items)) <= 15)
    /\ (forall j : nat, (0 < j < k)%nat ->
          15 < total_size (List.filter is_file lru_items)
               - total_size (take j (List.filter is_file lru_items))).
Proof.
  apply (size_pass_lru_without_expired (7 * day) 15 lru_items empty_store).
  - reflexivity.
  - simpl. lia.
  - repeat constructor; simpl; unfold day, minute; lia.
  - lia.
  - vm_compute. reflexivity.
Defined.

(** ** Calls that fail or never settle *)

(** A [getWriteStream] that rejects, for a bad argument or for a failure of
    the file system, has had no effect beyond drawing a uuid: the disk, the
    stream objects, the events, the log and the transaction are as before;
    and the error is an invalid-argument one exactly when an argument was
    refused. *)
Theorem getWriteStream_rejected_has_no_effect type size w tx e w' tx' :
  getWriteStream type size w tx = (Rejected e, w', tx') ->
  tx' = tx
  /\ fs w' = fs w /\ heap w' = heap w /\ locked w' = locked w
  /\ events w' = events w /\ logs w' = logs w
  /\ draws w' = S (draws w)
  /\ (classify e = InvalidArgument <-> bad_arguments type size).
Proof.
  intros Hrun.
  destruct (bad_arguments_dec type size) as [Hbad | Hgood].
  - destruct (getWriteStream_bad_arguments type size w tx Hbad) as (e' & He & Hc).
    rewrite He in Hrun. injection Hrun as <- <- <-.
    repeat split; auto.
  - rewrite (getWriteStream_good_arguments type size w tx Hgood) in Hrun.
    destruct (fs_ensureFile _ _) as [err | w2] eqn:Hens; [| discriminate].
    injection Hrun as <- <- <-.
    apply fs_ensureFile_error_class in Hens.
    repeat split; auto; intros H; contradiction.
Qed.

Lemma getWriteStream_rejected_has_no_effect_witness :
  transaction_a_open = transaction_a_open
  /\ fs (snd (uuid store_a_open)) = fs store_a_open
  /\ heap (snd (uuid store_a_open)) = heap store_a_open
  /\ locked (snd (uuid store_a_open)) = locked store_a_open
  /\ events (snd (uuid store_a_open)) = events store_a_open
  /\ logs (snd (uuid store_a_open)) = logs store_a_open
  /\ draws (snd (uuid store_a_open)) = S (draws store_a_open)
  /\ (classify (UnrecognizedType "data") = InvalidArgument
      <-> bad_arguments "data" (VNumber (Finite 5))).
Proof.
  apply (getWriteStream_rejected_has_no_effect "data" (VNumber (Finite 5))
           store_a_open transaction_a_open (UnrecognizedType "data")
           (snd (uuid store_a_open)) transaction_a_open).
  vm_compute. reflexivity.
Defined.

Lemma close_stream_logs (h : nat) (n : Z) (w : World) :
  logs (close_stream h n w) = logs w.
Proof. unfold close_stream. now destruct (heap w !! h). Qed.

Lemma closeLoop_logs (streams : list StreamEntry) (w : World) (acc : list FileEntry) :
  logs (snd (fst (closeLoop streams w acc))) = logs w.
Proof.
  revert w acc. induction streams as [|file rest IH]; intros w acc; simpl;
    [reflexivity |].
  unfold processClosedStream, await_close.
  destruct (stream_closed w (se_stream file)).
  - destruct (strict_eq_bytes _ _); [apply IH | reflexivity].
  - destruct (producers w (se_stream file)) as [n|]; [| reflexivity].
    destruct (strict_eq_bytes _ _); [rewrite IH |]; apply close_stream_logs.
Qed.

Lemma closeLoop_verified_prefix (pre rest : list StreamEntry) (w : World)
    (acc : list FileEntry) :
  Forall (fun s => settles w s = true) pre ->
  Forall (fun s => verified w s = true) pre ->
  exists w',
    same_fate w w'
    /\ closeLoop (pre ++ rest) w acc = closeLoop rest w' (acc ++ map file_of_stream pre).
Proof.
  revert w acc. induction pre as [|file pre IH]; intros w acc Hall Hver.
  - exists w. simpl. rewrite app_nil_r. split; [apply same_fate_refl | reflexivity].
  - apply Forall_cons in Hall as [Hfile Hall].
    apply Forall_cons in Hver as [Hv Hver].
    destruct (closeLoop_step file (pre ++ rest) w acc Hfile) as (w1 & Hsame & Hstep).
    destruct (IH w1 (acc ++ [file_of_stream file])) as (w' & Hsame' & Hrun).
    + eapply Forall_impl; [exact Hall |]. intros x Hx.
      now rewrite (same_fate_settles _ _ _ Hsame).
    + eapply Forall_impl; [exact Hver |]. intros x Hx.
      now rewrite (same_fate_verified _ _ _ Hsame).
    + exists w'. split; [eapply same_fate_trans; eauto |].
      change ((file :: pre) ++ rest) with (file :: pre ++ rest).
      rewrite Hstep, Hv, Hrun. simpl. now rewrite <- app_assoc.
Qed.

(** A stream that is never ended holds the commit up for good: when the
    streams recorded before it are verified and its own 'close' never
    comes, [finalize] and [endPutTransaction] stay unsettled; the files of
    the streams before it have been pushed, and nothing has been written to
    the log. *)
Theorem commit_waits_for_unended_stream
    (self : CacheFS) (w : World) (tx : PutTransactionFS)
    (pre : list StreamEntry) (s : StreamEntry) (post : list StreamEntry) :
  Object_values (_streams tx) = pre ++ s :: post ->
  Forall (fun s => settles w s = true) pre ->
  Forall (fun s => verified w s = true) pre ->
  final_bytes w (se_stream s) = None ->
  exists w' tx',
    finalize w tx = (Pending, w', tx')
    /\ endPutTransaction self w tx = (Pending, w', tx')
    /\ files tx' = files tx ++ map file_of_stream pre
    /\ logs w' = logs w.
Proof.
  intros Hsplit Hall Hver Hnever.
  destruct (closeLoop_verified_prefix pre (s :: post) w (_files tx) Hall Hver)
    as (w1 & [Hfate _] & Hrun).
  assert (closeLoop (s :: post) w1 (_files tx ++ map file_of_stream pre)
          = (Pending, w1, _files tx ++ map file_of_stream pre)) as Hwait.
  { specialize (Hfate (se_stream s)). rewrite Hnever in Hfate.
    unfold final_bytes in Hfate. simpl.
    destruct (stream_closed w1 (se_stream s)); [discriminate |].
    unfold await_close. now rewrite Hfate. }
  assert (finalize w tx
          = (Pending, w1, set_files (_files tx ++ map file_of_stream pre) tx)) as Hfin.
  { unfold finalize, _closeAllStreams. cbv zeta. rewrite Hsplit.
    assert (Nat.eqb (List.length (pre ++ s :: post)) 0 = false) as ->.
    { rewrite length_app. simpl. apply Nat.eqb_neq. lia. }
    now rewrite Hrun, Hwait. }
  exists w1, (set_files (_files tx ++ map file_of_stream pre) tx).
  split; [exact Hfin |].
  split; [unfold endPutTransaction; now rewrite Hfin |].
  split; [reflexivity |].
  pose proof (closeLoop_logs (pre ++ s :: post) w (_files tx)) as Hlogs.
  now rewrite Hrun, Hwait in Hlogs.
Qed.

Lemma commit_waits_for_unended_stream_witness :
  exists w' tx',
    finalize store_i_then_stalled transaction_i_then_stalled = (Pending, w', tx')
    /\ endPutTransaction expire_after_one_day store_i_then_stalled
         transaction_i_then_stalled = (Pending, w', tx')
    /\ files tx'
       = files transaction_i_then_stalled
         ++ map file_of_stream
              [mkStreamEntry "/cache/7c9e6679-7425-40de-944b-e07fc1f90ae7" "i"
                 (VNumber (Finite 5)) 0]
    /\ logs w' = logs store_i_then_stalled.
Proof.
  apply (commit_waits_for_unended_stream expire_after_one_day
           store_i_then_stalled transaction_i_then_stalled
           [mkStreamEntry "/cache/7c9e6679-7425-40de-944b-e07fc1f90ae7" "i"
              (VNumber (Finite 5)) 0]
           (mkStreamEntry "/cache/1b4e28ba-2fa1-11d2-883f-0016d3cca427" "a"
              (VNumber (Finite 5)) 1) []).
  - vm_compute. reflexivity.
  - apply forallb_Forall_true. vm_compute. reflexivity.
  - apply forallb_Forall_true. vm_compute. reflexivity.
  - vm_compute. reflexivity.
Defined.

(** ** Cleanup and reads *)

(** After a cleanup by age, [getFileInfo] fails with not-found for the
    entries whose file had expired and answers as before for every other
    entry. *)
Theorem cleanup_by_age_then_getFileInfo
    (G : Buffer -> string) (self : CacheFS) (w : World) :
  let d := moment_duration (expireTimeSpan (cleanupOptions self)) in
  let root := _cachePath self in
  let min := clock w - asMilliseconds d in
  isValid d = true -> asMilliseconds d <> 0 ->
  budget_off (maxCacheSize (cleanupOptions self)) ->
  is_Some (fs w !! root) ->
  (forall p st, fs w !! p = Some st -> expired_entry root min p st = true ->
                p ∉ locked w) ->
  exists w',
    cleanup self false w = (Resolved tt, w')
    /\ forall type guid hash,
         getFileInfo G self type guid hash w'
         = match fs w !! _calcFilepath G root type guid hash with
           | Some st =>
               if expired_entry root min (_calcFilepath G root type guid hash) st
               then Rejected (SystemError "ENOENT" (_calcFilepath G root type guid hash))
               else getFileInfo G self type guid hash w
           | None => getFileInfo G self type guid hash w
           end.
Proof.
  intros d root min Hvalid Hms Hoff Hroot Hunlocked.
  destruct (cleanup_by_age_run self w Hvalid Hms Hoff Hroot Hunlocked)
    as (w' & _ & _ & _ & Hrun & _ & _ & _ & _ & _ & Hfs & _).
  subst min root d. exists w'. split; [exact Hrun |].
  intros type guid hash. unfold getFileInfo, fs_stat. rewrite Hfs.
  destruct (fs w !! _calcFilepath G (_cachePath self) type guid hash) as [st|];
    [| reflexivity].
  now destruct (expired_entry _ _ _ st).
Qed.

Lemma cleanup_by_age_then_getFileInfo_witness :
  exists w',
    cleanup expire_after_one_day false expiry_store = (Resolved tt, w')
    /\ forall type guid hash,
         getFileInfo hexGUID expire_after_one_day type guid hash w'
         = match fs expiry_store !! _calcFilepath hexGUID "/cache" type guid hash with
           | Some st =>
               if expired_entry "/cache" (clock expiry_store - day)
                    (_calcFilepath hexGUID "/cache" type guid hash) st
               then Rejected (SystemError "ENOENT"
                                (_calcFilepath hexGUID "/cache" type guid hash))
               else getFileInfo hexGUID expire_after_one_day type guid hash expiry_store
           | None => getFileInfo hexGUID expire_after_one_day type guid hash expiry_store
           end.
Proof.
  apply (cleanup_by_age_then_getFileInfo hexGUID expire_after_one_day expiry_store).
  - reflexivity.
  - discriminate.
  - exact I.
  - exists directory. vm_compute. reflexivity.
  - intros p st _ _. apply not_elem_of_empty.
Defined.

(** ** Cleanup with a negative expiry span *)

Lemma filter_ext_items (f g : Item -> bool) (items : list Item) :
  (forall item, In item items -> f item = g item) ->
  List.filter f items = List.filter g items.
Proof.
  induction items as [|item items IH]; simpl; intros H; [reflexivity |].
  rewrite (H item (or_introl eq_refl)), IH; [reflexivity |].
  intros x Hx. apply H. now right.
Qed.

(** The check on the expiry span refuses zero and nothing else: a valid
    negative span goes through, the limit then lies in the future, and the
    walk marks every file last read up to now. The totals of such a run
    report as many deletions as files and as many bytes to delete as the
    cache holds. *)
Theorem cleanup_negative_span_marks_every_file
    (self : CacheFS) (w : World) (items : list Item) :
  let d := moment_duration (expireTimeSpan (cleanupOptions self)) in
  isValid d = true -> asMilliseconds d < 0 ->
  klaw (_cachePath self) w = inr items ->
  (forall item, In item items -> stats_atime (item_stats item) <= clock w) ->
  deleteItems (fst (walk (clock w - asMilliseconds d) items w))
    = map item_path (List.filter is_file items)
  /\ exists w' total,
       cleanup self true w = (Resolved tt, w')
       /\ last (events w') = Some (cleanup_delete_finish total)
       /\ pd_deleteCount total = pd_cacheCount total
       /\ pd_deleteSize total = pd_cacheSize total
       /\ pd_cacheCount total = List.length (List.filter is_file items).
Proof.
  intros d Hvalid Hneg Hklaw Hpast.
  assert (List.filter (expired_file (clock w - asMilliseconds d)) items
          = List.filter is_file items) as Hall.
  { apply filter_ext_items. intros item Hitem. unfold expired_file.
    specialize (Hpast item Hitem).
    destruct (stats_atime (item_stats item) <? clock w - asMilliseconds d) eqn:Hlt;
      [apply andb_true_r | apply Z.ltb_ge in Hlt; lia]. }
  pose proof (walk_from (clock w - asMilliseconds d) items cleanup_init w) as Hst.
  rewrite Hall in Hst. simpl in Hst.
  split; [unfold walk; now rewrite Hst |].
  unfold cleanup. fold d. rewrite Hvalid. simpl.
  destruct (asMilliseconds d =? 0) eqn:Hz; [apply Z.eqb_eq in Hz; lia |].
  rewrite Hklaw. unfold walk.
  destruct (fold_left _ items (cleanup_init, w)) as [st w1]. simpl in Hst. subst st.
  rewrite cleanup_finalize_dry.
  assert (forall max w0,
             finalize_search max
               (mkCleanupState (List.filter is_file items)
                  (map item_path (List.filter is_file items))
                  (0 + total_size (List.filter is_file items))
                  (0 + total_size (List.filter is_file items))) w0
             = (mkCleanupState (List.filter is_file items)
                  (map item_path (List.filter is_file items))
                  (0 + total_size (List.filter is_file items))
                  (0 + total_size (List.filter is_file items)),
                emit (cleanup_search_finish (progressData
                  (mkCleanupState (List.filter is_file items)
                     (map item_path (List.filter is_file items))
                     (0 + total_size (List.filter is_file items))
                     (0 + total_size (List.filter is_file items))))) w0)) as Hsearch.
  { intros max w0. unfold finalize_search, over_budget. simpl.
    destruct max as [m|]; [| reflexivity].
    rewrite Z.sub_diag.
    destruct (0 <? m) eqn:Hm; simpl; [| reflexivity].
    apply Z.ltb_lt in Hm.
    destruct (m <? 0) eqn:Hm0; [apply Z.ltb_lt in Hm0; lia | reflexivity]. }
  rewrite Hsearch. simpl.
  eexists _, _. split; [reflexivity |]. simpl.
  split; [apply last_snoc |]. simpl.
  rewrite length_map. repeat split.
Qed.

Lemma cleanup_negative_span_marks_every_file_witness :
  deleteItems (fst (walk (clock expiry_store - - day)
                      [file_item "/cache/cd/new.bin" 9 (10 * day - 10 * minute);
                       file_item "/cache/ab/old.bin" 7 (8 * day);
                       mkItem "/cache" directory] expiry_store))
    = map item_path (List.filter is_file
                       [file_item "/cache/cd/new.bin" 9 (10 * day - 10 * minute);
                        file_item "/cache/ab/old.bin" 7 (8 * day);
                        mkItem "/cache" directory])
  /\ exists w' total,
       cleanup expire_after_minus_one_day true expiry_store = (Resolved tt, w')
       /\ last (events w') = Some (cleanup_delete_finish total)
       /\ pd_deleteCount total = pd_cacheCount total
       /\ pd_deleteSize total = pd_cacheSize total
       /\ pd_cacheCount total
          = List.length (List.filter is_file
                           [file_item "/cache/cd/new.bin" 9 (10 * day - 10 * minute);
                            file_item "/cache/ab/old.bin" 7 (8 * day);
                            mkItem "/cache" directory]).
Proof.
  apply (cleanup_negative_span_marks_every_file expire_after_minus_one_day expiry_store).
  - reflexivity.
  - reflexivity.
  - vm_compute. reflexivity.
  - intros item [<- | [<- | [<- | []]]]; vm_compute; discriminate.
Defined.

(** ** C6: what a run marks by age *)

Lemma NoDup_map_In_inj {A B : Type} (f : A -> B) (l : list A) (x y : A) :
  NoDup (map f l) -> In x l -> In y l -> f x = f y -> x = y.
Proof.
  induction l as [|a l IH]; simpl; intros Hnd Hx Hy Heq; [contradiction |].
  apply NoDup_cons in Hnd as [Ha Hnd].
  destruct Hx as [-> | Hx], Hy as [-> | Hy]; auto.
  - exfalso. apply Ha. rewrite Heq. apply list_elem_of_In. now apply in_map.
  - exfalso. apply Ha. rewrite <- Heq. apply list_elem_of_In. now apply in_map.
Qed.

Lemma klaw_root (root : string) (w : World) (items : list Item) :
  klaw root w = inr items -> is_Some (fs w !! root).
Proof. unfold klaw. destruct (fs w !! root); [eauto | discriminate]. Qed.

(** C6. A cleanup run with a valid, non-zero expiry span walks the items
    [klaw] hands it with the limit now minus that span: an item is marked by
    the walk if and only if it is a file (not a directory) last read before
    the limit, and the sizes of the marked files are added up. A dry run
    resolves, leaves every file in place and ends with the totals of what
    was marked; with the size pass off these count the files of the walk
    and, as deletions, exactly the expired ones. A real run with the size
    pass off and no expired file locked unlinks the expired files and no
    other. With files last read two days and ten minutes ago and an expiry
    of one day, a real run unlinks the first only, a dry run unlinks nothing
    and reports one deletion. *)
Theorem cleanup_marks_expired_files (self : CacheFS) (w : World) (items : list Item) :
  let d := moment_duration (expireTimeSpan (cleanupOptions self)) in
  let max := maxCacheSize (cleanupOptions self) in
  let min := clock w - asMilliseconds d in
  isValid d = true -> asMilliseconds d <> 0 ->
  klaw (_cachePath self) w = inr items ->
  (forall dryRun,
      cleanup self dryRun w
      = cleanup_finalize dryRun max (fst (walk min items w)) (snd (walk min items w)))
  /\ (forall item, In item items ->
        (In (item_path item) (deleteItems (fst (walk min items w)))
         <-> stats_isDirectory (item_stats item) = false
             /\ stats_atime (item_stats item) < clock w - asMilliseconds d))
  /\ deleteSize (fst (walk min items w))
     = total_size (List.filter (expired_file min) items)
  /\ (exists wd,
        cleanup self true w = (Resolved tt, wd)
        /\ fs wd = fs w
        /\ last (events wd)
           = Some (cleanup_delete_finish (progressData (marked min max items w)))
        /\ (budget_off max ->
            progressData (marked min max items w)
            = mkProgressData
                (List.length (List.filter is_file items))
                (total_size (List.filter is_file items))
                (List.length (List.filter (expired_file min) items))
                (total_size (List.filter (expired_file min) items))))
  /\ (budget_off max ->
      (forall item, In item items -> expired_file min item = true ->
                    item_path item ∉ locked w) ->
      exists wr,
        cleanup self false w = (Resolved tt, wr)
        /\ forall item, In item items ->
             fs wr !! item_path item
             = if expired_file min item then None else Some (item_stats item))
  /\ (fst (cleanup expire_after_one_day false expiry_store) = Resolved tt
      /\ fs (snd (cleanup expire_after_one_day false expiry_store))
         = delete "/cache/ab/old.bin" (fs expiry_store)
      /\ fs (snd (cleanup expire_after_one_day false expiry_store)) !! "/cache/cd/new.bin"
         = Some (mkStats 9 (10 * day - 10 * minute) false))
  /\ (fst (cleanup expire_after_one_day true expiry_store) = Resolved tt
      /\ fs (snd (cleanup expire_after_one_day true expiry_store)) = fs expiry_store
      /\ last (events (snd (cleanup expire_after_one_day true expiry_store)))
         = Some (cleanup_delete_finish (mkProgressData 2 16 1 7))).
Proof.
  intros d max min Hvalid Hms Hklaw.
  assert (forall dryRun,
             cleanup self dryRun w
             = cleanup_finalize dryRun max (fst (walk min items w))
                 (snd (walk min items w))) as Hrun.
  { intros dryRun. unfold cleanup. fold d. rewrite Hvalid. simpl.
    destruct (asMilliseconds d =? 0) eqn:Hz; [apply Z.eqb_eq in Hz; contradiction |].
    rewrite Hklaw. fold min max. now destruct (walk min items w). }
  pose proof (walk_from min items cleanup_init w) as Hst.
  pose proof (walk_fs min items cleanup_init w) as Hfs.
  fold (walk min items w) in Hst, Hfs. simpl in Hst.
  split; [exact Hrun |]. split; [| split; [| split; [| split; [| split]]]].
  - intros item Hitem. rewrite Hst. simpl. fold min.
    assert (expired_file min item = true
            <-> stats_isDirectory (item_stats item) = false
                /\ stats_atime (item_stats item) < min) as Hexp.
    { unfold expired_file, is_file.
      now rewrite andb_true_iff, negb_true_iff, Z.ltb_lt. }
    rewrite <- Hexp, in_map_iff. split.
    + intros (item' & Hpath & Hin). apply filter_In in Hin as [Hin Hexp'].
      now rewrite <- (NoDup_map_In_inj item_path items item' item
                        (klaw_NoDup _ _ _ Hklaw) Hin Hitem Hpath).
    + intros He. exists item. split; [reflexivity |]. now apply filter_In.
  - rewrite Hst. simpl. lia.
  - exists (snd (cleanup self true w)).
    rewrite (Hrun true), cleanup_finalize_dry. simpl.
    split; [reflexivity |].
    split; [now rewrite finalize_search_fs |].
    assert (marked min max items w
            = fst (finalize_search max (fst (walk min items w))
                     (snd (walk min items w)))) as Hmarked.
    { unfold marked. now destruct (walk min items w). }
    split; [rewrite Hmarked; apply last_snoc |].
    intros Hoff. rewrite Hmarked, (finalize_search_off _ _ _ Hoff), Hst.
    unfold progressData. simpl. rewrite length_map. f_equal; lia.
  - intros Hoff Hunlocked. subst min max d.
    destruct (cleanup_by_age_run self w Hvalid Hms Hoff (klaw_root _ _ _ Hklaw))
      as (wr & _ & _ & _ & Hreal & _ & _ & _ & _ & _ & Hdisk & _).
    { intros p st Hlook Hexp.
      assert (under (_cachePath self) p = true) as Hunder.
      { unfold expired_entry in Hexp. apply andb_prop in Hexp as [Hexp _].
        now apply andb_prop in Hexp as [Hexp _]. }
      apply (Hunlocked (mkItem p st)).
      - eapply klaw_visits; eauto.
      - now rewrite <- (expired_entry_item (_cachePath self)) by exact Hunder. }
    exists wr. split; [exact Hreal |].
    intros item Hitem.
    destruct (klaw_sound _ _ _ _ Hklaw Hitem) as [Hlook Hunder].
    rewrite Hdisk, Hlook. now rewrite (expired_entry_item _ _ item Hunder).
  - repeat split; vm_compute; reflexivity.
  - repeat split; vm_compute; reflexivity.
Qed.

Lemma cleanup_marks_expired_files_witness :
  (exists wd,
     cleanup expire_after_one_day true expiry_store = (Resolved tt, wd)
     /\ fs wd = fs expiry_store
     /\ last (events wd) = Some (cleanup_delete_finish (mkProgressData 2 16 1 7)))
  /\ (exists wr,
        cleanup expire_after_one_day false expiry_store = (Resolved tt, wr)
        /\ fs wr !! "/cache/ab/old.bin" = None
        /\ fs wr !! "/cache/cd/new.bin"
           = Some (mkStats 9 (10 * day - 10 * minute) false)).
Proof.
  destruct (cleanup_marks_expired_files expire_after_one_day expiry_store
              [file_item "/cache/cd/new.bin" 9 (10 * day - 10 * minute);
               file_item "/cache/ab/old.bin" 7 (8 * day);
               mkItem "/cache" directory])
    as (_ & _ & _ & (wd & Hdry & Hfsd & Hlast & Htotals) & Hreal & _).
  - reflexivity.
  - discriminate.
  - vm_compute. reflexivity.
  - split.
    + exists wd. split; [exact Hdry |]. split; [exact Hfsd |].
      rewrite (Htotals I) in Hlast. exact Hlast.
    + destruct (Hreal I) as (wr & Hrun & Hdisk).
      { intros item Hitem _. apply not_elem_of_empty. }
      exists wr. split; [exact Hrun |]. split.
      * apply (Hdisk (file_item "/cache/ab/old.bin" 7 (8 * day))).
        right. left. reflexivity.
      * apply (Hdisk (file_item "/cache/cd/new.bin" 9 (10 * day - 10 * minute))).
        left. reflexivity.
Defined.

(** ** Kinds the path deriver was not written for *)

Lemma ext_table_undefined (type : string) :
  recognized type = false -> inherited type = false ->
  ext_table type = ext_undefined.
Proof.
  unfold recognized, inherited, ext_table.
  destruct (String.eqb type "a"), (String.eqb type "i"), (String.eqb type "r");
    try discriminate.
  destruct (String.eqb type "constructor"); [discriminate |].
  destruct (existsb (String.eqb type) Object_prototype_functions); [discriminate |].
  now destruct (String.eqb type "__proto__").
Qed.

Lemma ext_table_inherited (type : string) :
  inherited type = true ->
  (exists name, ext_table type = ext_function name) \/ ext_table type = ext_object.
Proof.
  unfold inherited, ext_table. intros H.
  destruct (String.eqb type "i") eqn:Hi;
    [apply String.eqb_eq in Hi; subst type; discriminate |].
  destruct (String.eqb type "a") eqn:Ha;
    [apply String.eqb_eq in Ha; subst type; discriminate |].
  destruct (String.eqb type "r") eqn:Hr;
    [apply String.eqb_eq in Hr; subst type; discriminate |].
  destruct (String.eqb type "constructor"); [eauto |].
  destruct (existsb (String.eqb type) Object_prototype_functions); [eauto |].
  destruct (String.eqb type "__proto__"); [now right | discriminate].
Qed.

(** A kind that is not 'a', 'i' or 'r' does not fail the path deriver. When
    it names nothing an object inherits from [Object.prototype], the lookup
    in the extension table gives [undefined], the file name ends in
    ".undefined", and all such kinds share one path per entry, so
    [getFileInfo] called with any of them looks at the same file. When it
    names an inherited member, 'toString' say, the lookup finds that member
    and the file name ends in its text: such a kind has a path of its
    own. *)
Theorem unrecognized_kinds_share_one_path
    (G : Buffer -> string) (cachePath t1 t2 : string) (guid hash : Buffer) :
  recognized t1 = false -> inherited t1 = false ->
  recognized t2 = false -> inherited t2 = false ->
  _calcFilename G t1 guid hash = G guid +:+ "-" +:+ toString_hex hash +:+ ".undefined"
  /\ _calcFilepath G cachePath t1 guid hash = _calcFilepath G cachePath t2 guid hash
  /\ (forall self w,
        getFileInfo G self t1 guid hash w = getFileInfo G self t2 guid hash w)
  /\ (forall t3, inherited t3 = true ->
        _calcFilename G t3 guid hash <> _calcFilename G t1 guid hash)
  /\ _calcFilename G "toString" guid hash
     = G guid +:+ "-" +:+ toString_hex hash +:+ ".function toString() { [native code] }".
Proof.
  intros Hr1 Hi1 Hr2 Hi2.
  assert (_calcFilename G t1 guid hash = _calcFilename G t2 guid hash) as Hname.
  { unfold _calcFilename.
    now rewrite (ext_table_undefined t1 Hr1 Hi1), (ext_table_undefined t2 Hr2 Hi2). }
  assert (_calcFilepath G cachePath t1 guid hash = _calcFilepath G cachePath t2 guid hash)
    as Hpath.
  { unfold _calcFilepath. now rewrite Hname. }
  split; [| split; [exact Hpath | split; [| split]]].
  - unfold _calcFilename. now rewrite (ext_table_undefined t1 Hr1 Hi1).
  - intros self w. unfold getFileInfo.
    unfold _calcFilepath. now rewrite Hname.
  - intros t3 Hi3 Heq. unfold _calcFilename in Heq.
    rewrite (ext_table_undefined t1 Hr1 Hi1) in Heq.
    do 4 apply string_app_inv_head in Heq.
    destruct (ext_table_inherited t3 Hi3) as [[name Hn] | Hn]; rewrite Hn in Heq;
      simpl in Heq; rewrite ?string_app_cons in Heq; discriminate Heq.
  - reflexivity.
Qed.

Lemma unrecognized_kinds_share_one_path_witness :
  _calcFilename hexGUID "info" example_guid example_hash
  = hexGUID example_guid +:+ "-" +:+ toString_hex example_hash +:+ ".undefined"
  /\ _calcFilepath hexGUID "/cache" "info" example_guid example_hash
     = _calcFilepath hexGUID "/cache" "data" example_guid example_hash
  /\ (forall self w,
        getFileInfo hexGUID self "info" example_guid example_hash w
        = getFileInfo hexGUID self "data" example_guid example_hash w)
  /\ (forall t3, inherited t3 = true ->
        _calcFilename hexGUID t3 example_guid example_hash
        <> _calcFilename hexGUID "info" example_guid example_hash)
  /\ _calcFilename hexGUID "toString" example_guid example_hash
     = hexGUID example_guid +:+ "-" +:+ toString_hex example_hash
       +:+ ".function toString() { [native code] }".
Proof.
  apply (unrecognized_kinds_share_one_path hexGUID "/cache" "info" "data"
           example_guid example_hash); reflexivity.
Defined.

(** ** Commit: the moves left in flight *)

Lemma delete_app_lt {A : Type} (i : nat) (l1 l2 : list A) :
  (i < List.length l1)%nat -> delete i (l1 ++ l2) = delete i l1 ++ l2.
Proof.
  revert i. induction l1 as [|x l1 IH]; intros [|i] H; simpl in *; try lia.
  - reflexivity.
  - f_equal. apply IH. lia.
Qed.

Lemma delete_app_gt {A : Type} (i : nat) (l1 : list A) (x : A) (l2 : list A) :
  (List.length l1 < i)%nat ->
  delete i (l1 ++ x :: l2) = l1 ++ x :: delete (i - S (List.length l1))%nat l2.
Proof.
  revert i. induction l1 as [|y l1 IH]; intros [|i] H; simpl in *; try lia.
  - now rewrite Nat.sub_0_r.
  - f_equal. apply IH. lia.
Qed.

Lemma delete_out_of_range {A : Type} (i : nat) (l : list A) :
  l !! i = None -> delete i l = l.
Proof.
  revert i. induction l as [|x l IH]; intros [|i] H; simpl in *;
    try reflexivity; try discriminate.
  f_equal. now apply IH.
Qed.

Lemma apartb_apart (G : Buffer -> string) (t t' : Task) :
  apartb G t t' = true -> apart G t t'.
Proof.
  unfold apartb, apart. rewrite !andb_true_iff, !negb_true_iff, !String.eqb_neq.
  tauto.
Qed.

Lemma close_stream_frame (h : nat) (n : Z) (w : World) :
  locked (close_stream h n w) = locked w
  /\ inflight (close_stream h n w) = inflight w.
Proof. unfold close_stream. now destruct (heap w !! h). Qed.

Lemma closeLoop_frame (streams : list StreamEntry) (w : World) (acc : list FileEntry) :
  locked (snd (fst (closeLoop streams w acc))) = locked w
  /\ inflight (snd (fst (closeLoop streams w acc))) = inflight w.
Proof.
  revert w acc. induction streams as [|file rest IH]; intros w acc; simpl;
    [now split |].
  unfold processClosedStream, await_close.
  destruct (stream_closed w (se_stream file)).
  - destruct (strict_eq_bytes _ _); [apply IH | now split].
  - destruct (producers w (se_stream file)) as [n|]; [| now split].
    destruct (close_stream_frame (se_stream file) n w) as [Hl Hi].
    destruct (strict_eq_bytes _ _); simpl; [| now split].
    match goal with
    | |- context [closeLoop rest ?w1 ?acc1] => destruct (IH w1 acc1) as [H1 H2]
    end.
    now rewrite H1, H2.
Qed.

(** [finalize] writes nothing to the log, starts nothing and changes no
    lock. *)
Lemma finalize_frame (w : World) (tx : PutTransactionFS) :
  logs (snd (fst (finalize w tx))) = logs w
  /\ locked (snd (fst (finalize w tx))) = locked w
  /\ inflight (snd (fst (finalize w tx))) = inflight w.
Proof.
  unfold finalize, _closeAllStreams. cbv zeta.
  destruct (Nat.eqb _ 0); [now repeat split |].
  pose proof (closeLoop_logs (Object_values (_streams tx)) w (_files tx)) as Hlogs.
  destruct (closeLoop_frame (Object_values (_streams tx)) w (_files tx)) as [Hl Hi].
  destruct (closeLoop _ w (_files tx)) as [[r w1] acc]. simpl in *.
  now destruct r.
Qed.

(** Calling [moveFile] on the files of a transaction leaves one call in
    flight per file, in the order of the files, and does nothing else. *)
Lemma moves_spawned (self : CacheFS) (tx : PutTransactionFS) (l : list FileEntry)
    (w : World) :
  inflight (fold_left (moveFile self tx) l w) = inflight w ++ map (task_of self tx) l
  /\ fs (fold_left (moveFile self tx) l w) = fs w
  /\ logs (fold_left (moveFile self tx) l w) = logs w
  /\ locked (fold_left (moveFile self tx) l w) = locked w
  /\ heap (fold_left (moveFile self tx) l w) = heap w
  /\ events (fold_left (moveFile self tx) l w) = events w.
Proof.
  revert w. induction l as [|f l IH]; intros w; simpl.
  - now rewrite app_nil_r.
  - destruct (IH (moveFile self tx w f)) as (-> & -> & -> & -> & -> & ->).
    simpl. now rewrite <- app_assoc.
Qed.

Section Commit.

Variable G : Buffer -> string.

Lemma settle_eq (t : Task) (w : World) :
  settle G t w
  = match fs_move (task_sourcePath t) (task_filePath G t) w with
    | (Some err, w') => log (LOG_ERR err) w'
    | (None, w') => log (LOG_TEST_added (task_size t) (task_filePath G t)) w'
    end.
Proof.
  unfold settle, _addFileToCache, task_filePath.
  now destruct (fs_move _ _ w) as [[err|] w'].
Qed.

(** A call that ends touches its own two paths and writes one line. *)
Lemma settle_frame (t : Task) (w : World) :
  locked (settle G t w) = locked w
  /\ inflight (settle G t w) = inflight w
  /\ (forall p, p <> task_sourcePath t -> p <> task_filePath G t ->
        fs (settle G t w) !! p = fs w !! p)
  /\ exists line,
       logs (settle G t w) = logs w ++ [line]
       /\ ((exists err, line = LOG_ERR err)
           \/ line = LOG_TEST_added (task_size t) (task_filePath G t)).
Proof.
  rewrite settle_eq. unfold fs_move.
  destruct (fs w !! task_sourcePath t) as [st|].
  - destruct (decide (task_filePath G t ∈ locked w)).
    + simpl. do 3 (split; [reflexivity |]). eexists. split; [reflexivity | eauto].
    + destruct (decide (task_sourcePath t ∈ locked w)); simpl.
      * do 2 (split; [reflexivity |]). split.
        -- intros p _ Hd. now rewrite lookup_insert_ne.
        -- eexists. split; [reflexivity | eauto].
      * do 2 (split; [reflexivity |]). split.
        -- intros p Hs Hd. now rewrite lookup_insert_ne, lookup_delete_ne.
        -- eexists. split; [reflexivity | eauto].
  - simpl. do 3 (split; [reflexivity |]). eexists. split; [reflexivity | eauto].
Qed.

(** What the call that ends does to its own paths and which line it
    writes. *)
Lemma settle_outcome (t : Task) (w : World) :
  match fst (fs_move (task_sourcePath t) (task_filePath G t) w) with
  | Some err =>
      logs (settle G t w) = logs w ++ [LOG_ERR err]
      /\ fs (settle G t w) !! task_sourcePath t = fs w !! task_sourcePath t
  | None =>
      logs (settle G t w) = logs w ++ [LOG_TEST_added (task_size t) (task_filePath G t)]
      /\ fs (settle G t w) !! task_filePath G t = fs w !! task_sourcePath t
      /\ (task_sourcePath t <> task_filePath G t ->
          fs (settle G t w) !! task_sourcePath t = None)
  end.
Proof.
  rewrite settle_eq. unfold fs_move.
  destruct (fs w !! task_sourcePath t) as [st|] eqn:Hsrc; simpl; [| now split].
  destruct (decide (task_filePath G t ∈ locked w)); simpl; [now split |].
  destruct (decide (task_sourcePath t ∈ locked w)); simpl.
  - split; [reflexivity |].
    destruct (decide (task_filePath G t = task_sourcePath t)) as [Heq | Hne].
    + rewrite Heq. now rewrite lookup_insert_eq.
    + now rewrite lookup_insert_ne.
  - split; [reflexivity |]. split; [now rewrite lookup_insert_eq |].
    intros Hne. rewrite lookup_insert_ne by congruence. apply lookup_delete_eq.
Qed.

(** Whether a move fails, and how, depends on its source and on the locks. *)
Lemma fs_move_error_stable (src dest : string) (w w' : World) :
  fs w' !! src = fs w !! src -> locked w' = locked w ->
  fst (fs_move src dest w') = fst (fs_move src dest w).
Proof.
  unfold fs_move. intros -> ->.
  destruct (fs w !! src); [| reflexivity].
  destruct (decide (dest ∈ locked w)); [reflexivity |].
  now destruct (decide (src ∈ locked w)).
Qed.

Lemma fs_move_succeeds (src dest : string) (w : World) (st : Stats) :
  fs w !! src = Some st -> src ∉ locked w -> dest ∉ locked w ->
  fst (fs_move src dest w) = None.
Proof.
  unfold fs_move. intros -> Hs Hd.
  destruct (decide (dest ∈ locked w)); [contradiction |].
  destruct (decide (src ∈ locked w)); [contradiction | reflexivity].
Qed.

Lemma fs_move_fails (src dest : string) (w : World) :
  fs w !! src = None \/ src ∈ locked w \/ dest ∈ locked w ->
  exists err, fst (fs_move src dest w) = Some err.
Proof.
  unfold fs_move. intros H.
  destruct (fs w !! src); [| eauto].
  destruct (decide (dest ∈ locked w)); [eauto |].
  destruct (decide (src ∈ locked w)); [eauto |].
  destruct H as [H | [H | H]]; [discriminate | contradiction | contradiction].
Qed.

Lemma event_loop_step_inflight (w : World) (i : nat) :
  inflight (event_loop_step G w i) = delete i (inflight w).
Proof.
  unfold event_loop_step. destruct (inflight w !! i) as [t|] eqn:Hi.
  - destruct (settle_frame t (set_inflight (delete i) w)) as (_ & -> & _).
    reflexivity.
  - symmetry. now apply delete_out_of_range.
Qed.

Lemma event_loop_inflight (schedule : list nat) (w : World) :
  inflight (event_loop G schedule w)
  = fold_left (fun l i => delete i l) schedule (inflight w).
Proof.
  revert w. induction schedule as [|i schedule IH]; intros w; [reflexivity |].
  change (event_loop G (i :: schedule) w)
    with (event_loop G schedule (event_loop_step G w i)).
  rewrite IH, event_loop_step_inflight. reflexivity.
Qed.

(** Whatever the schedule, the calls that end write one line each, a path
    no call in flight reads or writes is left alone, and no lock changes. *)
Lemma event_loop_frame (schedule : list nat) (w : World) :
  locked (event_loop G schedule w) = locked w
  /\ (forall p,
        Forall (fun t' => task_sourcePath t' <> p /\ task_filePath G t' <> p)
               (inflight w) ->
        fs (event_loop G schedule w) !! p = fs w !! p)
  /\ exists new,
       logs (event_loop G schedule w) = logs w ++ new
       /\ (List.length new + List.length (inflight (event_loop G schedule w))
           = List.length (inflight w))%nat
       /\ Forall (fun line =>
                    (exists err, line = LOG_ERR err)
                    \/ exists t', In t' (inflight w)
                                  /\ line = LOG_TEST_added (task_size t')
                                              (task_filePath G t')) new.
Proof.
  revert w. induction schedule as [|i schedule IH]; intros w.
  - simpl. do 2 (split; [reflexivity |]). exists [].
    rewrite app_nil_r. repeat split. constructor.
  - change (event_loop G (i :: schedule) w)
      with (event_loop G schedule (event_loop_step G w i)).
    destruct (IH (event_loop_step G w i)) as (Hlocked & Hfs & new & Hlogs & Hlen & Hlines).
    rewrite event_loop_step_inflight in Hfs, Hlen, Hlines.
    unfold event_loop_step in Hlocked, Hfs, Hlogs, Hlen |- *.
    destruct (inflight w !! i) as [t|] eqn:Hi.
    + destruct (settle_frame t (set_inflight (delete i) w))
        as (Hl & _ & Hf & line & Hline & Hshape).
      simpl in Hl, Hf, Hline.
      assert (In t (inflight w)) as Ht.
      { apply list_elem_of_In. eapply list_elem_of_lookup_2; eauto. }
      split; [now rewrite Hlocked, Hl |]. split.
      * intros p Hp. rewrite Hfs by now apply Forall_delete.
        rewrite Forall_forall in Hp.
        destruct (Hp t) as [Hs Hd]; [now apply list_elem_of_In |].
        apply Hf; congruence.
      * exists (line :: new). rewrite Hlogs, Hline, <- app_assoc.
        split; [reflexivity |]. split.
        -- rewrite length_delete in Hlen by eauto. simpl.
           apply lookup_lt_Some in Hi. lia.
        -- constructor.
           ++ destruct Hshape as [He | ->]; [now left | right; eauto].
           ++ eapply Forall_impl; [exact Hlines |]. intros l [He | (t' & Ht' & ->)];
                [now left | right]. exists t'. split; [| reflexivity].
              apply list_elem_of_In. eapply list_elem_of_delete_inv.
              apply list_elem_of_In. exact Ht'.
    + rewrite (delete_out_of_range _ _ Hi) in Hfs, Hlen, Hlines.
      split; [exact Hlocked |]. split; [exact Hfs |]. eauto.
Qed.

(** One call in flight whose paths no other call in flight reads or writes:
    once every call has ended, in whatever order, it has written its own
    line, the error when the move fails and the path when it succeeds, and
    the file is where that outcome leaves it. *)
Lemma event_loop_task (schedule : list nat) (w : World)
    (pre : list Task) (t : Task) (post : list Task) :
  inflight w = pre ++ t :: post ->
  Forall (apart G t) (pre ++ post) ->
  inflight (event_loop G schedule w) = [] ->
  exists new,
    logs (event_loop G schedule w) = logs w ++ new
    /\ List.length new = List.length (inflight w)
    /\ match fst (fs_move (task_sourcePath t) (task_filePath G t) w) with
       | Some err =>
           In (LOG_ERR err) new
           /\ (forall size, ~ In (LOG_TEST_added size (task_filePath G t)) new)
           /\ fs (event_loop G schedule w) !! task_sourcePath t
              = fs w !! task_sourcePath t
       | None =>
           In (LOG_TEST_added (task_size t) (task_filePath G t)) new
           /\ fs (event_loop G schedule w) !! task_filePath G t
              = fs w !! task_sourcePath t
           /\ (task_sourcePath t <> task_filePath G t ->
               fs (event_loop G schedule w) !! task_sourcePath t = None)
       end.
Proof.
  revert w pre post. induction schedule as [|i schedule IH];
    intros w pre post Hin Hapart Hdone.
  - simpl in Hdone. rewrite Hin in Hdone. now destruct pre.
  - change (event_loop G (i :: schedule) w)
      with (event_loop G schedule (event_loop_step G w i)) in *.
    assert (forall t', In t' (pre ++ post) ->
              inflight w !! i = Some t' ->
              forall pre' post',
                delete i (inflight w) = pre' ++ t :: post' ->
                Forall (apart G t) (pre' ++ post') ->
                exists new,
                  logs (event_loop G schedule (event_loop_step G w i)) = logs w ++ new
                  /\ List.length new = List.length (inflight w)
                  /\ match fst (fs_move (task_sourcePath t) (task_filePath G t) w) with
                     | Some err =>
                         In (LOG_ERR err) new
                         /\ (forall size,
                               ~ In (LOG_TEST_added size (task_filePath G t)) new)
                         /\ fs (event_loop G schedule (event_loop_step G w i))
                              !! task_sourcePath t
                            = fs w !! task_sourcePath t
                     | None =>
                         In (LOG_TEST_added (task_size t) (task_filePath G t)) new
                         /\ fs (event_loop G schedule (event_loop_step G w i))
                              !! task_filePath G t
                            = fs w !! task_sourcePath t
                         /\ (task_sourcePath t <> task_filePath G t ->
                             fs (event_loop G schedule (event_loop_step G w i))
                               !! task_sourcePath t = None)
                     end) as Hother.
    { intros t' Ht' Hi pre' post' Hsplit Hapart'.
      rewrite Forall_forall in Hapart.
      destruct (Hapart t') as (Hss & Hsd & Hds & Hdd); [now apply list_elem_of_In |].
      assert (event_loop_step G w i = settle G t' (set_inflight (delete i) w)) as Hstep.
      { unfold event_loop_step. now rewrite Hi. }
      destruct (settle_frame t' (set_inflight (delete i) w))
        as (Hl & Hfl & Hf & line & Hline & Hshape).
      simpl in Hl, Hfl, Hf, Hline. rewrite <- Hstep in Hl, Hfl, Hf, Hline.
      destruct (IH (event_loop_step G w i) pre' post') as (new & Hlogs & Hlen & Hout).
      { now rewrite Hfl. }
      { exact Hapart'. }
      { exact Hdone. }
      rewrite (fs_move_error_stable _ _ w (event_loop_step G w i)) in Hout
        by (try apply Hf; congruence).
      rewrite (Hf (task_sourcePath t)) in Hout by congruence.
      exists (line :: new). rewrite Hlogs, Hline, <- app_assoc.
      split; [reflexivity |]. split.
      { simpl. rewrite Hlen, Hfl, length_delete by eauto.
        apply lookup_lt_Some in Hi. lia. }
      destruct (fst (fs_move (task_sourcePath t) (task_filePath G t) w)) as [err|].
      - destruct Hout as (Herr & Hnone & Hsrc).
        split; [now right |]. split; [| exact Hsrc].
        intros size [Heq | Hsize]; [| now apply (Hnone size)].
        destruct Hshape as [[e ->] | ->]; [discriminate |].
        injection Heq as _ Heq. congruence.
      - destruct Hout as (Hadded & Hdst & Hsrc).
        split; [now right |]. now split. }
    destruct (lt_eq_lt_dec i (List.length pre)) as [[Hlt | Heq] | Hgt].
    + destruct (lookup_lt_is_Some_2 pre i Hlt) as [t' Ht'].
      apply (Hother t') with (pre' := delete i pre) (post' := post).
      * apply in_or_app. left. apply list_elem_of_In.
        eapply list_elem_of_lookup_2; eauto.
      * rewrite Hin. now apply lookup_app_l_Some.
      * rewrite Hin. now apply delete_app_lt.
      * apply Forall_app in Hapart as [Hpre Hpost].
        apply Forall_app. split; [now apply Forall_delete | exact Hpost].
    + subst i. clear Hother.
      assert (inflight w !! List.length pre = Some t) as Hi.
      { rewrite Hin. apply list_lookup_middle. reflexivity. }
      assert (event_loop_step G w (List.length pre)
              = settle G t (set_inflight (delete (List.length pre)) w)) as Hstep.
      { unfold event_loop_step. now rewrite Hi. }
      destruct (settle_frame t (set_inflight (delete (List.length pre)) w))
        as (Hl & Hfl & _ & _).
      simpl in Hl, Hfl. rewrite Hin, delete_middle in Hfl.
      pose proof (settle_outcome t (set_inflight (delete (List.length pre)) w)) as Hout.
      rewrite <- Hstep in Hl, Hfl, Hout.
      rewrite (fs_move_error_stable _ _ w (set_inflight (delete (List.length pre)) w))
        in Hout by reflexivity.
      change (fs (set_inflight (delete (List.length pre)) w)) with (fs w) in Hout.
      change (logs (set_inflight (delete (List.length pre)) w)) with (logs w) in Hout.
      destruct (event_loop_frame schedule (event_loop_step G w (List.length pre)))
        as (_ & Hfs & new & Hlogs & Hlen & Hlines).
      rewrite Hdone, Hfl in Hlen. simpl in Hlen. rewrite Hfl in Hlines, Hfs.
      assert (forall size, ~ In (LOG_TEST_added size (task_filePath G t)) new) as Hnone.
      { intros size Hsize. rewrite Forall_forall in Hlines.
        apply list_elem_of_In, Hlines in Hsize as [[e He] | (t' & Ht' & Heq)];
          [discriminate |].
        injection Heq as _ Heq.
        rewrite Forall_forall in Hapart.
        destruct (Hapart t') as (_ & _ & _ & Hdd); [now apply list_elem_of_In |].
        congruence. }
      assert (fs (event_loop G schedule (event_loop_step G w (List.length pre)))
                !! task_sourcePath t
              = fs (event_loop_step G w (List.length pre)) !! task_sourcePath t) as Hsrc.
      { apply Hfs. eapply Forall_impl; [exact Hapart |].
        intros t' (Hss & _ & Hds & _). now split. }
      assert (fs (event_loop G schedule (event_loop_step G w (List.length pre)))
                !! task_filePath G t
              = fs (event_loop_step G w (List.length pre)) !! task_filePath G t) as Hdst.
      { apply Hfs. eapply Forall_impl; [exact Hapart |].
        intros t' (_ & Hsd & _ & Hdd). now split. }
      destruct (fst (fs_move (task_sourcePath t) (task_filePath G t) w)) as [err|].
      * destruct Hout as (Hline & Hkeep).
        exists (LOG_ERR err :: new). rewrite Hlogs, Hline, <- app_assoc.
        split; [reflexivity |]. split.
        { simpl. rewrite Hin, length_app in *. simpl. lia. }
        split; [now left |]. split; [| now rewrite Hsrc].
        intros size [Heq | Hsize]; [discriminate | now apply (Hnone size)].
      * destruct Hout as (Hline & Hmoved & Hgone).
        exists (LOG_TEST_added (task_size t) (task_filePath G t) :: new).
        rewrite Hlogs, Hline, <- app_assoc.
        split; [reflexivity |]. split.
        { simpl. rewrite Hin, length_app in *. simpl. lia. }
        split; [now left |]. split; [now rewrite Hdst |].
        intros Hne. rewrite Hsrc. now apply Hgone.
    + destruct (inflight w !! i) as [t'|] eqn:Hi.
      * assert (post !! (i - S (List.length pre))%nat = Some t') as Ht'.
        { rewrite Hin in Hi. rewrite lookup_app_r in Hi by lia.
          replace (i - List.length pre)%nat
            with (S (i - S (List.length pre))) in Hi by lia.
          exact Hi. }
        apply (Hother t') with (pre' := pre)
                               (post' := delete (i - S (List.length pre))%nat post).
        -- apply in_or_app. right. apply list_elem_of_In.
           eapply list_elem_of_lookup_2; eauto.
        -- reflexivity.
        -- rewrite Hin. now apply delete_app_gt.
        -- apply Forall_app in Hapart as [Hpre Hpost].
           apply Forall_app. split; [exact Hpre | now apply Forall_delete].
      * assert (event_loop_step G w i = w) as Hstep.
        { unfold event_loop_step. now rewrite Hi. }
        rewrite Hstep in *. now apply (IH w pre post).
Qed.

End Commit.

(** ** C7: commit *)

(** C7. [endPutTransaction] finalizes first: when a recorded stream closes
    with the wrong byte count the commit rejects as [finalize] does, and no
    move is started. When every stream is verified the commit resolves,
    whatever the moves will do, and it resolves before any of them has been
    made: it has called [_addFileToCache] once for each file and awaited
    none of the calls, so the disk is as [finalize] left it and the log is
    as before. The calls end later, in an order the commit does not fix.
    Whatever that order, a call whose two paths no other call in flight
    reads or writes ends on its own: when its temporary file is there and
    neither path is locked, the content is at the canonical path in place
    of whatever was there, [getFileInfo] reports its size, and the path is
    logged; when the move cannot be made, its error is logged as an error,
    nothing is logged as added for that path, and the temporary file is as
    it was. Every call writes one line. *)
Theorem endPutTransaction_moves_independently
    (G : Buffer -> string) (self : CacheFS) (w : World) (tx : PutTransactionFS) :
  Forall (fun s => settles w s = true) (Object_values (_streams tx)) ->
  (Exists (fun s => verified w s = false) (Object_values (_streams tx)) ->
   exists w1 tx1,
     endPutTransaction self w tx = (Rejected FileSizeMismatch, w1, tx1)
     /\ finalize w tx = (Rejected FileSizeMismatch, w1, tx1)
     /\ inflight w1 = inflight w /\ logs w1 = logs w)
  /\ (Forall (fun s => verified w s = true) (Object_values (_streams tx)) ->
      let tx1 :=
        set_files (files tx ++ map file_of_stream (Object_values (_streams tx))) tx in
      exists wf w1,
        finalize w tx = (Resolved tt, wf, tx1)
        /\ endPutTransaction self w tx = (Resolved tt, w1, tx1)
        /\ inflight w1 = inflight w ++ map (task_of self tx1) (files tx1)
        /\ fs w1 = fs wf /\ logs w1 = logs w /\ locked w1 = locked w
        /\ forall schedule pre t post,
             inflight w1 = pre ++ t :: post ->
             Forall (apart G t) (pre ++ post) ->
             inflight (event_loop G schedule w1) = [] ->
             exists new,
               logs (event_loop G schedule w1) = logs w1 ++ new
               /\ List.length new = List.length (inflight w1)
               /\ (forall st,
                     fs w1 !! task_sourcePath t = Some st ->
                     task_sourcePath t ∉ locked w1 ->
                     task_filePath G t ∉ locked w1 ->
                     In (LOG_TEST_added (task_size t) (task_filePath G t)) new
                     /\ fs (event_loop G schedule w1) !! task_filePath G t = Some st
                     /\ getFileInfo G (task_self t) (task_type t) (task_guid t)
                          (task_hash t) (event_loop G schedule w1)
                        = Resolved (stats_size st))
               /\ (fs w1 !! task_sourcePath t = None
                   \/ task_sourcePath t ∈ locked w1
                   \/ task_filePath G t ∈ locked w1 ->
                   exists err,
                     fst (fs_move (task_sourcePath t) (task_filePath G t) w1) = Some err
                     /\ In (LOG_ERR err) new
                     /\ (forall size,
                           ~ In (LOG_TEST_added size (task_filePath G t)) new)
                     /\ fs (event_loop G schedule w1) !! task_sourcePath t
                        = fs w1 !! task_sourcePath t)).
Proof.
  intros Hall. split.
  - intros Hex.
    destruct (finalize_mismatch w tx Hall Hex)
      as (w1 & pre & s & post & _ & _ & _ & _ & Hfin).
    destruct (finalize_frame w tx) as (Hlogs & _ & Hinflight).
    rewrite Hfin in Hlogs, Hinflight. simpl in Hlogs, Hinflight.
    eexists _, _. split; [unfold endPutTransaction; rewrite Hfin; reflexivity |].
    split; [exact Hfin |]. now split.
  - intros Hver tx1.
    destruct (finalize_all_verified w tx Hall Hver) as [wf Hfin].
    destruct (finalize_frame w tx) as (Hlogs & Hlocked & Hinflight).
    rewrite Hfin in Hlogs, Hlocked, Hinflight. simpl in Hlogs, Hlocked, Hinflight.
    destruct (moves_spawned self tx1 (files tx1) wf)
      as (Hin1 & Hfs1 & Hlogs1 & Hlocked1 & _ & _).
    exists wf, (fold_left (moveFile self tx1) (files tx1) wf).
    split; [exact Hfin |].
    split; [unfold endPutTransaction; rewrite Hfin; reflexivity |].
    split; [now rewrite Hin1, Hinflight |].
    split; [exact Hfs1 |]. split; [now rewrite Hlogs1 |].
    split; [now rewrite Hlocked1 |].
    set (w1 := fold_left (moveFile self tx1) (files tx1) wf) in *.
    intros schedule pre t post Hsplit Hapart Hdone.
    destruct (event_loop_task G schedule w1 pre t post Hsplit Hapart Hdone)
      as (new & Hnew & Hlen & Hout).
    exists new. split; [exact Hnew |]. split; [exact Hlen |]. split.
    + intros st Hsrc Hs Hd.
      rewrite (fs_move_succeeds _ _ _ _ Hsrc Hs Hd) in Hout.
      destruct Hout as (Hadded & Hdst & _).
      split; [exact Hadded |]. rewrite Hsrc in Hdst. split; [exact Hdst |].
      unfold getFileInfo, fs_stat. fold (task_filePath G t). now rewrite Hdst.
    + intros Hfail. destruct (fs_move_fails _ (task_filePath G t) _ Hfail) as [err Herr].
      exists err. split; [exact Herr |]. now rewrite Herr in Hout.
Qed.

Lemma endPutTransaction_moves_independently_witness :
  exists w1 tx1 new,
    endPutTransaction expire_after_one_day store_a_stuck transaction_both_open
      = (Resolved tt, w1, tx1)
    /\ logs w1 = logs store_a_stuck
    /\ getFileInfo hexGUID expire_after_one_day "i" example_guid example_hash w1
       = Rejected (SystemError "ENOENT" "/cache/01/01ab-ff.info")
    /\ logs (event_loop hexGUID [1%nat; 0%nat] w1) = logs w1 ++ new
    /\ List.length new = 2%nat
    /\ In (LOG_TEST_added (VNumber (Finite 5)) "/cache/01/01ab-ff.info") new
    /\ In (LOG_ERR (SystemError "EPERM" "/cache/1b4e28ba-2fa1-11d2-883f-0016d3cca427"))
          new
    /\ getFileInfo hexGUID expire_after_one_day "i" example_guid example_hash
         (event_loop hexGUID [1%nat; 0%nat] w1)
       = Resolved 5.
Proof.
  assert (Forall (fun s => settles store_a_stuck s = true)
            (Object_values (_streams transaction_both_open))) as Hall.
  { apply forallb_Forall_true. vm_compute. reflexivity. }
  assert (Forall (fun s => verified store_a_stuck s = true)
            (Object_values (_streams transaction_both_open))) as Hver.
  { apply forallb_Forall_true. vm_compute. reflexivity. }
  destruct (proj2 (endPutTransaction_moves_independently hexGUID expire_after_one_day
                     store_a_stuck transaction_both_open Hall) Hver)
    as (wf & w1 & Hfin & Hrun & Hin & Hfs & Hlogs & Hlocked & Hloop).
  assert (wf = snd (fst (finalize store_a_stuck transaction_both_open))) as Hwf
    by now rewrite Hfin.
  destruct (Hloop [1%nat; 0%nat] []
              (mkTask expire_after_one_day "i" example_guid example_hash
                 "/cache/7c9e6679-7425-40de-944b-e07fc1f90ae7" (VNumber (Finite 5)))
              [mkTask expire_after_one_day "a" example_guid example_hash
                 "/cache/1b4e28ba-2fa1-11d2-883f-0016d3cca427" (VNumber (Finite 5))])
    as (new & Hnew & Hlen & Hok & _).
  { rewrite Hin. vm_compute. reflexivity. }
  { constructor; [| constructor]. apply apartb_apart. vm_compute. reflexivity. }
  { rewrite event_loop_inflight, Hin. vm_compute. reflexivity. }
  destruct (Hok (mkStats 5 (10 * day) false)) as (Hadded & _ & Hinfo).
  { rewrite Hfs, Hwf. vm_compute. reflexivity. }
  { rewrite Hlocked. vm_compute. intros H. discriminate H. }
  { rewrite Hlocked. vm_compute. intros H. discriminate H. }
  destruct (Hloop [1%nat; 0%nat]
              [mkTask expire_after_one_day "i" example_guid example_hash
                 "/cache/7c9e6679-7425-40de-944b-e07fc1f90ae7" (VNumber (Finite 5))]
              (mkTask expire_after_one_day "a" example_guid example_hash
                 "/cache/1b4e28ba-2fa1-11d2-883f-0016d3cca427" (VNumber (Finite 5)))
              [])
    as (new' & Hnew' & _ & _ & Hfail).
  { rewrite Hin. vm_compute. reflexivity. }
  { constructor; [| constructor]. apply apartb_apart. vm_compute. reflexivity. }
  { rewrite event_loop_inflight, Hin. vm_compute. reflexivity. }
  destruct Hfail as (err & Herr & Hlogged & _).
  { right. left. rewrite Hlocked. apply (bool_decide_unpack _). vm_compute. exact I. }
  unfold fs_move in Herr. rewrite Hfs, Hlocked, Hwf in Herr.
  vm_compute in Herr. injection Herr as <-.
  rewrite Hnew in Hnew'. apply app_inv_head in Hnew'. subst new'.
  eexists w1, _, new. split; [exact Hrun |]. split; [exact Hlogs |].
  split.
  { unfold getFileInfo, fs_stat. rewrite Hfs, Hwf. vm_compute. reflexivity. }
  split; [exact Hnew |].
  split; [rewrite Hlen, Hin; vm_compute; reflexivity |].
  split; [exact Hadded |]. split; [exact Hlogged | exact Hinfo].
Defined.

(** ** Round trip: put, commit, stat *)

Lemma fs_ensureFile_inflight file w w' :
  fs_ensureFile file w = inr w' -> inflight w' = inflight w.
Proof.
  unfold fs_ensureFile. destruct (fs w !! file) as [st|].
  - destruct (stats_isDirectory st); [discriminate | now intros [= <-]].
  - destruct (decide (file ∈ locked w)); [discriminate | now intros [= <-]].
Qed.

(** Writing one kind and committing it: on a new transaction, with no other
    call in flight, a stream opened for a recognised kind with declared
    size [n], whose writer puts in [n] bytes, is verified by the commit.
    When the commit resolves the move has been started and not yet made:
    [getFileInfo] answers as before the put, the temporary file is still
    there and nothing is logged. Once the move has ended the file is at its
    canonical path in place of whatever was there, [getFileInfo] reports
    [n], the temporary file is gone and one line is logged. *)
Theorem put_commit_stat_round_trip
    (G : Buffer -> string) (self : CacheFS) (guid hash : Buffer) (type : string)
    (n : Z) (w : World) :
  let file := path_join (_cachePath self) (rng w (draws w)) in
  let dest := _calcFilepath G (_cachePath self) type guid hash in
  recognized type = true -> 0 < n ->
  producers w (List.length (heap w)) = Some n ->
  file ∉ locked w -> dest ∉ locked w -> file <> dest ->
  (forall st, fs w !! file = Some st -> stats_isDirectory st = false) ->
  inflight w = [] ->
  exists h w1 tx1 w2 tx2,
    getWriteStream type (VNumber (Finite (inject_Z n))) w
      (createPutTransaction self guid hash) = (Resolved h, w1, tx1)
    /\ endPutTransaction self w1 tx1 = (Resolved tt, w2, tx2)
    /\ manifest tx2 = [type]
    /\ getFileInfo G self type guid hash w2 = getFileInfo G self type guid hash w
    /\ fs w2 !! file = Some (mkStats n (clock w) false)
    /\ logs w2 = logs w
    /\ forall schedule,
         inflight (event_loop G schedule w2) = [] ->
         getFileInfo G self type guid hash (event_loop G schedule w2) = Resolved n
         /\ fs (event_loop G schedule w2) !! dest = Some (mkStats n (clock w) false)
         /\ fs (event_loop G schedule w2) !! file = None
         /\ logs (event_loop G schedule w2)
            = logs w ++ [LOG_TEST_added (VNumber (Finite (inject_Z n))) dest].
Proof.
  intros file dest Hrec Hn Hprod Hfile_lock Hdest_lock Hne Hdir Hidle.
  set (tx0 := createPutTransaction self guid hash).
  set (size := VNumber (Finite (inject_Z n))).
  assert (~ bad_arguments type size) as Hgood.
  { intros [H | [H | H]].
    - now apply H.
    - simpl in H. apply Qle_bool_iff in H. unfold Qle in H. simpl in H. lia.
    - congruence. }
  destruct (fs_ensureFile_ok file (snd (uuid w)) Hfile_lock Hdir) as [wE HE].
  pose proof (getWriteStream_good_arguments type size w tx0 Hgood) as Hrun.
  change (path_join (tx_cachePath tx0) (fst (uuid w))) with file in Hrun.
  rewrite HE in Hrun. cbv zeta in Hrun.
  destruct (getWriteStream_resolved_shape _ _ _ _ _ _ _ Hrun)
    as (_ & _ & Hheap & Hfs & Hlocked & Hclock & Hprod1 & _ & Hlogs & _).
  change (path_join (tx_cachePath tx0) (rng w (draws w))) with file in Hheap, Hfs.
  apply fs_ensureFile_heap in HE as HheapE. simpl in HheapE.
  apply fs_ensureFile_inflight in HE as HinE. simpl in HinE.
  rewrite HheapE in *.
  set (h := List.length (heap w)) in *.
  set (w1 := snd (fs_createWriteStream file wE)) in *.
  set (entry := mkStreamEntry file type size h) in *.
  set (tx1 := set_streams (object_set type entry (_streams tx0)) tx0) in *.
  assert (inflight w1 = []) as Hidle1 by (unfold w1; simpl; congruence).
  assert (heap w1 !! h = Some (mkWriteStream file 0 false)) as Hh.
  { rewrite Hheap. unfold h. now rewrite lookup_app_r, Nat.sub_diag by lia. }
  set (w1c := close_stream h n w1).
  assert (finalize w1 tx1 = (Resolved tt, w1c, set_files [file_of_stream entry] tx1))
    as Hfin.
  { unfold finalize, _closeAllStreams. simpl.
    unfold stream_closed. rewrite Hh. simpl.
    unfold await_close. rewrite Hprod1, Hprod.
    unfold processClosedStream, stream_bytesWritten. fold w1c.
    assert (heap w1c !! h = Some (mkWriteStream file n true)) as Hhc.
    { unfold w1c, close_stream. rewrite Hh. simpl.
      apply list_lookup_insert_eq. eapply lookup_lt_Some; eauto. }
    change (se_stream entry) with h. change (se_size entry) with size.
    rewrite Hhc. cbn [from_option bytesWritten]. unfold size.
    now rewrite strict_eq_bytes_refl. }
  assert (fs w1c = alter (fun st => mkStats n (stats_atime st) (stats_isDirectory st))
                         file (fs w1)) as Hfsc.
  { unfold w1c, close_stream. now rewrite Hh. }
  assert (locked w1c = locked w) as Hlockedc.
  { unfold w1c, close_stream. now rewrite Hh. }
  assert (logs w1c = logs w) as Hlogsc.
  { unfold w1c, close_stream. now rewrite Hh. }
  assert (inflight w1c = []) as Hidlec.
  { unfold w1c, close_stream. now rewrite Hh. }
  assert (fs w1c !! file = Some (mkStats n (clock w) false)) as Hsrc.
  { rewrite Hfsc, Hfs, lookup_alter_eq, lookup_insert_eq. reflexivity. }
  assert (fs w1c !! dest = fs w !! dest) as Hdest.
  { rewrite Hfsc, lookup_alter_ne by congruence.
    now rewrite Hfs, lookup_insert_ne by congruence. }
  set (t := mkTask self type guid hash file size).
  set (w2 := spawn t w1c).
  exists h, w1, tx1, w2, (set_files [file_of_stream entry] tx1).
  split; [exact Hrun |].
  split; [unfold endPutTransaction; rewrite Hfin; reflexivity |].
  split; [reflexivity |].
  split; [unfold getFileInfo, fs_stat; fold dest; simpl; now rewrite Hdest |].
  split; [exact Hsrc |]. split; [exact Hlogsc |].
  intros schedule Hdone.
  destruct (event_loop_task G schedule w2 [] t [])
    as (new & Hnew & Hlen & Hout).
  { unfold w2. simpl. now rewrite Hidlec. }
  { constructor. }
  { exact Hdone. }
  assert (inflight w2 = [t]) as Hin2 by (unfold w2; simpl; now rewrite Hidlec).
  rewrite Hin2 in Hlen.
  change (task_sourcePath t) with file in Hout.
  change (task_filePath G t) with dest in Hout.
  change (task_size t) with size in Hout.
  rewrite (fs_move_succeeds file dest w2 (mkStats n (clock w) false)) in Hout;
    [| exact Hsrc | simpl; now rewrite Hlockedc | simpl; now rewrite Hlockedc].
  destruct Hout as (Hadded & Hmoved & Hgone).
  change (fs w2 !! file) with (fs w1c !! file) in Hmoved. rewrite Hsrc in Hmoved.
  destruct new as [|line [|line' new]]; try discriminate.
  destruct Hadded as [-> | []].
  split; [unfold getFileInfo, fs_stat; fold dest; now rewrite Hmoved |].
  split; [exact Hmoved |]. split; [now apply Hgone |].
  rewrite Hnew. simpl. now rewrite Hlogsc.
Qed.

Lemma put_commit_stat_round_trip_witness :
  exists h w1 tx1 w2 tx2,
    getWriteStream "a" (VNumber (Finite (inject_Z 5))) empty_store
      (createPutTransaction expire_after_one_day example_guid example_hash)
      = (Resolved h, w1, tx1)
    /\ endPutTransaction expire_after_one_day w1 tx1 = (Resolved tt, w2, tx2)
    /\ manifest tx2 = ["a"]
    /\ getFileInfo hexGUID expire_after_one_day "a" example_guid example_hash w2
       = getFileInfo hexGUID expire_after_one_day "a" example_guid example_hash
           empty_store
    /\ fs w2 !! path_join "/cache" (rng empty_store (draws empty_store))
       = Some (mkStats 5 (clock empty_store) false)
    /\ logs w2 = logs empty_store
    /\ forall schedule,
         inflight (event_loop hexGUID schedule w2) = [] ->
         getFileInfo hexGUID expire_after_one_day "a" example_guid example_hash
           (event_loop hexGUID schedule w2) = Resolved 5
         /\ fs (event_loop hexGUID schedule w2)
              !! _calcFilepath hexGUID "/cache" "a" example_guid example_hash
            = Some (mkStats 5 (clock empty_store) false)
         /\ fs (event_loop hexGUID schedule w2)
              !! path_join "/cache" (rng empty_store (draws empty_store)) = None
         /\ logs (event_loop hexGUID schedule w2)
            = logs empty_store
              ++ [LOG_TEST_added (VNumber (Finite (inject_Z 5)))
                    (_calcFilepath hexGUID "/cache" "a" example_guid example_hash)].
Proof.
  apply (put_commit_stat_round_trip hexGUID expire_after_one_day example_guid
           example_hash "a" 5 empty_store).
  - reflexivity.
  - lia.
  - reflexivity.
  - vm_compute. intros H. discriminate H.
  - vm_compute. intros H. discriminate H.
  - vm_compute. discriminate.
  - intros st Hst. vm_compute in Hst. discriminate Hst.
  - reflexivity.
Defined.
